(** * Multi-level category management: tree assembly, status cascade,
      delete-and-reparent

    Shallow embedding of the category logic of the API (the exported tree
    helpers [buildCategoryTree] and [getAllDescendantIds], the handlers of
    [controllers/categoryController], the [models/Category] schema) and the
    properties its specification states about them. *)

From Stdlib Require Import Ascii String.
From stdpp Require Import base option list relations strings gmap.

Set Default Proof Using "Type".
Set Warnings "-register-all".

(** ** Data model ([models/Category]) *)

(** [status: 'active' | 'inactive'] *)
Inductive Status := active | inactive.

#[global] Instance Status_eq_dec : EqDecision Status.
Proof. solve_decision. Defined.

(** [ICategory]: an [ObjectId] is represented by its [toString()] form (24
    hexadecimal digits, lower case); an absent (or null) [parent] is [None].
    A string of a request is not an [ObjectId]: the query or the document
    that receives it casts it first ([ObjectId_cast] below). *)
Record ICategory := mkCategory {
  _id : string;
  name : string;
  parent : option string;
  status : Status
}.

#[global] Instance ICategory_eq_dec : EqDecision ICategory.
Proof. solve_decision. Defined.

(** A flat set of categories, as an array ([ICategory[]]) or as the documents
    of the collection in their natural order. *)
Abbreviation Categories := (list ICategory).

Definition ids (categories : Categories) : list string := _id <$> categories.

(** ** Descendant-id listing (tree helpers: [getAllDescendantIds]) *)

(** [categories.filter(cat => cat.parent && cat.parent.toString() === categoryId)] *)
Definition childrenOf (categoryId : string) (categories : Categories) : Categories :=
  filter (λ cat, parent cat = Some categoryId) categories.

(** The recursion of the source is not structural; [fuel] bounds the number of
    nested activations and [None] stands for a call that exceeds it. *)
Fixpoint getAllDescendantIds (fuel : nat) (categoryId : string)
    (categories : Categories) : option (list string) :=
  match fuel with
  | 0 => None
  | S fuel =>
    let children := childrenOf categoryId categories in
    foldl (λ acc child,
             descendants ← acc;
             let childId := _id child in
             childDescendants ← getAllDescendantIds fuel childId categories;
             Some ((descendants ++ [childId]) ++ childDescendants))
          (Some []) children
  end.

(** ** Tree builder (tree helpers: [buildCategoryTree]) *)

(** [CategoryTreeNode]. The nodes are objects shared between [categoryMap],
    the [children] arrays and [rootCategories]; after the first pass the live
    node objects are exactly the values of [categoryMap], one per key, so a
    reference to a node is its key and [children] holds references. *)
Record CategoryTreeNode := mkNode {
  node_id : string;
  node_name : string;
  node_status : Status;
  children : list string
}.

Definition push_child (childRef : string) (node : CategoryTreeNode) : CategoryTreeNode :=
  mkNode (node_id node) (node_name node) (node_status node) (children node ++ [childRef]).

(** First [forEach]: [categoryMap.set(category._id.toString(), {...})]. *)
Definition mapCategories (categories : Categories) : gmap string CategoryTreeNode :=
  foldl (λ categoryMap category,
           <[_id category :=
               mkNode (_id category) (name category) (status category) []]> categoryMap)
        ∅ categories.

(** The value returned by the builder: the array [rootCategories] of node
    references, with the node objects they lead to. *)
Record Forest := mkForest {
  categoryMap : gmap string CategoryTreeNode;
  rootCategories : list string
}.

Module Utils.

(** Body of the second [forEach] of the exported helper [buildCategoryTree]. *)
Definition attach (st : Forest) (category : ICategory) : Forest :=
  let categoryId := _id category in
  match categoryMap st !! categoryId with
  | None => st
  | Some _ =>
    match parent category with
    | Some parentId =>
      match categoryMap st !! parentId with
      | Some parentNode =>
        mkForest (<[parentId := push_child categoryId parentNode]> (categoryMap st))
                 (rootCategories st)
      | None => mkForest (categoryMap st) (rootCategories st ++ [categoryId])
      end
    | None => mkForest (categoryMap st) (rootCategories st ++ [categoryId])
    end
  end.

Definition buildCategoryTree (categories : Categories) : Forest :=
  foldl attach (mkForest (mapCategories categories) []) categories.

End Utils.

(** The nested value a caller observes by walking the returned references
    (what [res.json] serialises): [None] when the walk exceeds [fuel] levels or
    meets a reference without node. *)
Inductive Tree := TreeNode (id nm : string) (st : Status) (kids : list Tree).

Fixpoint reify (fuel : nat) (nodes : gmap string CategoryTreeNode) (ref : string)
    : option Tree :=
  match fuel with
  | 0 => None
  | S fuel =>
    node ← nodes !! ref;
    kids ← mapM (reify fuel nodes) (children node);
    Some (TreeNode (node_id node) (node_name node) (node_status node) kids)
  end.

Definition reify_forest (fuel : nat) (out : Forest) : option (list Tree) :=
  mapM (reify fuel (categoryMap out)) (rootCategories out).

(** Nodes of a tree in preorder, as (id, name, status). *)
Fixpoint tree_nodes (t : Tree) : list (string * string * Status) :=
  match t with
  | TreeNode id nm st kids => (id, nm, st) :: concat (map tree_nodes kids)
  end.

Definition forest_nodes (ts : list Tree) : list (string * string * Status) :=
  concat (map tree_nodes ts).

(** Total number of nodes, each occurrence counted. *)
Fixpoint tree_size (t : Tree) : nat :=
  match t with
  | TreeNode _ _ _ kids => S (sum_list (map tree_size kids))
  end.

Definition forest_size (ts : list Tree) : nat := sum_list (map tree_size ts).

Definition record_of (c : ICategory) : string * string * Status :=
  (_id c, name c, status c).

(** ** The collection ([Category] model operations) *)

Definition set_status (s : Status) (c : ICategory) : ICategory :=
  mkCategory (_id c) (name c) (parent c) s.
Definition set_parent (p : option string) (c : ICategory) : ICategory :=
  mkCategory (_id c) (name c) p (status c).
Definition set_name_status (n : string) (s : Status) (c : ICategory) : ICategory :=
  mkCategory (_id c) n (parent c) s.

(** [$set] documents used by the controller. *)
Inductive SetDoc :=
  | SetStatus (s : Status)
  | SetParent (p : option string).

Definition apply_set (u : SetDoc) : ICategory → ICategory :=
  match u with
  | SetStatus s => set_status s
  | SetParent p => set_parent p
  end.

(** [{ updateOne: { filter: { _id }, update: { $set } } }] *)
Record UpdateOne := mkUpdateOne { filter_id : string; update : SetDoc }.

(** [updateOne] changes the first document that matches the filter. *)
Fixpoint updateOne (id : string) (f : ICategory → ICategory) (db : Categories)
    : Categories :=
  match db with
  | [] => []
  | c :: db => if decide (_id c = id) then f c :: db else c :: updateOne id f db
  end.

Definition bulkWrite (bulkOps : list UpdateOne) (db : Categories) : Categories :=
  foldl (λ db op, updateOne (filter_id op) (apply_set (update op)) db) db bulkOps.

(** The document whose [_id] is the [ObjectId] [id], if any. *)
Definition lookupById (id : string) (db : Categories) : option ICategory :=
  head (filter (λ c, _id c = id) db).

(** Removes the first document whose [_id] is the [ObjectId] [id]. *)
Fixpoint deleteById (id : string) (db : Categories) : Categories :=
  match db with
  | [] => []
  | c :: db => if decide (_id c = id) then db else c :: deleteById id db
  end.

(** ** Status cascade ([controllers]: [updateDescendantStatus]) *)

(** What a query, [save()], the serialiser or a second send throws. *)
Inductive Exn := CastError | ValidationError | RangeError | ERR_HTTP_HEADERS_SENT.

(** The recursion, from the [ObjectId] that [Category.find({ parent:
    parentId })] matches on: state passing over the collection, the query
    being [childrenOf parentId db] on the current collection. The recursive
    calls pass [child._id.toString()], which the query casts back to
    [child._id]. *)
Fixpoint cascade_from (fuel : nat) (parentId : string) (st : Status)
    (db : Categories) : option Categories :=
  match fuel with
  | 0 => None
  | S fuel =>
    let children := childrenOf parentId db in
    if decide (0 < length children) then
      let bulkOps := (λ child, mkUpdateOne (_id child) (SetStatus st)) <$> children in
      let db := bulkWrite bulkOps db in
      foldl (λ acc child, db ← acc; cascade_from fuel (_id child) st db)
            (Some db) children
    else Some db
  end.

Section cast.

(** [mongoose.Types.ObjectId.isValid], also deciding whether a string casts
    to an [ObjectId] in a query or a document, and the [ObjectId] (in its
    [toString()] form) that such a string casts to: the hexadecimal digits
    are read whatever their case. *)
Variable ObjectId_isValid : string → bool.
Variable ObjectId_cast : string → string.

(** [updateDescendantStatus(parentId, status)] on a string: the first query
    casts [parentId] and throws when it does not cast, before anything is
    written. [None] stands for a call that exceeds [fuel] nested
    activations, [Some (inl e)] for one that throws [e], [Some (inr db)] for
    one that returns and leaves the collection [db]. *)
Definition updateDescendantStatus (fuel : nat) (parentId : string) (st : Status)
    (db : Categories) : option (Exn + Categories) :=
  match fuel with
  | 0 => None
  | S _ =>
    if ObjectId_isValid parentId
    then inr <$> cascade_from fuel (ObjectId_cast parentId) st db
    else Some (inl CastError)
  end.

(** The same routine with the cast written in the query of every call, the
    recursive ones included, as the source has it. On a store whose ids are
    [ObjectId]s the two agree ([updateDescendantStatus_rec_agrees_run]). *)
Fixpoint updateDescendantStatus_rec (fuel : nat) (parentId : string) (st : Status)
    (db : Categories) : option (Exn + Categories) :=
  match fuel with
  | 0 => None
  | S fuel =>
    if ObjectId_isValid parentId then
      let children := childrenOf (ObjectId_cast parentId) db in
      if decide (0 < length children) then
        let bulkOps := (λ child, mkUpdateOne (_id child) (SetStatus st)) <$> children in
        let db := bulkWrite bulkOps db in
        foldl (λ acc child,
                 match acc with
                 | Some (inr db) => updateDescendantStatus_rec fuel (_id child) st db
                 | _ => acc
                 end)
              (Some (inr db)) children
      else Some (inr db)
    else Some (inl CastError)
  end.

(** The ids of the stored documents are [ObjectId]s: their string form is
    well formed and casts back to the id. *)
Definition object_ids (db : Categories) : Prop :=
  ∀ i, i ∈ ids db → ObjectId_isValid i = true ∧ ObjectId_cast i = i.

End cast.

(** ** Request handlers ([controllers/categoryController]) *)

(** What [res.status(code).json({ message, ... })] sends. *)
Record Response := mkResponse { statusCode : nat; message : string }.

(** The collection and the response sent so far on [res]. *)
Record World := mkWorld { collection : Categories; sent : option Response }.

(** An [async] body either returns, throws (rejects), or never completes. *)
Inductive Outcome (A : Type) :=
  | Returned (a : A) (w : World)
  | Thrown (e : Exn) (w : World)
  | Diverged.
Arguments Returned {A} a w.
Arguments Thrown {A} e w.
Arguments Diverged {A}.

Definition Async (A : Type) : Type := World → Outcome A.

#[global] Instance Async_ret : MRet Async := λ A a w, Returned a w.
#[global] Instance Async_bind : MBind Async := λ A B k m w,
  match m w with
  | Returned a w' => k a w'
  | Thrown e w' => Thrown e w'
  | Diverged => Diverged
  end.

Definition throw {A} (e : Exn) : Async A := λ w, Thrown e w.

(** An awaited call that never settles. *)
Definition diverge {A} : Async A := λ _, Diverged.

Definition get_collection : Async Categories := λ w, Returned (collection w) w.
Definition put_collection (db : Categories) : Async unit :=
  λ w, Returned () (mkWorld db (sent w)).

(** [try { body } catch (error) { handler }] *)
Definition try_catch {A} (body : Async A) (handler : Exn → Async A) : Async A :=
  λ w, match body w with
       | Thrown e w' => handler e w'
       | o => o
       end.

(** [res.status(code).json(...)]: sending twice throws. *)
Definition res_json (code : nat) (msg : string) : Async unit :=
  λ w, match sent w with
       | None => Returned () (mkWorld (collection w) (Some (mkResponse code msg)))
       | Some _ => Thrown ERR_HTTP_HEADERS_SENT w
       end.

(** JavaScript truthiness of an optional string field of [req.body]. *)
Definition truthy (v : option string) : bool :=
  match v with
  | Some s => bool_decide (s ≠ "")
  | None => false
  end.

Definition Status_to_string (s : Status) : string :=
  match s with active => "active" | inactive => "inactive" end.

(** [enum: ['active', 'inactive']] *)
Definition Status_of_string (s : string) : option Status :=
  if decide (s = "active") then Some active
  else if decide (s = "inactive") then Some inactive
  else None.

(** [req.body] *)
Record Body := mkBody {
  req_name : option string;
  req_parent : option string;
  req_status : option string
}.

(** A model document in memory, before validation: [name] may be missing and
    [status] is whatever string was assigned. *)
Record Document := mkDocument {
  doc_id : string;
  doc_name : option string;
  doc_parent : option string;
  doc_status : string
}.

(** Schema validation run by [save()]: [name] is required (non-empty),
    [status] is one of the enum values. *)
Definition validate (d : Document) : option ICategory :=
  n ← doc_name d;
  if decide (n = "") then None
  else s ← Status_of_string (doc_status d);
       Some (mkCategory (doc_id d) n (doc_parent d) s).

Module Controller.

(** Body of the second [forEach] of the controller's [buildCategoryTree];
    [mappedCat] is the reference [categoryMap.get(category._id.toString())]. *)
Definition attach (st : Forest) (category : ICategory) : Forest :=
  let mappedCat := _id category in
  match parent category with
  | Some parentId =>
    match categoryMap st !! parentId with
    | Some parentNode =>
      mkForest (<[parentId := push_child mappedCat parentNode]> (categoryMap st))
               (rootCategories st)
    | None => st
    end
  | None => mkForest (categoryMap st) (rootCategories st ++ [mappedCat])
  end.

Definition buildCategoryTree (categories : Categories) : Forest :=
  foldl attach (mkForest (mapCategories categories) []) categories.

(** [res.json({ categories: categoryTree })]: the serialiser walks the
    nodes from the roots, one nested activation per level, and throws a
    [RangeError] when the nesting exceeds the [depth] levels the stack
    holds; nothing has been sent then. Otherwise the nested value is sent
    with status 200 (and no message); it is the value returned here. *)
Definition res_json_tree (depth : nat) (categoryTree : Forest) : Async (list Tree) :=
  match reify_forest depth categoryTree with
  | Some body => res_json 200 "";; mret body
  | None => throw RangeError
  end.

(** [getAllCategories]: returns the nested value it sent, [None] when it
    answered 500 instead. *)
Definition getAllCategories (depth : nat) : Async (option (list Tree)) :=
  try_catch
    (categories ← get_collection;
     let categoryTree := buildCategoryTree categories in
     body ← res_json_tree depth categoryTree;
     mret (Some body))
    (λ error, res_json 500 "Failed to fetch categories";; mret None).

Section handlers.

(** [mongoose.Types.ObjectId.isValid] and the cast of a string to an
    [ObjectId] (see [updateDescendantStatus]), and [String.prototype.trim]
    (the schema's [trim: true] setter). *)
Variable ObjectId_isValid : string → bool.
Variable ObjectId_cast : string → string.
Variable String_trim : string → string.

(** [Category.findById(id)] on a string: the query casts [id]. *)
Definition Category_findById (id : string) : Async (option ICategory) :=
  if ObjectId_isValid id
  then db ← get_collection; mret (lookupById (ObjectId_cast id) db)
  else throw CastError.

(** [Category.find({ parent: id })] on a string. *)
Definition Category_find_parent (id : string) : Async Categories :=
  if ObjectId_isValid id
  then db ← get_collection; mret (childrenOf (ObjectId_cast id) db)
  else throw CastError.

Definition Category_bulkWrite (bulkOps : list UpdateOne) : Async unit :=
  db ← get_collection; put_collection (bulkWrite bulkOps db).

(** [Category.findByIdAndDelete(id)] on a string. *)
Definition Category_findByIdAndDelete (id : string) : Async unit :=
  if ObjectId_isValid id
  then db ← get_collection; put_collection (deleteById (ObjectId_cast id) db)
  else throw CastError.

(** [await updateDescendantStatus(id, status)] *)
Definition await_updateDescendantStatus (fuel : nat) (id : string) (st : Status)
    : Async unit :=
  db ← get_collection;
  match updateDescendantStatus ObjectId_isValid ObjectId_cast fuel id st db with
  | Some (inr db') => put_collection db'
  | Some (inl error) => throw error
  | None => diverge
  end.

(** [save()] of a new document: validate, then insert. *)
Definition save_new (d : Document) : Async unit :=
  match validate d with
  | Some c => db ← get_collection; put_collection (db ++ [c])
  | None => throw ValidationError
  end.

(** [save()] of a loaded document: validate, then write the assigned paths
    ([name], [status]) to the stored document with the same [_id]. *)
Definition save (d : Document) : Async unit :=
  match validate d with
  | Some c =>
    db ← get_collection;
    put_collection (updateOne (doc_id d) (set_name_status (name c) (status c)) db)
  | None => throw ValidationError
  end.

(** [createCategory]; [newId] is the [_id] that [new Category(...)]
    generates, and the document casts the [parent] it is given. *)
Definition createCategory (newId : string) (body : Body) : Async unit :=
  try_catch
    ((if truthy (req_parent body) then
        parentCategory ← Category_findById (default "" (req_parent body));
        match parentCategory with
        | None => res_json 400 "Parent category not found"
        | Some _ => mret ()
        end
      else mret ());;
     let category :=
       mkDocument newId (String_trim <$> req_name body)
         (if truthy (req_parent body) then ObjectId_cast <$> req_parent body else None)
         (if truthy (req_status body) then default "" (req_status body) else "active") in
     save_new category;;
     res_json 201 "Category created successfully")
    (λ error, res_json 500 "Failed to create category").

(** [updateCategory], with [id = req.params.id]. *)
Definition updateCategory (fuel : nat) (id : string) (body : Body) : Async unit :=
  try_catch
    (if negb (ObjectId_isValid id) then res_json 400 "Invalid category ID"
     else
       found ← Category_findById id;
       match found with
       | None => res_json 404 "Category not found"
       | Some c =>
         let category :=
           mkDocument (_id c)
             (if truthy (req_name body) then String_trim <$> req_name body
              else Some (name c))
             (parent c) (Status_to_string (status c)) in
         let st := default "" (req_status body) in
         category ←
           (if truthy (req_status body)
               && bool_decide (st ≠ doc_status category)
               && bool_decide (st = "inactive")
            then
              let category :=
                mkDocument (doc_id category) (doc_name category) (doc_parent category) st in
              await_updateDescendantStatus fuel id inactive;;
              mret category
            else if truthy (req_status body) then
              mret (mkDocument (doc_id category) (doc_name category)
                               (doc_parent category) st)
            else mret category);
         save category;;
         res_json 200 "Category updated successfully"
       end)
    (λ error, res_json 500 "Failed to update category").

(** [deleteCategory], with [id = req.params.id]. *)
Definition deleteCategory (id : string) : Async unit :=
  try_catch
    ((if negb (ObjectId_isValid id) then res_json 400 "Invalid category ID"
      else mret ());;
     found ← Category_findById id;
     match found with
     | None => res_json 404 "Category not found"
     | Some category =>
       let parentId := parent category in
       subcategories ← Category_find_parent id;
       (if decide (0 < length subcategories) then
          let bulkOps :=
            (λ subcat, mkUpdateOne (_id subcat) (SetParent parentId)) <$> subcategories in
          Category_bulkWrite bulkOps
        else mret ());;
       Category_findByIdAndDelete id;;
       res_json 200 "Category deleted successfully and subcategories reassigned"
     end)
    (λ error, res_json 500 "Failed to delete category").

End handlers.

End Controller.

(** ** The parent graph *)

(** [is_child cats p c]: some record of [cats] has id [c] and parent [p]. *)
Definition is_child (cats : Categories) (p c : string) : Prop :=
  ∃ cat, cat ∈ cats ∧ _id cat = c ∧ parent cat = Some p.

(** Transitive descendants: the transitive closure of "is a child of". *)
Definition descendant (cats : Categories) : relation string := tc (is_child cats).

(** No category is its own transitive descendant. *)
Definition acyclic (cats : Categories) : Prop := ∀ x, ¬ descendant cats x x.

(** Ids are pairwise distinct. *)
Definition unique_ids (cats : Categories) : Prop := NoDup (ids cats).

(** A chain of [n] child links going down from [x]. *)
Fixpoint has_chain (cats : Categories) (n : nat) (x : string) : Prop :=
  match n with
  | 0 => True
  | S n => ∃ y, is_child cats x y ∧ has_chain cats n y
  end.

(** The subtree below [x] has depth [d]: the longest chain of child links
    starting at [x] has [d] links. *)
Definition subtree_depth (cats : Categories) (x : string) (d : nat) : Prop :=
  has_chain cats d x ∧ ¬ has_chain cats (S d) x.

(** Executable acyclicity check: the listing from every record's id returns
    within [length cats + 1] nested activations. *)
Definition acyclicb (cats : Categories) : bool :=
  forallb
    (λ cat, bool_decide
              (is_Some (getAllDescendantIds (S (length cats)) (_id cat) cats)))
    cats.

(** The loop of [getAllDescendantIds] over the direct children, for a given
    recursive call [rec] and the list accumulated so far. *)
Definition listing_step (rec : string → option (list string)) (kids : Categories)
    (acc : option (list string)) : option (list string) :=
  foldl (λ acc child,
           descendants ← acc;
           let childId := _id child in
           childDescendants ← rec childId;
           Some ((descendants ++ [childId]) ++ childDescendants)) acc kids.

(** Depth-first preorder of the subtree below [x]: the direct children in
    the order of their records in the input, each child's id immediately
    followed by the preorder listing of that child's own subtree. *)
Inductive preorder (cats : Categories) : string → list string → Prop :=
  | preorder_children x ls :
      Forall2 (λ kid lk, preorder cats (_id kid) lk) (childrenOf x cats) ls →
      preorder cats x (concat (zip_with (λ kid lk, _id kid :: lk) (childrenOf x cats) ls)).

(** [c'] is [c], or [c] with only its status overwritten by [st], the
    latter only for an id that satisfies [P]. *)
Definition touched (st : Status) (P : string → Prop) (c c' : ICategory) : Prop :=
  c' = c ∨ (P (_id c) ∧ c' = set_status st c).

(** Two collections hold, position by position, records with the same id and
    the same parent. *)
Definition same_graph (db db' : Categories) : Prop :=
  Forall2 (λ c c', _id c' = _id c ∧ parent c' = parent c) db db'.

(** The world in which a handler ends, if it ends. *)
Definition world_of {A} (o : Outcome A) : option World :=
  match o with
  | Returned _ w => Some w
  | Thrown _ w => Some w
  | Diverged => None
  end.

(** What delete-and-reparent does to a surviving record: a direct child of
    [id] is given the parent [grandparent]; any other record is kept. *)
Definition promote (id : string) (grandparent : option string) (c : ICategory)
    : ICategory :=
  if decide (parent c = Some id) then set_parent grandparent c else c.

(** The status a create request asks for: [status || 'active'], if it is
    one of the enum values. *)
Definition requested_status (body : Body) : option Status :=
  Status_of_string
    (if truthy (req_status body) then default "" (req_status body) else "active").

(** ** Instances of the library functions, for the examples *)

Definition is_hex_digit (a : ascii) : bool :=
  match a with
  | "0" | "1" | "2" | "3" | "4" | "5" | "6" | "7" | "8" | "9"
  | "a" | "b" | "c" | "d" | "e" | "f"
  | "A" | "B" | "C" | "D" | "E" | "F" => true
  | _ => false
  end%char.

Fixpoint all_hex (s : string) : bool :=
  match s with
  | EmptyString => true
  | String a s => is_hex_digit a && all_hex s
  end.

(** A 24-character hexadecimal string. *)
Definition hex24 (s : string) : bool :=
  bool_decide (String.length s = 24) && all_hex s.

Definition lower_hex_digit (a : ascii) : ascii :=
  match a with
  | "A" => "a" | "B" => "b" | "C" => "c" | "D" => "d" | "E" => "e" | "F" => "f"
  | _ => a
  end%char.

(** The hexadecimal digits in lower case, as [ObjectId.toString()] prints
    them. *)
Fixpoint lower_hex (s : string) : string :=
  match s with
  | EmptyString => EmptyString
  | String a s => String (lower_hex_digit a) (lower_hex s)
  end.

Fixpoint drop_space (s : string) : string :=
  match s with
  | EmptyString => EmptyString
  | String a s' => if Ascii.is_space a then drop_space s' else s
  end.

(** White space removed at both ends. *)
Definition trim_ascii (s : string) : string :=
  String.rev (drop_space (String.rev (drop_space s))).

(** A record is presented as a root when it has no parent or when its parent
    id is not the id of any record of the set. *)
Definition is_root (cats : Categories) (c : ICategory) : Prop :=
  match parent c with
  | Some p => p ∉ ids cats
  | None => True
  end.

#[global] Instance is_root_dec cats c : Decision (is_root cats c).
Proof. unfold is_root. destruct (parent c); apply _. Defined.

(** The same test against the keys of a node map. *)
Definition root_in (m : gmap string CategoryTreeNode) (c : ICategory) : Prop :=
  match parent c with
  | Some p => m !! p = None
  | None => True
  end.

#[global] Instance root_in_dec m c : Decision (root_in m c).
Proof. unfold root_in. destruct (parent c); apply _. Defined.

Definition new_node (c : ICategory) : CategoryTreeNode :=
  mkNode (_id c) (name c) (status c) [].

Definition with_children (extra : list string) (n : CategoryTreeNode)
    : CategoryTreeNode :=
  mkNode (node_id n) (node_name n) (node_status n) (children n ++ extra).

Definition node_info (n : CategoryTreeNode) : string * string * Status :=
  (node_id n, node_name n, node_status n).

(** The (id, name, status) carried by the node a reference leads to. *)
Definition info_at (m : gmap string CategoryTreeNode) (ref : string)
    : string * string * Status :=
  from_option node_info (ref, "", active) (m !! ref).

(** The ids of the nodes of a tree, in preorder. *)
Definition tree_ids (t : Tree) : list string := (λ n, n.1.1) <$> tree_nodes t.

Definition forest_ids (ts : list Tree) : list string :=
  (λ n, n.1.1) <$> forest_nodes ts.

(** Every parent reference resolves: no record has a dangling parent. *)
Definition resolved (cats : Categories) : Prop :=
  ∀ c p, c ∈ cats → parent c = Some p → p ∈ ids cats.

Definition resolvedb (cats : Categories) : bool :=
  forallb (λ c, match parent c with
                | Some p => bool_decide (p ∈ ids cats)
                | None => true
                end) cats.

(** The store in which the records with an id in [D] have the status [st]
    and nothing else differs. *)
Definition mark (D : list string) (st : Status) (db : Categories) : Categories :=
  (λ c, if decide (_id c ∈ D) then set_status st c else c) <$> db.

(** The store a successful delete-and-reparent of [target] (with id [id])
    leaves: the other records, the direct children promoted. *)
Definition after_delete (id : string) (target : ICategory) (db : Categories)
    : Categories :=
  promote id (parent target) <$> filter (λ c, _id c ≠ id) db.

(** ** Sample data (the categories of the controller tests) *)

Definition electronics := mkCategory "65a000000000000000000001" "Electronics" None active.
Definition computers :=
  mkCategory "65a000000000000000000002" "Computers" (Some "65a000000000000000000001") active.
Definition laptops :=
  mkCategory "65a000000000000000000003" "Laptops" (Some "65a000000000000000000002") active.
Definition desktops :=
  mkCategory "65a000000000000000000004" "Desktops" (Some "65a000000000000000000002") active.
Definition gaming :=
  mkCategory "65a000000000000000000005" "Gaming Laptops" (Some "65a000000000000000000003") active.
Definition phones :=
  mkCategory "65a000000000000000000006" "Phones" (Some "65a000000000000000000001") active.
(** A record whose parent is not in the set. *)
Definition orphan :=
  mkCategory "65a000000000000000000007" "Orphan" (Some "65a0000000000000000000ff") active.

Definition sample : Categories :=
  [electronics; computers; laptops; desktops; gaming; phones; orphan].

(** The sample without the orphan: every parent is in the set. *)
Definition catalog : Categories :=
  [electronics; computers; laptops; desktops; gaming; phones].

(** The sample store after the delete of Computers. *)
Definition sample_without_computers : World :=
  mkWorld
    [electronics;
     mkCategory "65a000000000000000000003" "Laptops"
       (Some "65a000000000000000000001") active;
     mkCategory "65a000000000000000000004" "Desktops"
       (Some "65a000000000000000000001") active;
     gaming; phones; orphan]
    (Some (mkResponse 200
             "Category deleted successfully and subcategories reassigned")).

(** The sample store after everything was deactivated, with no response
    sent yet. *)
Definition all_inactive : World := mkWorld (set_status inactive <$> sample) None.

(** Two records that name each other as parent. *)
Definition loop_a :=
  mkCategory "65a00000000000000000000a" "A" (Some "65a00000000000000000000b") active.
Definition loop_b :=
  mkCategory "65a00000000000000000000b" "B" (Some "65a00000000000000000000a") active.

(** Unfolds a handler down to the matches on the outcome of each step. *)
Ltac unfold_handler :=
  unfold Controller.createCategory, Controller.updateCategory,
    Controller.deleteCategory,
    Controller.Category_findById, Controller.Category_find_parent,
    Controller.Category_bulkWrite, Controller.Category_findByIdAndDelete,
    Controller.await_updateDescendantStatus, Controller.save_new, Controller.save,
    Controller.getAllCategories, Controller.res_json_tree,
    try_catch, res_json, get_collection, put_collection, throw, diverge,
    mbind, Async_bind, mret, Async_ret in *.

(** * Properties of the parent graph and of the listing *)

Section listing.
Context (cats : Categories).
Implicit Types x y c : string.

Lemma is_child_childrenOf p c :
  is_child cats p c ↔ c ∈ ids (childrenOf p cats).
Proof.
  unfold is_child, ids, childrenOf. rewrite list_elem_of_fmap. split.
  - intros (cat & Hin & <- & Hp). exists cat. split; [done|].
    by apply list_elem_of_filter.
  - intros (cat & -> & [Hp Hin]%list_elem_of_filter). eauto.
Qed.

Lemma is_child_in_ids p c : is_child cats p c → c ∈ ids cats.
Proof. intros (cat & Hin & <- & _). unfold ids. by apply list_elem_of_fmap_2. Qed.

Lemma descendant_in_ids x y : descendant cats x y → y ∈ ids cats.
Proof. induction 1; eauto using is_child_in_ids. Qed.

Lemma listing_step_None rec kids : listing_step rec kids None = None.
Proof. induction kids; simpl; auto. Qed.

Lemma listing_step_cons rec kid kids acc :
  listing_step rec (kid :: kids) (Some acc) =
  match rec (_id kid) with
  | Some l => listing_step rec kids (Some (acc ++ _id kid :: l))
  | None => None
  end.
Proof.
  simpl. destruct (rec (_id kid)) as [l|]; simpl.
  - by rewrite <- app_assoc.
  - apply listing_step_None.
Qed.

Lemma listing_step_spec rec kids acc :
  listing_step rec kids (Some acc) =
  ls ← mapM (λ kid, rec (_id kid)) kids;
  Some (acc ++ concat (zip_with (λ kid l, _id kid :: l) kids ls)).
Proof.
  revert acc. induction kids as [|kid kids IH]; intros acc.
  - simpl. by rewrite app_nil_r.
  - rewrite listing_step_cons. simpl.
    destruct (rec (_id kid)) as [l|]; simpl; [|done].
    rewrite IH. destruct (mapM _ kids) as [ls|]; simpl; [|done].
    by rewrite <- app_assoc.
Qed.

Lemma getAllDescendantIds_S fuel x :
  getAllDescendantIds (S fuel) x cats =
  ls ← mapM (λ kid, getAllDescendantIds fuel (_id kid) cats) (childrenOf x cats);
  Some (concat (zip_with (λ kid l, _id kid :: l) (childrenOf x cats) ls)).
Proof.
  exact (listing_step_spec (λ c, getAllDescendantIds fuel c cats) (childrenOf x cats) []).
Qed.

End listing.

Section listing_results.
Context (cats : Categories).
Implicit Types x y c : string.

Lemma getAllDescendantIds_Some fuel x l :
  getAllDescendantIds (S fuel) x cats = Some l ↔
  ∃ ls, Forall2 (λ kid lk, getAllDescendantIds fuel (_id kid) cats = Some lk)
                (childrenOf x cats) ls
        ∧ l = concat (zip_with (λ kid lk, _id kid :: lk) (childrenOf x cats) ls).
Proof.
  rewrite getAllDescendantIds_S, bind_Some. split.
  - intros (ls & Hls%mapM_Some & [= <-]). eauto.
  - intros (ls & Hls%mapM_Some & ->). eauto.
Qed.

(** The listing exceeds [fuel] nested activations exactly when a chain of
    [fuel] child links starts at the queried id. *)
Lemma getAllDescendantIds_None fuel x :
  getAllDescendantIds fuel x cats = None ↔ has_chain cats fuel x.
Proof.
  revert x. induction fuel as [|fuel IH]; intros x; [done|].
  rewrite getAllDescendantIds_S, bind_None. cbn [has_chain]. split.
  - intros [Hnone|(ls & _ & [=])].
    apply mapM_None, Exists_exists in Hnone as (kid & Hkid & Hk).
    exists (_id kid). split; [|by apply IH].
    apply is_child_childrenOf. unfold ids. by apply list_elem_of_fmap_2.
  - intros (y & Hy & Hch). left. apply mapM_None, Exists_exists.
    apply is_child_childrenOf in Hy. unfold ids in Hy.
    apply list_elem_of_fmap in Hy as (kid & -> & Hkid).
    exists kid. split; [done|]. by apply IH.
Qed.

Lemma has_chain_S n x : has_chain cats (S n) x → has_chain cats n x.
Proof.
  revert x. induction n as [|n IH]; intros x; [done|].
  intros (y & Hy & Hch). exists y. eauto.
Qed.

Lemma has_chain_le n m x : n ≤ m → has_chain cats m x → has_chain cats n x.
Proof. induction 1; eauto using has_chain_S. Qed.

Lemma has_chain_dec n x : Decision (has_chain cats n x).
Proof.
  destruct (getAllDescendantIds n x cats) as [l|] eqn:E.
  - right. intros H%getAllDescendantIds_None. congruence.
  - left. by apply getAllDescendantIds_None.
Defined.

(** More fuel does not change a result. *)
Lemma getAllDescendantIds_mono fuel fuel' x l :
  getAllDescendantIds fuel x cats = Some l → fuel ≤ fuel' →
  getAllDescendantIds fuel' x cats = Some l.
Proof.
  revert fuel' x l. induction fuel as [|fuel IH]; intros fuel' x l; [done|].
  intros (ls & Hls & ->)%getAllDescendantIds_Some Hle.
  destruct fuel' as [|fuel']; [lia|].
  apply getAllDescendantIds_Some. exists ls. split; [|done].
  eapply Forall2_impl; [done|]. intros kid lk Hk. apply IH; [done|lia].
Qed.

(** The listed ids are exactly the transitive descendants. *)
Lemma getAllDescendantIds_elem_of fuel x l y :
  getAllDescendantIds fuel x cats = Some l →
  y ∈ l ↔ descendant cats x y.
Proof.
  revert x l y. induction fuel as [|fuel IH]; intros x l y; [done|].
  intros (ls & Hls & ->)%getAllDescendantIds_Some.
  assert (∀ p, (∀ c, c ∈ ids (childrenOf x cats) → is_child cats p c) →
    y ∈ concat (zip_with (λ kid lk, _id kid :: lk) (childrenOf x cats) ls) ↔
    ∃ kid, kid ∈ childrenOf x cats ∧ (y = _id kid ∨ descendant cats (_id kid) y))
    as Hgen.
  { intros _ _. induction Hls as [|kid lk kids ls Hk Hls IHls]; simpl.
    - split; [by intros ?%elem_of_nil|by intros (? & ?%elem_of_nil & _)].
    - rewrite elem_of_cons, elem_of_app, IHls, (IH _ _ y Hk). split.
      + intros [->|[?|(k & ? & ?)]].
        * exists kid. split; [left|]; eauto.
        * exists kid. split; [left|]; eauto.
        * exists k. split; [by right|done].
      + intros (k & [->|?]%elem_of_cons & Hy); [tauto|]. right; right; eauto. }
  rewrite (Hgen x); [|by intros c ?%is_child_childrenOf]. split.
  - intros (kid & Hkid & Hy).
    assert (is_child cats x (_id kid)).
    { apply is_child_childrenOf. unfold ids. by apply list_elem_of_fmap_2. }
    destruct Hy as [->|Hy]; [by apply tc_once|]. by eapply tc_l.
  - intros Hd. inversion Hd as [? ? Hc|? c ? Hc Hcy]; subst.
    + apply is_child_childrenOf in Hc. unfold ids in Hc.
      apply list_elem_of_fmap in Hc as (kid & -> & Hkid). eauto.
    + apply is_child_childrenOf in Hc. unfold ids in Hc.
      apply list_elem_of_fmap in Hc as (kid & -> & Hkid). eauto.
Qed.

(** In an acyclic graph a chain of child links visits pairwise distinct ids,
    so it cannot be longer than the list of records. *)
Lemma has_chain_bound_stack n (stack : list string) x :
  acyclic cats →
  (∀ z, z ∈ stack → rtc (is_child cats) z x) →
  NoDup stack → (∀ z, z ∈ stack → z ∈ ids cats) →
  has_chain cats n x → n + length stack ≤ length cats.
Proof.
  intros Hacyc. revert stack x.
  induction n as [|n IH]; intros stack x Hanc Hnd Hin Hch.
  - simpl. rewrite <- (length_fmap _id cats).
    apply submseteq_length, NoDup_submseteq; done.
  - destruct Hch as (y & Hy & Hch).
    specialize (IH (y :: stack) y). simpl in IH.
    replace (S n + length stack) with (n + S (length stack)) by lia.
    apply IH; [| | |done].
    + intros z [->|Hz]%elem_of_cons; [done|].
      eapply rtc_r; [by apply Hanc|done].
    + apply NoDup_cons. split; [|done]. intros Hys.
      apply (Hacyc y). eapply tc_rtc_l; [by apply Hanc|by apply tc_once].
    + intros z [->|Hz]%elem_of_cons; [by eapply is_child_in_ids|by apply Hin].
Qed.

Lemma has_chain_bound n x : acyclic cats → has_chain cats n x → n ≤ length cats.
Proof.
  intros Hacyc Hch.
  pose proof (has_chain_bound_stack n [] x Hacyc) as H. simpl in H.
  rewrite Nat.add_0_r in H. apply H; [by intros ? ?%elem_of_nil|constructor|
    by intros ? ?%elem_of_nil|done].
Qed.

(** Without cycles the listing returns within [length cats + 1] nested
    activations. *)
Lemma getAllDescendantIds_total x :
  acyclic cats → is_Some (getAllDescendantIds (S (length cats)) x cats).
Proof.
  intros Hacyc.
  destruct (getAllDescendantIds _ x cats) as [l|] eqn:E; [by eexists|].
  apply getAllDescendantIds_None, has_chain_bound in E; [lia|done].
Qed.

(** A cycle below (or at) the queried id yields chains of every length. *)
Lemma cycle_has_chain n x y :
  rtc (is_child cats) x y → descendant cats y y → has_chain cats n x.
Proof.
  intros Hxy Hyy. revert x Hxy. induction n as [|n IH]; intros x Hxy; [done|].
  assert (descendant cats x y) as Hd by (by eapply tc_rtc_l).
  inversion Hd as [? ? Hc|? c ? Hc Hcy]; subst.
  - exists y. split; [done|]. by apply IH.
  - exists c. split; [done|]. apply IH. by apply tc_rtc.
Qed.

Lemma acyclicb_sound : acyclicb cats = true → acyclic cats.
Proof.
  unfold acyclicb. rewrite <- Is_true_true, forallb_True, Forall_forall.
  intros Hall x Hxx.
  assert (x ∈ ids cats) as Hx by (by eapply descendant_in_ids).
  unfold ids in Hx. apply list_elem_of_fmap in Hx as (cat & -> & Hcat).
  apply Hall in Hcat. apply bool_decide_unpack in Hcat as [l Hl].
  assert (getAllDescendantIds (S (length cats)) (_id cat) cats = None); [|congruence].
  apply getAllDescendantIds_None. by eapply cycle_has_chain.
Qed.

Lemma acyclicb_complete : acyclic cats → acyclicb cats = true.
Proof.
  intros Hacyc. unfold acyclicb. rewrite <- Is_true_true, forallb_True, Forall_forall.
  intros cat _. apply bool_decide_pack. by apply getAllDescendantIds_total.
Qed.

End listing_results.

(** * Descendant listing: order, membership, duplicates *)

Section listing_order.
Context (cats : Categories).
Implicit Types x y c : string.

Lemma listing_is_preorder fuel x l :
  getAllDescendantIds fuel x cats = Some l → preorder cats x l.
Proof.
  revert x l. induction fuel as [|fuel IH]; intros x l; [done|].
  intros (ls & Hls & ->)%getAllDescendantIds_Some.
  constructor. eapply Forall2_impl; [done|]. intros kid lk. apply IH.
Qed.

Lemma elem_of_blocks fuel (kids : Categories) ls y :
  Forall2 (λ kid lk, getAllDescendantIds fuel (_id kid) cats = Some lk) kids ls →
  y ∈ concat (zip_with (λ kid lk, _id kid :: lk) kids ls) ↔
  ∃ kid, kid ∈ kids ∧ rtc (is_child cats) (_id kid) y.
Proof.
  induction 1 as [|kid lk kids ls Hk Hls IHls]; simpl.
  - split; [by intros ?%elem_of_nil|by intros (? & ?%elem_of_nil & _)].
  - rewrite elem_of_cons, elem_of_app, IHls,
      (getAllDescendantIds_elem_of _ _ _ _ y Hk). split.
    + intros [->|[?|(k & ? & ?)]].
      * exists kid. split; [left|reflexivity].
      * exists kid. split; [left|]. by apply tc_rtc.
      * exists k. split; [by right|done].
    + intros (k & [->|?]%elem_of_cons & Hy); [|right; right; eauto].
      apply rtc_tc in Hy as [->|Hy]; eauto.
Qed.

Lemma unique_ids_inj (c1 c2 : ICategory) :
  unique_ids cats → c1 ∈ cats → c2 ∈ cats → _id c1 = _id c2 → c1 = c2.
Proof.
  unfold unique_ids, ids. induction cats as [|c l IH]; simpl.
  - by intros _ ?%elem_of_nil.
  - intros [Hc Hl]%NoDup_cons [->|H1]%elem_of_cons [->|H2]%elem_of_cons Heq; auto.
    + destruct Hc. rewrite Heq. by apply list_elem_of_fmap_2.
    + destruct Hc. rewrite <- Heq. by apply list_elem_of_fmap_2.
Qed.

Lemma unique_parent p q c :
  unique_ids cats → is_child cats p c → is_child cats q c → p = q.
Proof.
  intros Hu (c1 & H1 & E1 & P1) (c2 & H2 & E2 & P2).
  assert (c1 = c2) by (eapply unique_ids_inj; eauto; congruence).
  congruence.
Qed.

Lemma descendant_inv_r x y :
  descendant cats x y → ∃ z, rtc (is_child cats) x z ∧ is_child cats z y.
Proof.
  induction 1 as [x y Hxy|x c y Hxc _ (z & Hcz & Hzy)].
  - exists x. split; [done|done].
  - exists z. split; [by eapply rtc_l|done].
Qed.

(** With unique ids every node has one parent, so the ancestors of a node
    form a chain. *)
Lemma ancestors_chain a b y :
  unique_ids cats →
  rtc (is_child cats) a y → rtc (is_child cats) b y →
  rtc (is_child cats) a b ∨ rtc (is_child cats) b a.
Proof.
  intros Hu Ha Hb. revert a Ha. revert y Hb.
  apply (rtc_ind_r (λ y, ∀ a, rtc (is_child cats) a y →
                           rtc (is_child cats) a b ∨ rtc (is_child cats) b a) b);
    [by left|].
  intros y' y Hb' Hstep IH a Ha.
  apply rtc_inv_r in Ha as [->|(z & Haz & Hzy)].
  - right. by eapply rtc_r.
  - assert (z = y') as -> by (by eapply unique_parent). by apply IH.
Qed.

Lemma siblings_not_descendant x a b :
  unique_ids cats → acyclic cats →
  is_child cats x a → is_child cats x b → ¬ descendant cats a b.
Proof.
  intros Hu Hacyc Ha Hb (z & Haz & Hzb)%descendant_inv_r.
  assert (z = x) as -> by (by eapply unique_parent).
  apply (Hacyc x). eapply tc_rtc_r; [apply tc_once, Ha|exact Haz].
Qed.

Lemma blocks_NoDup fuel (kids : Categories) ls :
  unique_ids cats →
  (∀ x l, getAllDescendantIds fuel x cats = Some l → NoDup l) →
  Forall2 (λ kid lk, getAllDescendantIds fuel (_id kid) cats = Some lk) kids ls →
  NoDup (ids kids) →
  (∀ a b, a ∈ ids kids → b ∈ ids kids → ¬ descendant cats a b) →
  NoDup (concat (zip_with (λ kid lk, _id kid :: lk) kids ls)).
Proof.
  intros Hu Hnd Hls. induction Hls as [|kid lk kids ls Hk Hls IHls]; simpl.
  - constructor.
  - intros [Hkid Hkids]%NoDup_cons Hsep.
    assert (∀ y, y ∈ _id kid :: lk ↔ rtc (is_child cats) (_id kid) y) as Hblock.
    { intros y. rewrite elem_of_cons, (getAllDescendantIds_elem_of _ _ _ _ y Hk).
      unfold descendant. rewrite rtc_tc. split; intros [?|?]; auto. }
    change (NoDup ((_id kid :: lk) ++ concat (zip_with (λ kid lk, _id kid :: lk) kids ls))).
    apply NoDup_app. split; [|split].
    + apply NoDup_cons. split; [|by eapply Hnd].
      rewrite (getAllDescendantIds_elem_of _ _ _ _ _ Hk).
      apply Hsep; left.
    + intros y Hy Hrest. apply Hblock in Hy.
      apply (elem_of_blocks _ _ _ _ Hls) in Hrest as (k & Hkin & Hky).
      assert (_id k ∈ ids kids) as Hkid' by (by apply list_elem_of_fmap_2).
      destruct (ancestors_chain _ _ _ Hu Hy Hky) as [Hr|Hr];
        apply rtc_tc in Hr as [Heq|Hd].
      * rewrite Heq in Hkid. done.
      * apply (Hsep (_id kid) (_id k)); [left|by right|done].
      * rewrite <- Heq in Hkid. done.
      * apply (Hsep (_id k) (_id kid)); [by right|left|done].
    + apply IHls; [done|]. intros a b Ha Hb. apply Hsep; by right.
Qed.

Lemma childrenOf_ids_NoDup x : unique_ids cats → NoDup (ids (childrenOf x cats)).
Proof.
  intros Hu. eapply sublist_NoDup; [exact Hu|].
  unfold ids, childrenOf. apply fmap_sublist, sublist_filter.
Qed.

Lemma getAllDescendantIds_NoDup fuel x l :
  unique_ids cats → acyclic cats →
  getAllDescendantIds fuel x cats = Some l → NoDup l.
Proof.
  intros Hu Hacyc. revert x l. induction fuel as [|fuel IH]; intros x l; [done|].
  intros (ls & Hls & ->)%getAllDescendantIds_Some.
  eapply blocks_NoDup; eauto using childrenOf_ids_NoDup.
  intros a b Ha%is_child_childrenOf Hb%is_child_childrenOf.
  by eapply siblings_not_descendant.
Qed.

End listing_order.

(** C7. In an acyclic category set the descendant-id listing returns (for
    every sufficiently large bound on the nesting) exactly the transitively
    reachable ids, in depth-first preorder: direct children in the order of
    their records in the input, each immediately followed by the listing of
    its own descendants. *)
Theorem getAllDescendantIds_preorder (cats : Categories) (x : string) :
  acyclic cats →
  ∃ l, (∀ fuel, length cats < fuel → getAllDescendantIds fuel x cats = Some l)
       ∧ preorder cats x l
       ∧ (∀ y, y ∈ l ↔ descendant cats x y).
Proof.
  intros Hacyc.
  destruct (getAllDescendantIds_total cats x Hacyc) as [l Hl].
  exists l. split; [|split].
  - intros fuel Hfuel. eapply getAllDescendantIds_mono; [done|lia].
  - by eapply listing_is_preorder.
  - intros y. by eapply getAllDescendantIds_elem_of.
Qed.

Lemma getAllDescendantIds_preorder_witness :
  ∃ l, (∀ fuel, length sample < fuel →
          getAllDescendantIds fuel (_id electronics) sample = Some l)
       ∧ preorder sample (_id electronics) l
       ∧ (∀ y, y ∈ l ↔ descendant sample (_id electronics) y).
Proof.
  apply (getAllDescendantIds_preorder sample (_id electronics)).
  apply acyclicb_sound. vm_compute. reflexivity.
Defined.

Example getAllDescendantIds_sample :
  getAllDescendantIds 8 (_id electronics) sample =
  Some [_id computers; _id laptops; _id gaming; _id desktops; _id phones].
Proof. vm_compute. reflexivity. Qed.

Lemma filter_absent (l : list string) (y : string) :
  y ∉ l → filter (λ z, z = y) l = [].
Proof.
  induction l as [|z l IH]; [done|]. intros [Hne Hy]%not_elem_of_cons.
  rewrite filter_cons, decide_False by done. auto.
Qed.

(** An element of a list without duplicates occurs in it exactly once. *)
Lemma NoDup_occurs_once (l : list string) (y : string) :
  NoDup l → y ∈ l → length (filter (λ z, z = y) l) = 1.
Proof.
  induction 1 as [|z l Hz Hl IH]; [by intros ?%elem_of_nil|].
  rewrite filter_cons. intros [->|Hy]%elem_of_cons.
  - rewrite decide_True by done. simpl. by rewrite filter_absent.
  - rewrite decide_False by (by intros ->). auto.
Qed.

(** C10. With pairwise distinct ids and an acyclic parent graph the listing
    for an id returns, never contains that id, lists no id twice, and lists
    exactly the transitive descendants of the id: each descendant occurs in
    it exactly once, and nothing else occurs in it. *)
Theorem getAllDescendantIds_no_self_no_dup (cats : Categories) (x : string) :
  unique_ids cats → acyclic cats →
  is_Some (getAllDescendantIds (S (length cats)) x cats) ∧
  ∀ fuel l, getAllDescendantIds fuel x cats = Some l →
    (x ∉ l) ∧ NoDup l
    ∧ (∀ y, y ∈ l ↔ descendant cats x y)
    ∧ (∀ y, descendant cats x y → length (filter (λ z, z = y) l) = 1)
    ∧ (∀ y, ¬ descendant cats x y → filter (λ z, z = y) l = []).
Proof.
  intros Hu Hacyc. split; [by apply getAllDescendantIds_total|].
  intros fuel l Hl.
  pose proof (getAllDescendantIds_NoDup _ _ _ _ Hu Hacyc Hl) as Hnd.
  split; [|split; [done|split; [|split]]].
  - rewrite (getAllDescendantIds_elem_of _ _ _ _ _ Hl). apply Hacyc.
  - intros y. by eapply getAllDescendantIds_elem_of.
  - intros y Hy. apply NoDup_occurs_once; [done|].
    by apply (getAllDescendantIds_elem_of _ _ _ _ _ Hl).
  - intros y Hy. apply filter_absent.
    by rewrite (getAllDescendantIds_elem_of _ _ _ _ _ Hl).
Qed.

Lemma getAllDescendantIds_no_self_no_dup_witness :
  is_Some (getAllDescendantIds (S (length sample)) (_id electronics) sample) ∧
  ∀ fuel l, getAllDescendantIds fuel (_id electronics) sample = Some l →
    (_id electronics ∉ l) ∧ NoDup l
    ∧ (∀ y, y ∈ l ↔ descendant sample (_id electronics) y)
    ∧ (∀ y, descendant sample (_id electronics) y →
            length (filter (λ z, z = y) l) = 1)
    ∧ (∀ y, ¬ descendant sample (_id electronics) y → filter (λ z, z = y) l = []).
Proof.
  apply (getAllDescendantIds_no_self_no_dup sample (_id electronics)).
  - unfold unique_ids. apply (bool_decide_unpack _). vm_compute. exact I.
  - apply acyclicb_sound. vm_compute. reflexivity.
Defined.

(** * Status cascade *)

Section cascade.
Context (st : Status).
Implicit Types db : Categories.
Implicit Types x y : string.

Lemma same_graph_refl db : same_graph db db.
Proof. unfold same_graph. induction db; constructor; auto. Qed.

Lemma same_graph_trans db1 db2 db3 :
  same_graph db1 db2 → same_graph db2 db3 → same_graph db1 db3.
Proof.
  unfold same_graph. intros H12. revert db3.
  induction H12 as [|c1 c2 l1 l2 [? ?] _ IH]; intros db3 H23;
    inversion H23 as [|? c3 ? l3 [? ?] ?]; subst; constructor.
  - split; congruence.
  - by apply IH.
Qed.

Lemma same_graph_childrenOf x db db' :
  same_graph db db' → ids (childrenOf x db') = ids (childrenOf x db).
Proof.
  unfold ids, childrenOf. induction 1 as [|c c' l l' [Hid Hp] _ IH]; [done|].
  rewrite !filter_cons, Hp. case_decide; simpl; [f_equal|]; done.
Qed.

Lemma same_graph_ids db db' : same_graph db db' → ids db' = ids db.
Proof.
  unfold ids. induction 1 as [|c c' l l' [Hid Hp] _ IH]; [done|].
  simpl. by f_equal.
Qed.

Lemma same_graph_is_child db db' p c :
  same_graph db db' → is_child db' p c ↔ is_child db p c.
Proof. intros H. by rewrite !is_child_childrenOf, (same_graph_childrenOf _ _ _ H). Qed.

Lemma same_graph_descendant db db' x y :
  same_graph db db' → descendant db' x y ↔ descendant db x y.
Proof.
  intros H. unfold descendant.
  split; (induction 1; [apply tc_once|eapply tc_l; [|done]]);
    by apply (same_graph_is_child _ _ _ _ H).
Qed.

Lemma same_graph_has_chain db db' n x :
  same_graph db db' → has_chain db' n x ↔ has_chain db n x.
Proof.
  intros H. revert x. induction n as [|n IH]; intros x; [done|]. simpl.
  split; intros (y & Hy & Hch); exists y;
    (split; [by apply (same_graph_is_child _ _ _ _ H)|by apply IH]).
Qed.

Lemma touched_refl P db : Forall2 (touched st P) db db.
Proof. induction db; constructor; auto. by left. Qed.

Lemma touched_trans P db1 db2 db3 :
  Forall2 (touched st P) db1 db2 → Forall2 (touched st P) db2 db3 →
  Forall2 (touched st P) db1 db3.
Proof.
  intros H12. revert db3.
  induction H12 as [|c1 c2 l1 l2 H _ IH]; intros db3 H23;
    inversion H23 as [|? c3 ? l3 H' ?]; subst; constructor; [|by apply IH].
  destruct H as [->|[HP ->]], H' as [->|[HP' ->]]; unfold touched; auto.
Qed.

Lemma touched_impl (P Q : string → Prop) db db' :
  (∀ y, P y → Q y) → Forall2 (touched st P) db db' → Forall2 (touched st Q) db db'.
Proof.
  intros HPQ H. eapply Forall2_impl; [exact H|].
  intros c c' [->|[? ->]]; [by left|right; auto].
Qed.

Lemma touched_same_graph P db db' : Forall2 (touched st P) db db' → same_graph db db'.
Proof. intros H. eapply Forall2_impl; [exact H|]. by intros c c' [->|[? ->]]. Qed.

Lemma touched_length P db db' : Forall2 (touched st P) db db' → length db' = length db.
Proof. intros H. symmetry. by eapply Forall2_length. Qed.

(** A record that keeps its id out of [P] is left as it was. *)
Lemma touched_frame P db db' i c :
  Forall2 (touched st P) db db' → db !! i = Some c → ¬ P (_id c) → db' !! i = Some c.
Proof.
  intros H Hi HP.
  destruct (Forall2_lookup_l _ _ _ _ _ H Hi) as (c' & Hi' & [->|[? _]]); done.
Qed.

(** A status already equal to [st] stays so. *)
Lemma touched_sticky P (Q : string → Prop) db db' :
  Forall2 (touched st P) db db' →
  (∀ c, c ∈ db → Q (_id c) → status c = st) →
  ∀ c', c' ∈ db' → Q (_id c') → status c' = st.
Proof.
  induction 1 as [|c c' l l' Hc _ IH]; intros Hall d; [by intros ?%elem_of_nil|].
  intros [->|Hd]%elem_of_cons HQ.
  - destruct Hc as [->|[_ ->]]; [|done]. apply Hall; [left|done].
  - apply IH; [|done..]. intros c0 H0. apply Hall. by right.
Qed.

Lemma updateOne_touched P id db :
  P id → Forall2 (touched st P) db (updateOne id (set_status st) db).
Proof.
  intros HP. induction db as [|c db IH]; simpl; [constructor|].
  case_decide as Hid.
  - constructor; [|apply touched_refl]. right. by rewrite Hid.
  - constructor; [by left|done].
Qed.

Lemma bulkWrite_touched P (kids : Categories) db :
  (∀ kid, kid ∈ kids → P (_id kid)) →
  Forall2 (touched st P) db
    (bulkWrite ((λ child, mkUpdateOne (_id child) (SetStatus st)) <$> kids) db).
Proof.
  revert db. induction kids as [|kid kids IH]; intros db HP; simpl.
  - apply touched_refl.
  - eapply touched_trans; [apply updateOne_touched, HP; left|].
    apply IH. intros k Hk. apply HP. by right.
Qed.

Lemma cascade_from_S fuel x db :
  cascade_from (S fuel) x st db =
  foldl (λ acc child, db ← acc; cascade_from fuel (_id child) st db)
        (Some (bulkWrite ((λ child, mkUpdateOne (_id child) (SetStatus st))
                            <$> childrenOf x db) db))
        (childrenOf x db).
Proof.
  simpl. case_decide as Hlen; [done|].
  destruct (childrenOf x db); [done|simpl in Hlen; lia].
Qed.

Lemma cascade_loop_None fuel (kids : Categories) :
  foldl (λ acc child, db ← acc; cascade_from fuel (_id child) st db)
        None kids = None.
Proof. induction kids; simpl; auto. Qed.

(** Invariants of the sequential loop over the children. *)
Lemma cascade_loop_inv (I : Categories → Prop) fuel (kids : Categories) db0 db' :
  I db0 →
  (∀ kid dbk dbk', kid ∈ kids → I dbk →
     cascade_from fuel (_id kid) st dbk = Some dbk' → I dbk') →
  foldl (λ acc child, db ← acc; cascade_from fuel (_id child) st db)
        (Some db0) kids = Some db' →
  I db'.
Proof.
  revert db0. induction kids as [|kid kids IH]; intros db0 H0 Hstep; simpl.
  - by intros [= <-].
  - destruct (cascade_from fuel (_id kid) st db0) as [db1|] eqn:E; simpl.
    + apply IH.
      * eapply Hstep; [left|done..].
      * intros k dbk dbk' Hk. apply Hstep. by right.
    + by rewrite cascade_loop_None.
Qed.

(** Frame: the cascade only overwrites the status of transitive descendants
    of the id it is started on. *)
Lemma cascade_from_touched fuel x db db' :
  cascade_from fuel x st db = Some db' →
  Forall2 (touched st (descendant db x)) db db'.
Proof.
  revert x db db'. induction fuel as [|fuel IH]; intros x db db'; [done|].
  rewrite cascade_from_S.
  assert (∀ kid, kid ∈ childrenOf x db → is_child db x (_id kid)) as Hkids.
  { intros kid Hkid. apply is_child_childrenOf. by apply list_elem_of_fmap_2. }
  apply (cascade_loop_inv (λ d, Forall2 (touched st (descendant db x)) db d)).
  - apply bulkWrite_touched. intros kid Hkid. by apply tc_once, Hkids.
  - intros kid dbk dbk' Hkid Hk Hrun.
    eapply touched_trans; [done|].
    eapply touched_impl; [|by apply IH].
    intros y Hy. eapply tc_l; [by apply Hkids|].
    apply (same_graph_descendant db dbk); [|done].
    by eapply touched_same_graph.
Qed.

Lemma cascade_from_same_graph fuel x db db' :
  cascade_from fuel x st db = Some db' → same_graph db db'.
Proof. intros H. eapply touched_same_graph, cascade_from_touched, H. Qed.

(** The cascade exceeds [fuel] nested activations exactly when a chain of
    [fuel] child links starts at the id it is started on. *)
Lemma cascade_from_None fuel x db :
  cascade_from fuel x st db = None ↔ has_chain db fuel x.
Proof.
  revert x db. induction fuel as [|fuel IH]; intros x db; [done|].
  rewrite cascade_from_S. cbn [has_chain].
  transitivity (∃ kid, kid ∈ childrenOf x db ∧ has_chain db fuel (_id kid)).
  - assert (same_graph db (bulkWrite ((λ child, mkUpdateOne (_id child) (SetStatus st))
                            <$> childrenOf x db) db)) as Hsg.
    { eapply touched_same_graph, (bulkWrite_touched (λ _, True)). done. }
    revert Hsg. generalize (bulkWrite ((λ child, mkUpdateOne (_id child) (SetStatus st))
                            <$> childrenOf x db) db).
    induction (childrenOf x db) as [|kid kids IHk]; intros db0 Hsg; simpl.
    + split; [done|by intros (? & ?%elem_of_nil & _)].
    + destruct (cascade_from fuel (_id kid) st db0) as [db1|] eqn:E; simpl.
      * rewrite IHk.
        2:{ eapply same_graph_trans; [done|].
            by eapply cascade_from_same_graph. }
        split.
        -- intros (k & Hk & Hch). exists k. split; [by right|done].
        -- intros (k & [->|Hk]%elem_of_cons & Hch); [|eauto].
           apply (same_graph_has_chain _ _ _ _ Hsg), IH in Hch. congruence.
      * rewrite cascade_loop_None. split; [intros _|done].
        exists kid. split; [left|].
        by apply (same_graph_has_chain _ _ _ _ Hsg), IH.
  - split.
    + intros (kid & Hkid & Hch). exists (_id kid). split; [|done].
      apply is_child_childrenOf. by apply list_elem_of_fmap_2.
    + intros (y & Hy & Hch). apply is_child_childrenOf in Hy.
      apply list_elem_of_fmap in Hy as (kid & -> & Hkid). eauto.
Qed.

Lemma cascade_from_total x db :
  acyclic db → is_Some (cascade_from (S (length db)) x st db).
Proof.
  intros Hacyc.
  destruct (cascade_from _ x st db) as [l|] eqn:E; [by eexists|].
  apply cascade_from_None, has_chain_bound in E; [lia|done].
Qed.

End cascade.

Section cascade_complete.
Context (st : Status).
Implicit Types db : Categories.
Implicit Types x y : string.

Lemma updateOne_hits id (f : ICategory → ICategory) db c' :
  unique_ids db → c' ∈ updateOne id f db → _id c' = id →
  ∃ c, c ∈ db ∧ c' = f c.
Proof.
  unfold unique_ids, ids. induction db as [|c db IH]; simpl.
  - by intros _ ?%elem_of_nil.
  - intros [Hc Hdb]%NoDup_cons. case_decide as Hid.
    + intros [->|Hin]%elem_of_cons Hid'.
      * exists c. split; [left|done].
      * destruct Hc. rewrite Hid, <- Hid'. by apply list_elem_of_fmap_2.
    + intros [->|Hin]%elem_of_cons Hid'; [done|].
      destruct (IH Hdb Hin Hid') as (c0 & H0 & Hc0).
      exists c0. split; [by right|done].
Qed.

Lemma updateOne_status id db c' :
  unique_ids db → c' ∈ updateOne id (set_status st) db → _id c' = id →
  status c' = st.
Proof.
  intros Hu Hin Hid.
  by destruct (updateOne_hits _ _ _ _ Hu Hin Hid) as (c & Hc & ->).
Qed.

Lemma touched_unique_ids P db db' :
  Forall2 (touched st P) db db' → unique_ids db → unique_ids db'.
Proof.
  intros H. unfold unique_ids.
  by rewrite (same_graph_ids _ _ (touched_same_graph _ _ _ _ H)).
Qed.

(** After the bulk write every direct child carries the new status. *)
Lemma bulkWrite_status (kids : Categories) db c' :
  unique_ids db →
  c' ∈ bulkWrite ((λ child, mkUpdateOne (_id child) (SetStatus st)) <$> kids) db →
  _id c' ∈ ids kids → status c' = st.
Proof.
  revert db. induction kids as [|kid kids IH]; intros db Hu; simpl.
  - by intros _ ?%elem_of_nil.
  - intros Hin [Hid|Hid]%elem_of_cons.
    + eapply (touched_sticky st (λ _, True) (λ y, y = _id kid)); [| |done..].
      * apply bulkWrite_touched. done.
      * intros c Hc Hcid. by eapply updateOne_status.
    + eapply IH; [|done..].
      eapply touched_unique_ids; [|done].
      by apply (updateOne_touched st (λ _, True)).
Qed.

(** The run of the loop on one child, with what came before and after. *)
Lemma cascade_loop_at fuel (kids : Categories) db0 db' kid :
  foldl (λ acc child, db ← acc; cascade_from fuel (_id child) st db)
        (Some db0) kids = Some db' →
  kid ∈ kids →
  ∃ dbk dbk', Forall2 (touched st (λ _, True)) db0 dbk
    ∧ cascade_from fuel (_id kid) st dbk = Some dbk'
    ∧ Forall2 (touched st (λ _, True)) dbk' db'.
Proof.
  assert (∀ k dbk dbk', cascade_from fuel k st dbk = Some dbk' →
            Forall2 (touched st (λ _, True)) dbk dbk') as Hstep.
  { intros k dbk dbk' H. eapply touched_impl; [|by eapply cascade_from_touched].
    done. }
  revert db0. induction kids as [|k kids IH]; intros db0; simpl.
  - by intros _ ?%elem_of_nil.
  - destruct (cascade_from fuel (_id k) st db0) as [db1|] eqn:E; simpl;
      [|by rewrite cascade_loop_None].
    intros Hrun [->|Hkid]%elem_of_cons.
    + exists db0, db1. split; [apply touched_refl|]. split; [done|].
      revert Hrun.
      apply (cascade_loop_inv st (λ d, Forall2 (touched st (λ _, True)) db1 d)).
      * apply touched_refl.
      * intros k' dbk dbk' _ Hk Hr. eapply touched_trans; [done|]. by eapply Hstep.
    + destruct (IH db1 Hrun Hkid) as (dbk & dbk' & H1 & H2 & H3).
      exists dbk, dbk'. split; [|done].
      eapply touched_trans; [by eapply Hstep|done].
Qed.

(** Completeness: with unique ids, every transitive descendant ends with the
    given status. *)
Lemma cascade_from_descendants fuel x db db' c' :
  unique_ids db →
  cascade_from fuel x st db = Some db' →
  c' ∈ db' → descendant db x (_id c') → status c' = st.
Proof.
  revert x db db' c'. induction fuel as [|fuel IH]; intros x db db' c' Hu; [done|].
  rewrite cascade_from_S. intros Hrun Hin Hd.
  set (db1 := bulkWrite ((λ child, mkUpdateOne (_id child) (SetStatus st))
                            <$> childrenOf x db) db) in *.
  assert (Forall2 (touched st (λ _, True)) db db1) as H01
    by (by apply bulkWrite_touched).
  inversion Hd as [? ? Hc|? k ? Hc Hky]; subst.
  - (* a direct child: written by the bulk write, kept by the loop *)
    assert (Forall2 (touched st (λ _, True)) db1 db') as H1.
    { revert Hrun.
      apply (cascade_loop_inv st (λ d, Forall2 (touched st (λ _, True)) db1 d)).
      - apply touched_refl.
      - intros k' dbk dbk' _ Hk Hr. eapply touched_trans; [done|].
        eapply touched_impl; [|by eapply cascade_from_touched]. done. }
    eapply (touched_sticky st _ (λ y, y ∈ ids (childrenOf x db)) _ _ H1); [|done|].
    + intros c Hcin Hcid. by eapply bulkWrite_status.
    + by apply is_child_childrenOf.
  - (* below a direct child: written by that child's recursive call *)
    apply is_child_childrenOf in Hc.
    apply list_elem_of_fmap in Hc as (kid & -> & Hkid).
    destruct (cascade_loop_at _ _ _ _ _ Hrun Hkid) as (dbk & dbk' & H1 & H2 & H3).
    assert (Forall2 (touched st (λ _, True)) db dbk) as H0k
      by (by eapply touched_trans).
    eapply (touched_sticky st _ (λ y, descendant db (_id kid) y) _ _ H3); [|done..].
    intros c Hcin Hcd. eapply (IH _ dbk); [|done..|].
    + by eapply touched_unique_ids.
    + apply (same_graph_descendant db dbk); [|done]. by eapply touched_same_graph.
Qed.

End cascade_complete.

(** The cascade as the controller calls it: on a string that casts, it is
    the recursion from the [ObjectId] the string casts to. *)
Section cascade_cast.
Variable ObjectId_isValid : string → bool.
Variable ObjectId_cast : string → string.

Lemma updateDescendantStatus_valid fuel x st db :
  ObjectId_isValid x = true →
  updateDescendantStatus ObjectId_isValid ObjectId_cast fuel x st db
  = inr <$> cascade_from fuel (ObjectId_cast x) st db.
Proof. intros Hx. unfold updateDescendantStatus. rewrite Hx. by destruct fuel. Qed.

Lemma updateDescendantStatus_returns fuel x st db db' :
  updateDescendantStatus ObjectId_isValid ObjectId_cast fuel x st db = Some (inr db')
  ↔ ObjectId_isValid x = true ∧ cascade_from fuel (ObjectId_cast x) st db = Some db'.
Proof.
  unfold updateDescendantStatus.
  destruct fuel as [|fuel]; [split; [done|by intros [_ ?]]|].
  destruct (ObjectId_isValid x); [|split; [done|by intros [? _]]].
  destruct (cascade_from (S fuel) (ObjectId_cast x) st db) as [d|]; simpl; split.
  - by intros [= ->].
  - by intros [_ [= ->]].
  - done.
  - by intros [_ ?].
Qed.

Lemma updateDescendantStatus_exceeds fuel x st db :
  updateDescendantStatus ObjectId_isValid ObjectId_cast fuel x st db = None
  ↔ fuel = 0 ∨ (ObjectId_isValid x = true
                ∧ cascade_from fuel (ObjectId_cast x) st db = None).
Proof.
  unfold updateDescendantStatus.
  destruct fuel as [|fuel]; [split; [by left|done]|].
  destruct (ObjectId_isValid x); [|split; [done|by intros [?|[? _]]]].
  destruct (cascade_from (S fuel) (ObjectId_cast x) st db) as [d|]; simpl; split.
  - done.
  - by intros [?|[_ ?]].
  - by right.
  - done.
Qed.

(** A string that does not cast makes the first query throw. *)
Lemma updateDescendantStatus_malformed fuel x st db :
  ObjectId_isValid x = false →
  updateDescendantStatus ObjectId_isValid ObjectId_cast (S fuel) x st db
  = Some (inl CastError).
Proof. intros Hx. unfold updateDescendantStatus. by rewrite Hx. Qed.

End cascade_cast.

(** C3. In a store with unique ids and an acyclic parent graph the status
    cascade on an id completes; afterwards every transitive descendant of
    the category the id denotes has the given status, and the record of the
    triggering category itself is exactly as before (the routine does not
    write it). *)
Theorem updateDescendantStatus_complete
    (ObjectId_isValid : string → bool) (ObjectId_cast : string → string)
    (db : Categories) (x : string) (st : Status) :
  unique_ids db → acyclic db → ObjectId_isValid x = true →
  (∃ db', updateDescendantStatus ObjectId_isValid ObjectId_cast
            (S (length db)) x st db = Some (inr db')) ∧
  ∀ fuel db',
    updateDescendantStatus ObjectId_isValid ObjectId_cast fuel x st db = Some (inr db') →
    ids db' = ids db
    ∧ (∀ c', c' ∈ db' → descendant db (ObjectId_cast x) (_id c') → status c' = st)
    ∧ (∀ i c, db !! i = Some c → _id c = ObjectId_cast x → db' !! i = Some c).
Proof.
  intros Hu Hacyc Hx. split.
  - destruct (cascade_from_total st (ObjectId_cast x) db Hacyc) as [db' Hrun].
    exists db'. by apply updateDescendantStatus_returns.
  - intros fuel db' [_ Hrun]%updateDescendantStatus_returns.
    pose proof (cascade_from_touched _ _ _ _ _ Hrun) as Ht.
    split; [|split].
    + by eapply same_graph_ids, touched_same_graph.
    + intros c'. by eapply cascade_from_descendants.
    + intros i c Hi Hid. eapply touched_frame; [done..|].
      rewrite Hid. apply Hacyc.
Qed.

Lemma updateDescendantStatus_complete_witness :
  (∃ db', updateDescendantStatus hex24 lower_hex (S (length sample))
            "65A000000000000000000002" inactive sample = Some (inr db')) ∧
  ∀ fuel db',
    updateDescendantStatus hex24 lower_hex fuel "65A000000000000000000002"
      inactive sample = Some (inr db') →
    ids db' = ids sample
    ∧ (∀ c', c' ∈ db' →
             descendant sample (lower_hex "65A000000000000000000002") (_id c') →
             status c' = inactive)
    ∧ (∀ i c, sample !! i = Some c → _id c = lower_hex "65A000000000000000000002" →
              db' !! i = Some c).
Proof.
  apply (updateDescendantStatus_complete hex24 lower_hex sample
           "65A000000000000000000002" inactive).
  - unfold unique_ids. apply (bool_decide_unpack _). vm_compute. exact I.
  - apply acyclicb_sound. vm_compute. reflexivity.
  - vm_compute. reflexivity.
Defined.

(** The chain root → mid → leaf of the specification's example, the id of
    Computers being given in upper case as well. *)
Example updateDescendantStatus_sample :
  updateDescendantStatus hex24 lower_hex 8 (_id computers) inactive sample =
  Some (inr [electronics; computers; set_status inactive laptops;
             set_status inactive desktops; set_status inactive gaming; phones; orphan])
  ∧ updateDescendantStatus hex24 lower_hex 8 "65A000000000000000000002" inactive sample
    = updateDescendantStatus hex24 lower_hex 8 (_id computers) inactive sample
  ∧ updateDescendantStatus hex24 lower_hex 8 "computers" inactive sample
    = Some (inl CastError).
Proof. vm_compute. done. Qed.

(** C5. In a store with an acyclic parent graph the cascade (to [inactive],
    and to any status) completes and writes only transitive descendants of
    the category the triggering id denotes: the store keeps its length, and
    every record whose id is not a transitive descendant is found unchanged,
    in all its fields, at the same position. *)
Theorem updateDescendantStatus_frame
    (ObjectId_isValid : string → bool) (ObjectId_cast : string → string)
    (db : Categories) (x : string) :
  acyclic db → ObjectId_isValid x = true →
  (∃ db', updateDescendantStatus ObjectId_isValid ObjectId_cast
            (S (length db)) x inactive db = Some (inr db')) ∧
  ∀ fuel st db',
    updateDescendantStatus ObjectId_isValid ObjectId_cast fuel x st db = Some (inr db') →
    length db' = length db
    ∧ ∀ i c, db !! i = Some c → ¬ descendant db (ObjectId_cast x) (_id c) →
             db' !! i = Some c.
Proof.
  intros Hacyc Hx. split.
  - destruct (cascade_from_total inactive (ObjectId_cast x) db Hacyc) as [db' Hrun].
    exists db'. by apply updateDescendantStatus_returns.
  - intros fuel st db' [_ Hrun]%updateDescendantStatus_returns.
    pose proof (cascade_from_touched _ _ _ _ _ Hrun) as Ht.
    split; [by eapply touched_length|].
    intros i c Hi Hnd. by eapply touched_frame.
Qed.

Lemma updateDescendantStatus_frame_witness :
  (∃ db', updateDescendantStatus hex24 lower_hex (S (length sample))
            "65A000000000000000000002" inactive sample = Some (inr db')) ∧
  ∀ fuel st db',
    updateDescendantStatus hex24 lower_hex fuel "65A000000000000000000002" st sample
    = Some (inr db') →
    length db' = length sample
    ∧ ∀ i c, sample !! i = Some c →
             ¬ descendant sample (lower_hex "65A000000000000000000002") (_id c) →
             db' !! i = Some c.
Proof.
  apply (updateDescendantStatus_frame hex24 lower_hex sample "65A000000000000000000002").
  - apply acyclicb_sound. vm_compute. reflexivity.
  - vm_compute. reflexivity.
Defined.

(** * Termination and recursion depth *)

Lemma subtree_depth_exists (cats : Categories) (x : string) :
  acyclic cats → ∃ d, subtree_depth cats x d.
Proof.
  intros Hacyc.
  assert (∀ n, ¬ has_chain cats n x → ∃ d, subtree_depth cats x d) as Hsearch.
  { induction n as [|n IH]; intros Hn; [by destruct Hn|].
    destruct (has_chain_dec cats n x) as [Hy|Hno]; [|by apply IH].
    exists n. by split. }
  apply (Hsearch (S (length cats))).
  intros Hch%has_chain_bound; [lia|done].
Qed.

Lemma subtree_depth_chain (cats : Categories) (x : string) d n :
  subtree_depth cats x d → has_chain cats n x ↔ n ≤ d.
Proof.
  intros [Hd Hnd]. split.
  - intros Hn. destruct (decide (n ≤ d)) as [|Hgt]; [done|].
    destruct Hnd. eapply has_chain_le; [|done]. lia.
  - intros Hle. by eapply has_chain_le.
Qed.

(** C6. For an acyclic category set the subtree below an id has a depth
    [d] (the longest chain of child links), and both recursions, the listing
    from that id and the cascade from any string that denotes it, return
    exactly when they are allowed more than [d] nested activations: they
    terminate, nesting [d] levels of recursive calls below the initial one. *)
Theorem recursion_depth
    (ObjectId_isValid : string → bool) (ObjectId_cast : string → string)
    (cats : Categories) (y : string) :
  acyclic cats →
  ∃ d, subtree_depth cats y d
       ∧ d ≤ length cats
       ∧ (∀ fuel, is_Some (getAllDescendantIds fuel y cats) ↔ d < fuel)
       ∧ (∀ fuel st x, ObjectId_isValid x = true → ObjectId_cast x = y →
            (∃ cats', updateDescendantStatus ObjectId_isValid ObjectId_cast
                        fuel x st cats = Some (inr cats')) ↔ d < fuel).
Proof.
  intros Hacyc. destruct (subtree_depth_exists cats y Hacyc) as [d Hd].
  exists d. split; [done|]. split; [|split].
  - destruct Hd as [Hd _]. by eapply has_chain_bound.
  - intros fuel. rewrite <- not_eq_None_Some, getAllDescendantIds_None,
      (subtree_depth_chain _ _ _ _ Hd). lia.
  - intros fuel st x Hx <-.
    transitivity (is_Some (cascade_from fuel (ObjectId_cast x) st cats)).
    + split.
      * intros [cats' [_ Hrun]%updateDescendantStatus_returns]. by exists cats'.
      * intros [cats' Hrun]. exists cats'. by apply updateDescendantStatus_returns.
    + rewrite <- not_eq_None_Some, cascade_from_None,
        (subtree_depth_chain _ _ _ _ Hd). lia.
Qed.

Lemma recursion_depth_witness :
  ∃ d, subtree_depth sample (_id electronics) d
       ∧ d ≤ length sample
       ∧ (∀ fuel, is_Some (getAllDescendantIds fuel (_id electronics) sample) ↔ d < fuel)
       ∧ (∀ fuel st x, hex24 x = true → lower_hex x = _id electronics →
            (∃ cats', updateDescendantStatus hex24 lower_hex fuel x st sample
                      = Some (inr cats')) ↔ d < fuel).
Proof.
  apply (recursion_depth hex24 lower_hex sample (_id electronics)).
  apply acyclicb_sound. vm_compute. reflexivity.
Defined.

(** Electronics → Computers → Laptops → Gaming Laptops: depth 3, so four
    nested activations are needed and three are not enough. *)
Example sample_needs_four_activations :
  getAllDescendantIds 3 (_id electronics) sample = None
  ∧ is_Some (getAllDescendantIds 4 (_id electronics) sample)
  ∧ updateDescendantStatus hex24 lower_hex 3 "65A000000000000000000001" inactive sample
    = None
  ∧ is_Some (updateDescendantStatus hex24 lower_hex 4 "65A000000000000000000001"
               inactive sample).
Proof. vm_compute. repeat split; by eexists. Qed.

(** No cycle protection: when a cycle is reachable from the queried id,
    neither recursion returns, whatever the bound. *)
Lemma cycle_diverges (cats : Categories) (x y : string) (st : Status) fuel :
  rtc (is_child cats) x y → descendant cats y y →
  getAllDescendantIds fuel x cats = None
  ∧ cascade_from fuel x st cats = None.
Proof.
  intros Hxy Hyy. split.
  - apply getAllDescendantIds_None. by eapply cycle_has_chain.
  - apply cascade_from_None. by eapply cycle_has_chain.
Qed.

(** Without a cycle below (or at) [x0] the chains going down from it are
    bounded by the number of records. *)
Lemma has_chain_bound_below (cats : Categories) (x0 : string) n
    (stack : list string) x :
  (∀ y, rtc (is_child cats) x0 y → ¬ descendant cats y y) →
  rtc (is_child cats) x0 x →
  (∀ z, z ∈ stack → rtc (is_child cats) z x) →
  NoDup stack → (∀ z, z ∈ stack → z ∈ ids cats) →
  has_chain cats n x → n + length stack ≤ length cats.
Proof.
  intros Hloc. revert stack x.
  induction n as [|n IH]; intros stack x Hx Hanc Hnd Hin Hch.
  - simpl. rewrite <- (length_fmap _id cats).
    apply submseteq_length, NoDup_submseteq; done.
  - destruct Hch as (y & Hy & Hch).
    assert (rtc (is_child cats) x0 y) as Hy0 by (by eapply rtc_r).
    specialize (IH (y :: stack) y). simpl in IH.
    replace (S n + length stack) with (n + S (length stack)) by lia.
    apply IH; [done| | | |done].
    + intros z [->|Hz]%elem_of_cons; [done|].
      eapply rtc_r; [by apply Hanc|done].
    + apply NoDup_cons. split; [|done]. intros Hys.
      apply (Hloc y Hy0). eapply tc_rtc_l; [by apply Hanc|by apply tc_once].
    + intros z [->|Hz]%elem_of_cons; [by eapply is_child_in_ids|by apply Hin].
Qed.

Lemma no_cycle_below_bound (cats : Categories) (x : string) :
  (∀ y, rtc (is_child cats) x y → ¬ descendant cats y y) →
  ¬ has_chain cats (S (length cats)) x.
Proof.
  intros Hnone Hch.
  pose proof (has_chain_bound_below cats x (S (length cats)) [] x Hnone) as Hb.
  simpl in Hb. rewrite Nat.add_0_r in Hb.
  assert (S (length cats) ≤ length cats); [|lia].
  apply Hb; [done|by intros ? ?%elem_of_nil|constructor|
    by intros ? ?%elem_of_nil|done].
Qed.

(** Each recursion returns from an id, for some bound on the nesting,
    exactly when no cycle is below (or at) that id; the number of records
    plus one is then enough. *)
Lemma getAllDescendantIds_returns_iff (cats : Categories) (x : string) :
  ((∃ fuel, is_Some (getAllDescendantIds fuel x cats))
   ↔ ∀ y, rtc (is_child cats) x y → ¬ descendant cats y y)
  ∧ ((∃ fuel, is_Some (getAllDescendantIds fuel x cats))
     → is_Some (getAllDescendantIds (S (length cats)) x cats)).
Proof.
  assert ((∀ y, rtc (is_child cats) x y → ¬ descendant cats y y) →
          is_Some (getAllDescendantIds (S (length cats)) x cats)) as Hback.
  { intros Hnone. apply not_eq_None_Some. rewrite getAllDescendantIds_None.
    by apply no_cycle_below_bound. }
  assert ((∃ fuel, is_Some (getAllDescendantIds fuel x cats)) →
          ∀ y, rtc (is_child cats) x y → ¬ descendant cats y y) as Hforth.
  { intros (fuel & l & Hl) y Hxy Hyy.
    destruct (cycle_diverges cats x y active fuel Hxy Hyy) as [Hnone _].
    congruence. }
  split; [split; [done|eauto]|]. intros Hret. by apply Hback, Hforth.
Qed.

Lemma cascade_from_returns_iff (cats : Categories) (x : string) (st : Status) :
  ((∃ fuel, is_Some (cascade_from fuel x st cats))
   ↔ ∀ y, rtc (is_child cats) x y → ¬ descendant cats y y)
  ∧ ((∃ fuel, is_Some (cascade_from fuel x st cats))
     → is_Some (cascade_from (S (length cats)) x st cats)).
Proof.
  assert ((∀ y, rtc (is_child cats) x y → ¬ descendant cats y y) →
          is_Some (cascade_from (S (length cats)) x st cats)) as Hback.
  { intros Hnone. apply not_eq_None_Some. rewrite cascade_from_None.
    by apply no_cycle_below_bound. }
  assert ((∃ fuel, is_Some (cascade_from fuel x st cats)) →
          ∀ y, rtc (is_child cats) x y → ¬ descendant cats y y) as Hforth.
  { intros (fuel & l & Hl) y Hxy Hyy.
    destruct (cycle_diverges cats x y st fuel Hxy Hyy) as [_ Hnone].
    congruence. }
  split; [split; [done|eauto]|]. intros Hret. by apply Hback, Hforth.
Qed.

(** * Delete and reparent *)

Section reparent.
Implicit Types db : Categories.

Lemma fmap_id_on (g : ICategory → ICategory) db :
  (∀ c, c ∈ db → g c = c) → g <$> db = db.
Proof.
  induction db as [|c db IH]; intros Hg; simpl; [done|].
  rewrite Hg by left. f_equal. apply IH. intros c' Hc'. apply Hg. by right.
Qed.

Lemma updateOne_map id (f : ICategory → ICategory) db :
  unique_ids db →
  updateOne id f db = (λ c, if decide (_id c = id) then f c else c) <$> db.
Proof.
  unfold unique_ids, ids. induction db as [|c db IH]; simpl; [done|].
  intros [Hc Hdb]%NoDup_cons. case_decide as Hid.
  - f_equal. symmetry. apply fmap_id_on. intros c' Hc'.
    case_decide as Hid'; [|done]. destruct Hc. rewrite Hid, <- Hid'.
    by apply list_elem_of_fmap_2.
  - f_equal. by apply IH.
Qed.

Lemma deleteById_filter id db :
  unique_ids db → deleteById id db = filter (λ c, _id c ≠ id) db.
Proof.
  unfold unique_ids, ids. induction db as [|c db IH]; simpl; [done|].
  intros [Hc Hdb]%NoDup_cons. rewrite filter_cons. case_decide as Hid.
  - rewrite decide_False by (by intros []).
    clear IH. induction db as [|c' db IH']; [done|].
    rewrite filter_cons, decide_True.
    + f_equal. apply IH'.
      * intros Hin. apply Hc. simpl. by right.
      * by apply NoDup_cons in Hdb as [_ ?].
    + intros Hid'. apply Hc. simpl. rewrite Hid, <- Hid'. left.
  - rewrite decide_True by done. f_equal. by apply IH.
Qed.

Lemma fmap_preserves_ids (g : ICategory → ICategory) db :
  (∀ c, _id (g c) = _id c) → ids (g <$> db) = ids db.
Proof.
  intros Hg. unfold ids. rewrite <- list_fmap_compose.
  apply list_fmap_ext. intros i c _. apply Hg.
Qed.

Lemma bulkWrite_setParent p (kids : Categories) db :
  unique_ids db →
  bulkWrite ((λ subcat, mkUpdateOne (_id subcat) (SetParent p)) <$> kids) db =
  (λ c, if decide (_id c ∈ ids kids) then set_parent p c else c) <$> db.
Proof.
  revert db. induction kids as [|kid kids IH]; intros db Hu; simpl.
  - symmetry. by apply fmap_id_on.
  - rewrite updateOne_map by done. simpl. rewrite IH.
    + rewrite <- list_fmap_compose. apply list_fmap_ext. intros i c _. simpl.
      destruct (decide (_id c = _id kid)) as [Hid|Hid]; simpl.
      * rewrite (decide_True (P := _id c ∈ _id kid :: ids kids)) by (rewrite Hid; left).
        by case_decide.
      * destruct (decide (_id c ∈ ids kids)) as [Hin|Hin].
        -- rewrite decide_True; [done|by right].
        -- rewrite decide_False; [done|]. by intros [?|?]%elem_of_cons.
    + unfold unique_ids. rewrite fmap_preserves_ids; [done|].
      intros c. by case_decide.
Qed.

(** With unique ids the records written by the bulk update are exactly the
    records whose parent is the deleted id. *)
Lemma bulkWrite_promote id p db :
  unique_ids db →
  bulkWrite ((λ subcat, mkUpdateOne (_id subcat) (SetParent p)) <$> childrenOf id db) db
  = promote id p <$> db.
Proof.
  intros Hu. rewrite bulkWrite_setParent by done.
  apply Forall_fmap_ext_1, Forall_forall. intros c Hc. unfold promote.
  destruct (decide (parent c = Some id)) as [Hp|Hp].
  - rewrite decide_True; [done|].
    apply list_elem_of_fmap_2, list_elem_of_filter. done.
  - rewrite decide_False; [done|].
    intros (c' & Hid & [Hp' Hc']%list_elem_of_filter)%list_elem_of_fmap.
    assert (c = c') as -> by (by eapply unique_ids_inj). done.
Qed.

Lemma promote_id id p c : _id (promote id p c) = _id c.
Proof. unfold promote. by case_decide. Qed.

End reparent.

Section delete_handler.
Variable ObjectId_isValid : string → bool.
Variable ObjectId_cast : string → string.

Lemma deleteCategory_run id i db target :
  ObjectId_isValid id = true → ObjectId_cast id = i →
  lookupById i db = Some target →
  Controller.deleteCategory ObjectId_isValid ObjectId_cast id (mkWorld db None) =
  Returned ()
    (mkWorld
       (deleteById i
          (bulkWrite ((λ subcat, mkUpdateOne (_id subcat) (SetParent (parent target)))
                        <$> childrenOf i db) db))
       (Some (mkResponse 200
                "Category deleted successfully and subcategories reassigned"))).
Proof.
  intros Hvalid Hcast Hfind.
  unfold_handler.
  rewrite Hvalid, Hcast. simpl. rewrite Hfind. simpl.
  case_decide as Hlen; simpl; [done|].
  destruct (childrenOf i db); [done|simpl in Hlen; lia].
Qed.

End delete_handler.

(** C4. In a store with unique ids and an acyclic parent graph, deleting an
    existing category (the request's id denoting it) answers 200 and leaves
    a store in which: the deleted id is gone and all other ids remain, once
    each; no record has the deleted id as parent; every surviving record
    keeps its id, name and status; the parent of every former direct child
    is the deleted category's former parent (none, if it was a root); the
    parent of every other record is unchanged. *)
Theorem deleteCategory_reparents
    (ObjectId_isValid : string → bool) (ObjectId_cast : string → string)
    (db : Categories) (id i : string) (target : ICategory) :
  unique_ids db → acyclic db →
  ObjectId_isValid id = true → ObjectId_cast id = i → lookupById i db = Some target →
  ∃ db',
    Controller.deleteCategory ObjectId_isValid ObjectId_cast id (mkWorld db None) =
      Returned () (mkWorld db'
        (Some (mkResponse 200
                 "Category deleted successfully and subcategories reassigned")))
    ∧ db' = promote i (parent target) <$> filter (λ c, _id c ≠ i) db
    ∧ unique_ids db'
    ∧ ids db' = filter (λ j, j ≠ i) (ids db)
    ∧ (∀ c', c' ∈ db' → parent c' ≠ Some i)
    ∧ (∀ c, c ∈ db → parent c = Some i → set_parent (parent target) c ∈ db')
    ∧ (∀ c, c ∈ db → _id c ≠ i → parent c ≠ Some i → c ∈ db')
    ∧ (∀ c, c ∈ db → _id c ≠ i →
         ∃ c', c' ∈ db' ∧ _id c' = _id c ∧ name c' = name c ∧ status c' = status c
               ∧ (parent c = Some i → parent c' = parent target)
               ∧ (parent c ≠ Some i → parent c' = parent c))
    ∧ (∀ c', c' ∈ db' →
         ∃ c, c ∈ db ∧ _id c = _id c' ∧ name c = name c' ∧ status c = status c'
              ∧ (parent c = Some i → parent c' = parent target)
              ∧ (parent c ≠ Some i → parent c' = parent c)).
Proof.
  intros Hu Hacyc Hvalid Hcast Hfind.
  assert (target ∈ db ∧ _id target = i) as [Htin Htid].
  { unfold lookupById in Hfind. apply head_Some_elem_of in Hfind.
    by apply list_elem_of_filter in Hfind as [? ?]. }
  assert (parent target ≠ Some i) as Hnoloop.
  { intros Hp. apply (Hacyc i), tc_once. by exists target. }
  assert (∀ c, c ∈ db → parent c = Some i → _id c ≠ i) as Hkid_ne.
  { intros c Hc Hp Hid. apply (Hacyc i), tc_once. by exists c. }
  eexists. split; [by eapply deleteCategory_run|].
  rewrite bulkWrite_promote by done.
  rewrite deleteById_filter
    by (unfold unique_ids; rewrite fmap_preserves_ids; auto using promote_id).
  assert (filter (λ c, _id c ≠ i) (promote i (parent target) <$> db)
          = promote i (parent target) <$> filter (λ c, _id c ≠ i) db) as ->.
  { clear. induction db as [|c l IH]; [done|].
    rewrite fmap_cons, !filter_cons, promote_id.
    case_decide; [rewrite fmap_cons|]; by rewrite IH. }
  assert (ids (promote i (parent target) <$> filter (λ c, _id c ≠ i) db)
          = filter (λ j, j ≠ i) (ids db)) as Hids.
  { rewrite fmap_preserves_ids by auto using promote_id.
    clear. unfold ids. induction db as [|c l IH]; [done|].
    rewrite fmap_cons, !filter_cons.
    case_decide; [rewrite fmap_cons|]; by rewrite IH. }
  split; [done|]. split; [|split; [done|]].
  { unfold unique_ids. rewrite Hids. by apply NoDup_filter. }
  split; [|split; [|split; [|split]]].
  - intros c' (c & -> & [Hid Hc]%list_elem_of_filter)%list_elem_of_fmap.
    unfold promote. case_decide; simpl; done.
  - intros c Hc Hp.
    apply list_elem_of_fmap. exists c. split.
    + unfold promote. by rewrite decide_True.
    + apply list_elem_of_filter. split; [by apply Hkid_ne|done].
  - intros c Hc Hid Hp.
    apply list_elem_of_fmap. exists c. split.
    + unfold promote. by rewrite decide_False.
    + by apply list_elem_of_filter.
  - intros c Hc Hid. exists (promote i (parent target) c). split.
    + apply list_elem_of_fmap. exists c. split; [done|].
      by apply list_elem_of_filter.
    + unfold promote. case_decide; simpl; done.
  - intros c' (c & -> & [Hid Hc]%list_elem_of_filter)%list_elem_of_fmap.
    exists c. split; [done|]. unfold promote. case_decide; simpl; done.
Qed.

Lemma deleteCategory_reparents_witness :
  ∃ db',
    Controller.deleteCategory hex24 lower_hex "65A000000000000000000002"
      (mkWorld sample None) =
      Returned () (mkWorld db'
        (Some (mkResponse 200
                 "Category deleted successfully and subcategories reassigned")))
    ∧ db' = promote (_id computers) (parent computers)
              <$> filter (λ c, _id c ≠ _id computers) sample
    ∧ unique_ids db'
    ∧ ids db' = filter (λ j, j ≠ _id computers) (ids sample)
    ∧ (∀ c', c' ∈ db' → parent c' ≠ Some (_id computers))
    ∧ (∀ c, c ∈ sample → parent c = Some (_id computers) →
            set_parent (parent computers) c ∈ db')
    ∧ (∀ c, c ∈ sample → _id c ≠ _id computers → parent c ≠ Some (_id computers) →
            c ∈ db')
    ∧ (∀ c, c ∈ sample → _id c ≠ _id computers →
         ∃ c', c' ∈ db' ∧ _id c' = _id c ∧ name c' = name c ∧ status c' = status c
               ∧ (parent c = Some (_id computers) → parent c' = parent computers)
               ∧ (parent c ≠ Some (_id computers) → parent c' = parent c))
    ∧ (∀ c', c' ∈ db' →
         ∃ c, c ∈ sample ∧ _id c = _id c' ∧ name c = name c' ∧ status c = status c'
              ∧ (parent c = Some (_id computers) → parent c' = parent computers)
              ∧ (parent c ≠ Some (_id computers) → parent c' = parent c)).
Proof.
  apply (deleteCategory_reparents hex24 lower_hex sample "65A000000000000000000002"
           (_id computers) computers).
  - unfold unique_ids. apply (bool_decide_unpack _). vm_compute. exact I.
  - apply acyclicb_sound. vm_compute. reflexivity.
  - vm_compute. reflexivity.
  - vm_compute. reflexivity.
  - vm_compute. reflexivity.
Defined.

(** The two delete tests of the controller: a mid-tree delete promotes the
    children to the grandparent (here with the id in upper case), a root
    delete makes them roots. *)
Example deleteCategory_mid_tree :
  world_of (Controller.deleteCategory hex24 lower_hex "65A000000000000000000002"
              (mkWorld sample None)) =
  Some (mkWorld
          [electronics;
           mkCategory "65a000000000000000000003" "Laptops"
             (Some "65a000000000000000000001") active;
           mkCategory "65a000000000000000000004" "Desktops"
             (Some "65a000000000000000000001") active;
           gaming; phones; orphan]
          (Some (mkResponse 200
                   "Category deleted successfully and subcategories reassigned"))).
Proof. vm_compute. reflexivity. Qed.

Example deleteCategory_root :
  world_of (Controller.deleteCategory hex24 lower_hex (_id electronics)
              (mkWorld sample None)) =
  Some (mkWorld
          [mkCategory "65a000000000000000000002" "Computers" None active;
           laptops; desktops; gaming;
           mkCategory "65a000000000000000000006" "Phones" None active; orphan]
          (Some (mkResponse 200
                   "Category deleted successfully and subcategories reassigned"))).
Proof. vm_compute. reflexivity. Qed.

(** * Create and update handlers *)

Lemma updateOne_length id (f : ICategory → ICategory) (db : Categories) :
  length (updateOne id f db) = length db.
Proof. induction db as [|c db IH]; simpl; [done|]. case_decide; simpl; auto. Qed.

Lemma updateOne_other id (f : ICategory → ICategory) (db : Categories) i c :
  db !! i = Some c → _id c ≠ id → updateOne id f db !! i = Some c.
Proof.
  revert i. induction db as [|c0 db IH]; intros i; simpl; [done|].
  case_decide as Hid.
  - destruct i as [|i]; simpl; [|done]. intros [= ->]. done.
  - destruct i as [|i]; simpl; [done|]. apply IH.
Qed.

Lemma lookupById_Some id (db : Categories) c :
  lookupById id db = Some c → c ∈ db ∧ _id c = id.
Proof.
  unfold lookupById. intros Hfind%head_Some_elem_of.
  by apply list_elem_of_filter in Hfind as [? ?].
Qed.

(** C8 (as amended). A create request whose parent is a well-formed id that
    denotes no category of the store, and whose name (non-empty once
    trimmed) and status (absent, or one of the enum values) pass the schema
    validation, is answered 400 "Parent category not found", and the new
    category is saved all the same, with the dangling parent reference. *)
Theorem createCategory_dangling_parent
    (ObjectId_isValid : string → bool) (ObjectId_cast : string → string)
    (String_trim : string → string)
    (newId : string) (body : Body) (db : Categories) (p n : string) (s : Status) :
  req_parent body = Some p → p ≠ "" → ObjectId_isValid p = true →
  lookupById (ObjectId_cast p) db = None →
  req_name body = Some n → String_trim n ≠ "" →
  requested_status body = Some s →
  world_of (Controller.createCategory ObjectId_isValid ObjectId_cast String_trim
              newId body (mkWorld db None)) =
  Some (mkWorld (db ++ [mkCategory newId (String_trim n) (Some (ObjectId_cast p)) s])
                (Some (mkResponse 400 "Parent category not found")))
  ∧ ObjectId_cast p ∉ ids db.
Proof.
  intros Hp Hne Hvalid Hfind Hn Htrim Hs. split.
  - unfold_handler. unfold validate, requested_status in *.
    rewrite Hp, Hn in *. simpl.
    rewrite (bool_decide_eq_true_2 _ Hne). simpl. rewrite Hvalid. simpl.
    rewrite Hfind. simpl.
    rewrite decide_False by done. rewrite Hs. simpl. done.
  - intros (c & Hc & Hin)%list_elem_of_fmap.
    unfold lookupById in Hfind. apply head_None in Hfind.
    assert (c ∈ filter (λ c, _id c = ObjectId_cast p) db) as Hc'
      by (by apply list_elem_of_filter).
    rewrite Hfind in Hc'. by apply elem_of_nil in Hc'.
Qed.

Lemma createCategory_dangling_parent_witness :
  world_of (Controller.createCategory hex24 lower_hex trim_ascii
              "65a000000000000000000008"
              (mkBody (Some " Tablets ") (Some "65A0000000000000000000FF") None)
              (mkWorld sample None)) =
  Some (mkWorld (sample ++ [mkCategory "65a000000000000000000008" (trim_ascii " Tablets ")
                              (Some (lower_hex "65A0000000000000000000FF")) active])
                (Some (mkResponse 400 "Parent category not found")))
  ∧ lower_hex "65A0000000000000000000FF" ∉ ids sample.
Proof.
  apply (createCategory_dangling_parent hex24 lower_hex trim_ascii
           "65a000000000000000000008"
           (mkBody (Some " Tablets ") (Some "65A0000000000000000000FF") None)
           sample "65A0000000000000000000FF" " Tablets " active).
  - reflexivity.
  - apply (bool_decide_unpack _). vm_compute. exact I.
  - vm_compute. reflexivity.
  - vm_compute. reflexivity.
  - reflexivity.
  - apply (bool_decide_unpack _). vm_compute. exact I.
  - vm_compute. reflexivity.
Defined.

(** C8 as stated fails: a request with a well-formed parent id that denotes
    no category of the store, but without a name, is answered 400 and
    nothing is saved ([save()] rejects the document, since the schema
    requires [name]). *)
Lemma createCategory_without_name_saves_nothing :
  hex24 "65a0000000000000000000ff" = true
  ∧ lookupById (lower_hex "65a0000000000000000000ff") sample = None
  ∧ world_of (Controller.createCategory hex24 lower_hex trim_ascii
                "65a000000000000000000008"
                (mkBody None (Some "65a0000000000000000000ff") None)
                (mkWorld sample None)) =
    Some (mkWorld sample (Some (mkResponse 400 "Parent category not found"))).
Proof. vm_compute. repeat split. Qed.

(** The parent is found whatever the case of its hexadecimal digits, and it
    is stored as the [ObjectId] it denotes. *)
Example createCategory_upper_case_parent :
  world_of (Controller.createCategory hex24 lower_hex trim_ascii
              "65a000000000000000000008"
              (mkBody (Some "Tablets") (Some "65A000000000000000000001") None)
              (mkWorld sample None)) =
  Some (mkWorld (sample ++ [mkCategory "65a000000000000000000008" "Tablets"
                              (Some "65a000000000000000000001") active])
                (Some (mkResponse 201 "Category created successfully"))).
Proof. vm_compute. reflexivity. Qed.

Section update_handler.
Variable ObjectId_isValid : string → bool.
Variable ObjectId_cast : string → string.
Variable String_trim : string → string.

(** The caller of the cascade: deactivating an active category runs the
    cascade on the store and then writes the category's own status. *)
Lemma updateCategory_deactivate fuel id (db db' : Categories) c :
  ObjectId_isValid id = true → lookupById (ObjectId_cast id) db = Some c →
  status c = active → name c ≠ "" →
  cascade_from fuel (ObjectId_cast id) inactive db = Some db' →
  Controller.updateCategory ObjectId_isValid ObjectId_cast String_trim fuel id
    (mkBody None None (Some "inactive")) (mkWorld db None) =
  Returned ()
    (mkWorld (updateOne (ObjectId_cast id) (set_name_status (name c) inactive) db')
             (Some (mkResponse 200 "Category updated successfully"))).
Proof.
  intros Hvalid Hfind Hst Hname Hrun.
  destruct (lookupById_Some _ _ _ Hfind) as [_ Hcid].
  unfold_handler. unfold validate.
  rewrite Hvalid. simpl. rewrite Hfind. simpl. rewrite Hst. simpl.
  rewrite updateDescendantStatus_valid by done.
  rewrite Hrun. simpl. rewrite decide_False by done. simpl. by rewrite Hcid.
Qed.

Lemma updateCategory_guard_false fuel id body w :
  (req_status body ≠ Some "inactive" ∨
   ∃ c, lookupById (ObjectId_cast id) (collection w) = Some c ∧ status c = inactive) →
  ∃ w', world_of (Controller.updateCategory ObjectId_isValid ObjectId_cast String_trim
                    fuel id body w)
        = Some w' ∧
     length (collection w') = length (collection w) ∧
     ∀ i c, collection w !! i = Some c → _id c ≠ ObjectId_cast id →
            collection w' !! i = Some c.
Proof.
  intros Hcase. destruct w as [db r]. simpl in *.
  unfold_handler.
  destruct (ObjectId_isValid id); simpl.
  2:{ destruct r; simpl; eauto. }
  destruct (lookupById (ObjectId_cast id) db) as [c|] eqn:Hfind; simpl.
  2:{ destruct r; simpl; eauto. }
  assert (truthy (req_status body)
          && bool_decide (default "" (req_status body) ≠ Status_to_string (status c))
          && bool_decide (default "" (req_status body) = "inactive") = false) as ->.
  { destruct Hcase as [Hne|(c' & [= <-] & Hst)].
    - destruct (req_status body) as [s|]; simpl; [|done].
      rewrite (bool_decide_eq_false_2 (s = "inactive")) by congruence.
      by rewrite andb_false_r.
    - rewrite Hst. simpl.
      destruct (decide (default "" (req_status body) = "inactive")) as [->|Hne].
      + simpl. by rewrite andb_false_r.
      + rewrite (bool_decide_eq_false_2 _ Hne). by rewrite andb_false_r. }
  destruct (lookupById_Some _ _ _ Hfind) as [_ Hcid].
  destruct (truthy (req_status body)); simpl;
    destruct (validate _) as [c'|]; simpl; rewrite ?Hcid; destruct r; simpl.
  all: (eexists; split; [reflexivity|]; simpl; split;
      [by rewrite ?updateOne_length
      |intros i c0 Hi Hne; first [done|by apply updateOne_other]]).
Qed.

End update_handler.

(** C9. The descendant cascade is entered only by an update that sets the
    status to 'inactive' on a category whose status differs. Any other
    update, in particular one that sets the status to 'active', or to
    'inactive' on a category that is already inactive, never enters it: the
    handler ends even when the cascade is allowed no activation at all
    ([fuel] is arbitrary, also 0), the store keeps its length, and every
    record other than the one the request's id denotes is found unchanged
    at its position. *)
Theorem updateCategory_no_cascade
    (ObjectId_isValid : string → bool) (ObjectId_cast : string → string)
    (String_trim : string → string)
    (fuel : nat) (id : string) (body : Body) (w : World) :
  (req_status body ≠ Some "inactive" ∨
   ∃ c, lookupById (ObjectId_cast id) (collection w) = Some c ∧ status c = inactive) →
  ∃ w', world_of (Controller.updateCategory ObjectId_isValid ObjectId_cast String_trim
                    fuel id body w)
        = Some w' ∧
     length (collection w') = length (collection w) ∧
     ∀ i c, collection w !! i = Some c → _id c ≠ ObjectId_cast id →
            collection w' !! i = Some c.
Proof. apply updateCategory_guard_false. Qed.

Lemma updateCategory_no_cascade_witness :
  ∃ w', world_of (Controller.updateCategory hex24 lower_hex trim_ascii 0
                    "65A000000000000000000002"
                    (mkBody None None (Some "inactive")) all_inactive)
        = Some w' ∧
     length (collection w') = length (collection all_inactive) ∧
     ∀ i c, collection all_inactive !! i = Some c →
            _id c ≠ lower_hex "65A000000000000000000002" →
            collection w' !! i = Some c.
Proof.
  apply (updateCategory_no_cascade hex24 lower_hex trim_ascii 0
           "65A000000000000000000002"
           (mkBody None None (Some "inactive")) all_inactive).
  right. exists (set_status inactive computers). split; vm_compute; reflexivity.
Defined.

(** Activation is one of these updates; the id may be given in upper case
    and the category it denotes is renamed. *)
Example updateCategory_activate_no_cascade :
  world_of (Controller.updateCategory hex24 lower_hex trim_ascii 0
              "65A000000000000000000002"
              (mkBody (Some "Renamed") None (Some "active")) (mkWorld sample None))
  = Some (mkWorld
            [electronics;
             mkCategory "65a000000000000000000002" "Renamed"
               (Some "65a000000000000000000001") active;
             laptops; desktops; gaming; phones; orphan]
            (Some (mkResponse 200 "Category updated successfully"))).
Proof. vm_compute. reflexivity. Qed.

(** The update test of the controller: deactivating Electronics deactivates
    the whole subtree; the orphan is not below it and stays active. *)
Example updateCategory_cascade_sample :
  world_of (Controller.updateCategory hex24 lower_hex trim_ascii 8 (_id electronics)
              (mkBody None None (Some "inactive")) (mkWorld sample None)) =
  Some (mkWorld
          [mkCategory "65a000000000000000000001" "Electronics" None inactive;
           mkCategory "65a000000000000000000002" "Computers"
             (Some "65a000000000000000000001") inactive;
           mkCategory "65a000000000000000000003" "Laptops"
             (Some "65a000000000000000000002") inactive;
           mkCategory "65a000000000000000000004" "Desktops"
             (Some "65a000000000000000000002") inactive;
           mkCategory "65a000000000000000000005" "Gaming Laptops"
             (Some "65a000000000000000000003") inactive;
           mkCategory "65a000000000000000000006" "Phones"
             (Some "65a000000000000000000001") inactive;
           orphan]
          (Some (mkResponse 200 "Category updated successfully"))).
Proof. vm_compute. reflexivity. Qed.

(** Re-activating does not cascade: the descendants stay inactive. *)
Example updateCategory_reactivate_sample :
  world_of (Controller.updateCategory hex24 lower_hex trim_ascii 0 (_id electronics)
              (mkBody None None (Some "active"))
              (mkWorld (set_status inactive <$> sample) None)) =
  Some (mkWorld
          (electronics :: (set_status inactive <$>
             [computers; laptops; desktops; gaming; phones; orphan]))
          (Some (mkResponse 200 "Category updated successfully"))).
Proof. vm_compute. reflexivity. Qed.

(** * Tree builder *)

Section tree_builder.
Implicit Types cats l : Categories.
Implicit Types m : gmap string CategoryTreeNode.

Lemma mapCategories_fold_None m0 l i :
  foldl (λ categoryMap category,
           <[_id category :=
               mkNode (_id category) (name category) (status category) []]> categoryMap)
        m0 l !! i = None ↔ m0 !! i = None ∧ i ∉ ids l.
Proof.
  revert m0. induction l as [|c l IH]; intros m0; simpl.
  - split; [intros ?; split; [done|by intros ?%elem_of_nil]|by intros [? _]].
  - rewrite IH, lookup_insert_None, not_elem_of_cons. split.
    + intros [[? ?] ?]. split; [done|]. split; [congruence|done].
    + intros [? [? ?]]. split; [|done]. split; [done|congruence].
Qed.

Lemma mapCategories_fold_Some m0 l i n :
  foldl (λ categoryMap category,
           <[_id category :=
               mkNode (_id category) (name category) (status category) []]> categoryMap)
        m0 l !! i = Some n →
  m0 !! i = Some n ∨ ∃ c, c ∈ l ∧ _id c = i ∧ n = new_node c.
Proof.
  revert m0. induction l as [|c l IH]; intros m0; simpl; [by left|].
  intros [Hm|(c' & Hc' & Hid & Hn)]%IH.
  - apply lookup_insert_Some in Hm as [[Hid <-]|[_ Hm]]; [|by left].
    right. exists c. split; [left|done].
  - right. exists c'. split; [by right|done].
Qed.

Lemma mapCategories_None cats i : mapCategories cats !! i = None ↔ i ∉ ids cats.
Proof.
  unfold mapCategories. rewrite mapCategories_fold_None, lookup_empty.
  split; [by intros [_ ?]|by split].
Qed.

Lemma mapCategories_Some cats c :
  unique_ids cats → c ∈ cats → mapCategories cats !! _id c = Some (new_node c).
Proof.
  intros Hu Hc.
  destruct (mapCategories cats !! _id c) as [n|] eqn:E.
  - apply mapCategories_fold_Some in E as [E|(c' & Hc' & Hid & ->)]; [done|].
    by rewrite (unique_ids_inj _ _ _ Hu Hc' Hc Hid).
  - apply mapCategories_None in E. destruct E. by apply list_elem_of_fmap_2.
Qed.

Lemma childrenOf_cons i c l :
  childrenOf i (c :: l) =
  if decide (parent c = Some i) then c :: childrenOf i l else childrenOf i l.
Proof. unfold childrenOf. by rewrite filter_cons. Qed.

Lemma with_children_nil n : with_children [] n = n.
Proof. destruct n. unfold with_children. simpl. by rewrite app_nil_r. Qed.

Lemma with_children_push ref extra n :
  with_children extra (push_child ref n) = with_children (ref :: extra) n.
Proof. unfold with_children, push_child. simpl. by rewrite <- app_assoc. Qed.

(** The second pass of the exported helper, from any node map that has a
    node for every record still to be processed. *)
Lemma Utils_attach_fold l m0 r0 :
  (∀ c, c ∈ l → is_Some (m0 !! _id c)) →
  (∀ i, categoryMap (foldl Utils.attach (mkForest m0 r0) l) !! i
        = with_children (ids (childrenOf i l)) <$> m0 !! i)
  ∧ rootCategories (foldl Utils.attach (mkForest m0 r0) l)
    = r0 ++ ids (filter (root_in m0) l).
Proof.
  revert m0 r0. induction l as [|c l IH]; intros m0 r0 Hdom; simpl.
  - split; [|by rewrite app_nil_r]. intros i.
    destruct (m0 !! i) as [n|]; simpl; [|done]. by rewrite with_children_nil.
  - destruct (Hdom c) as [nc Hnc]; [left|].
    unfold Utils.attach at 2 4. simpl. rewrite Hnc.
    destruct (parent c) as [p|] eqn:Hp.
    + destruct (m0 !! p) as [pn|] eqn:Hpn.
      * (* the parent has a node: pushed to its children *)
        rewrite filter_cons, decide_False by (unfold root_in; rewrite Hp; congruence).
        destruct (IH (<[p := push_child (_id c) pn]> m0) r0) as [IHm IHr].
        { intros c' Hc'. rewrite lookup_insert_is_Some'. right. apply Hdom. by right. }
        split.
        -- intros i. rewrite IHm, childrenOf_cons, Hp.
           destruct (decide (p = i)) as [->|Hne].
           ++ rewrite lookup_insert_eq, Hpn, decide_True by done. simpl.
              by rewrite with_children_push.
           ++ rewrite lookup_insert_ne by done.
              rewrite decide_False by congruence. done.
        -- rewrite IHr. f_equal. f_equal. apply list_filter_iff.
           intros c'. unfold root_in. destruct (parent c') as [q|]; [|done].
           rewrite lookup_insert_None. split; [by intros [? _]|].
           intros Hq. split; [done|]. intros ->. congruence.
      * (* dangling parent: a root *)
        rewrite filter_cons, decide_True by (unfold root_in; by rewrite Hp).
        destruct (IH m0 (r0 ++ [_id c])) as [IHm IHr].
        { intros c' Hc'. apply Hdom. by right. }
        split.
        -- intros i. rewrite IHm, childrenOf_cons, Hp.
           destruct (decide (p = i)) as [->|Hne].
           ++ by rewrite Hpn.
           ++ rewrite decide_False by congruence. done.
        -- rewrite IHr. simpl. by rewrite <- app_assoc.
    + (* no parent: a root *)
      rewrite filter_cons, decide_True by (unfold root_in; by rewrite Hp).
      destruct (IH m0 (r0 ++ [_id c])) as [IHm IHr].
      { intros c' Hc'. apply Hdom. by right. }
      split.
      * intros i. rewrite IHm, childrenOf_cons, Hp. by rewrite decide_False.
      * rewrite IHr. simpl. by rewrite <- app_assoc.
Qed.

Lemma root_in_mapCategories cats c : root_in (mapCategories cats) c ↔ is_root cats c.
Proof.
  unfold root_in, is_root. destruct (parent c); [|done]. apply mapCategories_None.
Qed.

(** Closed form of the exported helper's result. *)
Lemma Utils_buildCategoryTree_map cats i :
  categoryMap (Utils.buildCategoryTree cats) !! i
  = with_children (ids (childrenOf i cats)) <$> mapCategories cats !! i.
Proof.
  unfold Utils.buildCategoryTree. apply Utils_attach_fold.
  intros c Hc. apply not_eq_None_Some. rewrite mapCategories_None.
  intros []. by apply list_elem_of_fmap_2.
Qed.

Lemma Utils_buildCategoryTree_roots cats :
  rootCategories (Utils.buildCategoryTree cats) = ids (filter (is_root cats) cats).
Proof.
  unfold Utils.buildCategoryTree.
  destruct (Utils_attach_fold cats (mapCategories cats) []) as [_ ->].
  - intros c Hc. apply not_eq_None_Some. rewrite mapCategories_None.
    intros []. by apply list_elem_of_fmap_2.
  - simpl. apply (f_equal ids), list_filter_iff. intros c.
    apply root_in_mapCategories.
Qed.

End tree_builder.

Section partition.
Context (cats : Categories).
Implicit Types c r : ICategory.
Implicit Types x y : string.

Lemma Utils_node_lookup c :
  unique_ids cats → c ∈ cats →
  categoryMap (Utils.buildCategoryTree cats) !! _id c
  = Some (mkNode (_id c) (name c) (status c) (ids (childrenOf (_id c) cats))).
Proof.
  intros Hu Hc. by rewrite Utils_buildCategoryTree_map, mapCategories_Some.
Qed.

Lemma Utils_info_at c :
  unique_ids cats → c ∈ cats →
  info_at (categoryMap (Utils.buildCategoryTree cats)) (_id c) = record_of c.
Proof. intros Hu Hc. unfold info_at. by rewrite Utils_node_lookup. Qed.

Lemma reify_mono fuel fuel' m ref t :
  reify fuel m ref = Some t → fuel ≤ fuel' → reify fuel' m ref = Some t.
Proof.
  revert fuel' ref t. induction fuel as [|fuel IH]; intros fuel' ref t; [done|].
  intros Hr Hle. destruct fuel' as [|fuel']; [lia|]. simpl in *.
  destruct (m !! ref) as [n|]; simpl in *; [|done].
  destruct (mapM (reify fuel m) (children n)) as [ts|] eqn:E; simpl in *; [|done].
  assert (mapM (reify fuel' m) (children n) = Some ts) as ->; [|done].
  apply mapM_Some. apply mapM_Some in E.
  eapply Forall2_impl; [done|]. intros ref' t' H'. apply IH; [done|lia].
Qed.

(** Walking the references of a list of records: the trees found list, in
    preorder, the blocks of the descendant listing. *)
Lemma reify_blocks fuel m (kids : Categories) ls :
  (∀ c l, c ∈ kids → getAllDescendantIds fuel (_id c) cats = Some l →
     ∃ t, reify fuel m (_id c) = Some t
          ∧ tree_nodes t = info_at m <$> (_id c :: l)
          ∧ tree_size t = S (length l)) →
  Forall2 (λ kid lk, getAllDescendantIds fuel (_id kid) cats = Some lk) kids ls →
  ∃ ts, mapM (reify fuel m) (ids kids) = Some ts
        ∧ forest_nodes ts
          = info_at m <$> concat (zip_with (λ kid lk, _id kid :: lk) kids ls)
        ∧ forest_size ts
          = length (concat (zip_with (λ kid lk, _id kid :: lk) kids ls)).
Proof.
  intros Hrec Hls. induction Hls as [|kid lk kids ls Hk Hls IH].
  - exists []. done.
  - destruct (Hrec kid lk) as (t & Ht & Hnodes & Hsize); [left|done|].
    destruct IH as (ts & Hts & Hns & Hss).
    { intros c l Hc. apply Hrec. by right. }
    exists (t :: ts). split; [|split].
    + unfold ids in *. rewrite fmap_cons. simpl. by rewrite Ht, Hts.
    + unfold forest_nodes in *. simpl. rewrite Hnodes, Hns, fmap_cons. simpl.
      f_equal. symmetry. apply fmap_app.
    + unfold forest_size in *. simpl. rewrite Hsize, Hss.
      by rewrite length_app.
Qed.

Lemma childrenOf_subseteq x c : c ∈ childrenOf x cats → c ∈ cats.
Proof. unfold childrenOf. by intros [_ ?]%list_elem_of_filter. Qed.

Lemma reify_listing fuel c l :
  unique_ids cats → c ∈ cats →
  getAllDescendantIds fuel (_id c) cats = Some l →
  ∃ t, reify fuel (categoryMap (Utils.buildCategoryTree cats)) (_id c) = Some t
       ∧ tree_nodes t
         = info_at (categoryMap (Utils.buildCategoryTree cats)) <$> (_id c :: l)
       ∧ tree_size t = S (length l).
Proof.
  intros Hu. revert c l. induction fuel as [|fuel IH]; intros c l Hc; [done|].
  intros (ls & Hls & ->)%getAllDescendantIds_Some.
  destruct (reify_blocks fuel (categoryMap (Utils.buildCategoryTree cats))
              (childrenOf (_id c) cats) ls) as (ts & Hts & Hns & Hss); [|done|].
  { intros k lk Hk. apply IH. by eapply childrenOf_subseteq. }
  exists (TreeNode (_id c) (name c) (status c) ts).
  split; [|split].
  - simpl. rewrite Utils_node_lookup by done. simpl. by rewrite Hts.
  - rewrite fmap_cons, Utils_info_at by done. simpl.
    unfold forest_nodes in Hns. by rewrite Hns.
  - simpl. unfold forest_size in Hss. by rewrite Hss.
Qed.

Lemma tc_flip_inv {A} (R : relation A) a b : tc (flip R) a b → tc R b a.
Proof.
  induction 1 as [a b H|a b c H _ IH]; [by apply tc_once|].
  eapply tc_r; [exact IH|exact H].
Qed.

(** Without cycles, climbing from child to parent is well founded. *)
Lemma parent_chain_acc y : acyclic cats → Acc (is_child cats) y.
Proof.
  intros Hacyc.
  assert (sn (flip (is_child cats)) y) as Hsn; [|exact Hsn].
  apply tc_finite_sn.
  - intros x Hx%tc_flip_inv. by apply (Hacyc x).
  - exists (omap parent cats). intros z Hz.
    induction Hz as [a b (c & Hc & _ & Hp)|]; [|done].
    apply list_elem_of_omap. eauto.
Qed.

(** Every record hangs below a root record (or is one). *)
Lemma root_above y :
  acyclic cats → y ∈ ids cats →
  ∃ r, r ∈ filter (is_root cats) cats ∧ rtc (is_child cats) (_id r) y.
Proof.
  intros Hacyc. induction (parent_chain_acc y Hacyc) as [y _ IH].
  intros (c & -> & Hc)%list_elem_of_fmap.
  destruct (decide (is_root cats c)) as [Hroot|Hnot].
  - exists c. split; [by apply list_elem_of_filter|done].
  - unfold is_root in Hnot. destruct (parent c) as [p|] eqn:Hp; [|by destruct Hnot].
    apply dec_stable in Hnot.
    assert (is_child cats p (_id c)) as Hpc by (by exists c).
    destruct (IH p Hpc Hnot) as (r & Hr & Hrp).
    exists r. split; [done|]. by eapply rtc_r.
Qed.

(** With unique ids a root record has no ancestor among the records. *)
Lemma root_not_descendant a r :
  unique_ids cats → a ∈ ids cats → r ∈ filter (is_root cats) cats →
  ¬ descendant cats a (_id r).
Proof.
  intros Hu Ha [Hroot Hr]%list_elem_of_filter (z & Haz & (c & Hc & Hid & Hp))%descendant_inv_r.
  assert (c = r) as -> by (by eapply unique_ids_inj).
  unfold is_root in Hroot. rewrite Hp in Hroot. apply Hroot.
  apply rtc_tc in Haz as [<-|Hd]; [done|]. by eapply descendant_in_ids.
Qed.

Lemma roots_blocks_Permutation fuel ls :
  unique_ids cats → acyclic cats →
  Forall2 (λ r l, getAllDescendantIds fuel (_id r) cats = Some l)
          (filter (is_root cats) cats) ls →
  concat (zip_with (λ r l, _id r :: l) (filter (is_root cats) cats) ls) ≡ₚ ids cats.
Proof.
  intros Hu Hacyc Hls. apply NoDup_Permutation; [|exact Hu|].
  - eapply blocks_NoDup; [done| |done| |].
    + intros x l. by apply getAllDescendantIds_NoDup.
    + eapply sublist_NoDup; [exact Hu|]. apply fmap_sublist, sublist_filter.
    + intros a b (ra & -> & Hra)%list_elem_of_fmap (rb & -> & Hrb)%list_elem_of_fmap.
      apply root_not_descendant; [done| |done].
      apply list_elem_of_fmap_2. by apply list_elem_of_filter in Hra as [_ ?].
  - intros y. rewrite (elem_of_blocks _ _ _ _ _ Hls). split.
    + intros (r & [_ Hr]%list_elem_of_filter & [<-|Hd]%rtc_tc).
      * by apply list_elem_of_fmap_2.
      * by eapply descendant_in_ids.
    + intros Hy. by apply root_above.
Qed.

End partition.

(** C1 (as amended). For every input list with pairwise distinct ids and an
    acyclic parent graph, the forest returned by the exported tree builder can
    be walked to the end, and it contains every input record (id, name,
    status) exactly once, nested or at the root: its nodes are a permutation
    of the input records and their number is the length of the input. *)
Theorem buildCategoryTree_partition (cats : Categories) :
  unique_ids cats → acyclic cats →
  ∃ forest,
    (∀ fuel, length cats < fuel →
       reify_forest fuel (Utils.buildCategoryTree cats) = Some forest)
    ∧ forest_nodes forest ≡ₚ record_of <$> cats
    ∧ forest_size forest = length cats.
Proof.
  intros Hu Hacyc.
  destruct (mapM (λ r, getAllDescendantIds (S (length cats)) (_id r) cats)
              (filter (is_root cats) cats))
    as [ls|] eqn:Els.
  2:{ apply mapM_None, Exists_exists in Els as (r & _ & Hr).
      destruct (getAllDescendantIds_total cats (_id r) Hacyc) as [l Hl]. congruence. }
  apply mapM_Some in Els.
  destruct (reify_blocks cats (S (length cats))
              (categoryMap (Utils.buildCategoryTree cats))
              (filter (is_root cats) cats) ls)
    as (ts & Hts & Hns & Hss); [|done|].
  { intros c l [_ Hc]%list_elem_of_filter. by apply reify_listing. }
  pose proof (roots_blocks_Permutation cats _ ls Hu Hacyc Els) as Hperm.
  exists ts. split; [|split].
  - intros fuel Hfuel. unfold reify_forest.
    rewrite Utils_buildCategoryTree_roots.
    apply mapM_Some. apply mapM_Some in Hts.
    eapply Forall2_impl; [done|]. intros ref t Ht. cbv beta in Ht.
    eapply reify_mono; [exact Ht|lia].
  - rewrite Hns, Hperm.
    assert (info_at (categoryMap (Utils.buildCategoryTree cats)) <$> ids cats
            = record_of <$> cats) as ->; [|done].
    unfold ids. rewrite <- list_fmap_compose.
    apply Forall_fmap_ext_1, Forall_forall. intros c Hc. simpl.
    by apply Utils_info_at.
  - rewrite Hss, Hperm. unfold ids. by rewrite length_fmap.
Qed.

Lemma buildCategoryTree_partition_witness :
  ∃ forest,
    (∀ fuel, length sample < fuel →
       reify_forest fuel (Utils.buildCategoryTree sample) = Some forest)
    ∧ forest_nodes forest ≡ₚ record_of <$> sample
    ∧ forest_size forest = length sample.
Proof.
  apply (buildCategoryTree_partition sample).
  - unfold unique_ids. apply (bool_decide_unpack _). vm_compute. exact I.
  - apply acyclicb_sound. vm_compute. reflexivity.
Defined.

(** C1 as stated fails on a cyclic input: two records that name each other
    as parent are both attached to a node and neither is a root, so the
    returned forest is empty (in both copies of the builder) while the input
    has two records. *)
Lemma buildCategoryTree_cycle_dropped :
  unique_ids [loop_a; loop_b]
  ∧ rootCategories (Utils.buildCategoryTree [loop_a; loop_b]) = []
  ∧ rootCategories (Controller.buildCategoryTree [loop_a; loop_b]) = []
  ∧ ¬ ∃ fuel forest,
        reify_forest fuel (Utils.buildCategoryTree [loop_a; loop_b]) = Some forest
        ∧ forest_size forest = length [loop_a; loop_b].
Proof.
  assert (rootCategories (Utils.buildCategoryTree [loop_a; loop_b]) = []) as Hroots
    by (vm_compute; reflexivity).
  split; [|split; [done|split]].
  - unfold unique_ids. apply (bool_decide_unpack _). vm_compute. exact I.
  - vm_compute. reflexivity.
  - intros (fuel & forest & Hwalk & Hsize).
    unfold reify_forest in Hwalk. rewrite Hroots in Hwalk. simpl in Hwalk.
    injection Hwalk as <-. discriminate Hsize.
Qed.

(** * Dangling parents *)

(** The exported helper presents every record with a dangling parent as a
    root. *)
Lemma Utils_buildCategoryTree_dangling_root (cats : Categories) c p :
  c ∈ cats → parent c = Some p → p ∉ ids cats →
  _id c ∈ rootCategories (Utils.buildCategoryTree cats).
Proof.
  intros Hc Hp Hdangling. rewrite Utils_buildCategoryTree_roots.
  apply list_elem_of_fmap_2, list_elem_of_filter. split; [|done].
  unfold is_root. by rewrite Hp.
Qed.

Lemma Controller_attach_fold_roots (l : Categories) st :
  rootCategories (foldl Controller.attach st l)
  = rootCategories st ++ ids (filter (λ c, parent c = None) l).
Proof.
  revert st. induction l as [|c l IH]; intros st; simpl.
  - by rewrite app_nil_r.
  - rewrite IH, filter_cons. unfold Controller.attach.
    destruct (parent c) as [p|]; simpl.
    + by destruct (categoryMap st !! p).
    + by rewrite <- app_assoc.
Qed.

(** The controller's copy only lists the records without parent. *)
Lemma Controller_buildCategoryTree_roots (cats : Categories) :
  rootCategories (Controller.buildCategoryTree cats)
  = ids (filter (λ c, parent c = None) cats).
Proof. unfold Controller.buildCategoryTree. by rewrite Controller_attach_fold_roots. Qed.

(** With unique ids, a record with a parent (dangling or not) is never in the
    controller's root list. *)
Lemma Controller_buildCategoryTree_dangling_dropped (cats : Categories) c p :
  unique_ids cats → c ∈ cats → parent c = Some p →
  _id c ∉ rootCategories (Controller.buildCategoryTree cats).
Proof.
  intros Hu Hc Hp. rewrite Controller_buildCategoryTree_roots.
  intros (c' & Hid & [Hp' Hc']%list_elem_of_filter)%list_elem_of_fmap.
  assert (c = c') as -> by (by eapply unique_ids_inj). congruence.
Qed.

(** C2, at the failing input: the sample contains a record whose parent id
    is not in the set. The exported helper lists it as a root; the
    controller's copy of the builder, the one behind [getAllCategories],
    returns a forest without it. *)
Theorem Controller_buildCategoryTree_drops_dangling :
  orphan ∈ sample
  ∧ parent orphan = Some "65a0000000000000000000ff"
  ∧ ("65a0000000000000000000ff" ∉ ids sample)
  ∧ rootCategories (Utils.buildCategoryTree sample) = [_id electronics; _id orphan]
  ∧ rootCategories (Controller.buildCategoryTree sample) = [_id electronics]
  ∧ reify_forest 8 (Controller.buildCategoryTree sample) =
    Some [TreeNode (_id electronics) "Electronics" active
            [TreeNode (_id computers) "Computers" active
               [TreeNode (_id laptops) "Laptops" active
                  [TreeNode (_id gaming) "Gaming Laptops" active []];
                TreeNode (_id desktops) "Desktops" active []];
             TreeNode (_id phones) "Phones" active []]].
Proof.
  split; [|split; [|split; [|split; [|split]]]].
  - apply (bool_decide_unpack _). vm_compute. exact I.
  - reflexivity.
  - apply (bool_decide_unpack _). vm_compute. exact I.
  - vm_compute. reflexivity.
  - vm_compute. reflexivity.
  - vm_compute. reflexivity.
Qed.

(** Without dangling parents the two copies of the builder agree. *)
Lemma attach_agree st c :
  is_Some (categoryMap st !! _id c) →
  (∀ p, parent c = Some p → is_Some (categoryMap st !! p)) →
  Controller.attach st c = Utils.attach st c.
Proof.
  intros [n Hn] Hp. unfold Controller.attach, Utils.attach. rewrite Hn.
  destruct (parent c) as [p|]; [|done].
  destruct (Hp p eq_refl) as [pn Hpn]. by rewrite Hpn.
Qed.

Lemma Utils_attach_dom st c i :
  is_Some (categoryMap (Utils.attach st c) !! i) ↔ is_Some (categoryMap st !! i).
Proof.
  unfold Utils.attach. destruct (categoryMap st !! _id c); [|done].
  destruct (parent c) as [p|]; [|done].
  destruct (categoryMap st !! p) as [pn|] eqn:Hpn; [|done]. simpl.
  rewrite lookup_insert_is_Some'. split; [|by right].
  intros [<-|?]; [by rewrite Hpn|done].
Qed.

Lemma attach_fold_agree (l : Categories) st :
  (∀ c, c ∈ l → is_Some (categoryMap st !! _id c)
                ∧ ∀ p, parent c = Some p → is_Some (categoryMap st !! p)) →
  foldl Controller.attach st l = foldl Utils.attach st l.
Proof.
  revert st. induction l as [|c l IH]; intros st Hl; simpl; [done|].
  destruct (Hl c) as [Hc Hp]; [left|]. rewrite (attach_agree st c Hc Hp).
  apply IH. intros c' Hc'. destruct (Hl c') as [Hc1 Hp1]; [by right|].
  split; [by apply Utils_attach_dom|].
  intros p Hpp. by apply Utils_attach_dom, Hp1.
Qed.

Lemma Controller_buildCategoryTree_agrees (cats : Categories) :
  (∀ c p, c ∈ cats → parent c = Some p → p ∈ ids cats) →
  Controller.buildCategoryTree cats = Utils.buildCategoryTree cats.
Proof.
  intros Hres. apply attach_fold_agree. intros c Hc. simpl. split.
  - apply not_eq_None_Some. rewrite mapCategories_None.
    intros []. by apply list_elem_of_fmap_2.
  - intros p Hp. apply not_eq_None_Some. rewrite mapCategories_None.
    intros []. by eapply Hres.
Qed.

(** Duplicate ids, which the store excludes, also break the count: both
    records with the repeated id lead to the one node kept for it. *)
Example buildCategoryTree_duplicate_id :
  let twin := mkCategory (_id electronics) "Twin" None active in
  reify_forest 8 (Utils.buildCategoryTree [electronics; twin; phones]) =
  Some [TreeNode (_id electronics) "Twin" active
          [TreeNode (_id phones) "Phones" active []];
        TreeNode (_id electronics) "Twin" active
          [TreeNode (_id phones) "Phones" active []]].
Proof. vm_compute. reflexivity. Qed.

(** * Further facts *)

(** Direct children are taken in the order of the input. *)
Lemma childrenOf_sublist (x : string) (cats : Categories) :
  childrenOf x cats `sublist_of` cats.
Proof. apply sublist_filter. Qed.

(** In an acyclic graph the ancestors of an id, and the id itself, are not
    among its descendants, so the cascade leaves them alone. *)
Lemma ancestor_not_descendant (cats : Categories) (a x : string) :
  acyclic cats → rtc (is_child cats) a x → ¬ descendant cats x a.
Proof.
  intros Hacyc Hax Hxa. apply (Hacyc x). by eapply tc_rtc_r.
Qed.

(** The recursions return from every id exactly when the graph is acyclic. *)
Lemma recursion_total_iff_acyclic (cats : Categories) :
  (∀ x, ∃ fuel, is_Some (getAllDescendantIds fuel x cats)) ↔ acyclic cats.
Proof.
  split.
  - intros Htotal x Hxx. destruct (Htotal x) as (fuel & l & Hl).
    destruct (cycle_diverges cats x x active fuel) as [Hnone _]; [done|done|].
    congruence.
  - intros Hacyc x. exists (S (length cats)). by apply getAllDescendantIds_total.
Qed.

(** A status outside the enum is rejected by [save()] as well. *)
Example createCategory_invalid_status_saves_nothing :
  world_of (Controller.createCategory hex24 lower_hex trim_ascii "65a000000000000000000008"
              (mkBody (Some "Tablets") (Some "65a0000000000000000000ff")
                      (Some "archived"))
              (mkWorld sample None)) =
  Some (mkWorld sample (Some (mkResponse 400 "Parent category not found"))).
Proof. vm_compute. reflexivity. Qed.

(** With an existing parent the request is answered 201. *)
Example createCategory_valid_parent :
  world_of (Controller.createCategory hex24 lower_hex trim_ascii "65a000000000000000000008"
              (mkBody (Some "Tablets") (Some (_id electronics)) (Some "active"))
              (mkWorld sample None)) =
  Some (mkWorld (sample ++ [mkCategory "65a000000000000000000008" "Tablets"
                                       (Some (_id electronics)) active])
                (Some (mkResponse 201 "Category created successfully"))).
Proof. vm_compute. reflexivity. Qed.

(** The tree of the controller's read test. *)
Example buildCategoryTree_sample :
  reify_forest 8 (Utils.buildCategoryTree sample) =
  Some [TreeNode (_id electronics) "Electronics" active
          [TreeNode (_id computers) "Computers" active
             [TreeNode (_id laptops) "Laptops" active
                [TreeNode (_id gaming) "Gaming Laptops" active []];
              TreeNode (_id desktops) "Desktops" active []];
           TreeNode (_id phones) "Phones" active []];
        TreeNode (_id orphan) "Orphan" active []].
Proof. vm_compute. reflexivity. Qed.

(** * More on the tree helpers *)

Section helper_results.
Implicit Types cats l : Categories.

Lemma mapCategories_fold_last (m0 : gmap string CategoryTreeNode) l i :
  foldl (λ categoryMap category,
           <[_id category :=
               mkNode (_id category) (name category) (status category) []]> categoryMap)
        m0 l !! i
  = match last (filter (λ c, _id c = i) l) with
    | Some c => Some (new_node c)
    | None => m0 !! i
    end.
Proof.
  revert m0. induction l as [|c l IH]; intros m0; simpl; [done|].
  rewrite IH, filter_cons. destruct (decide (_id c = i)) as [<-|Hne].
  - rewrite last_cons. destruct (last (filter _ l)); [done|].
    by rewrite lookup_insert_eq.
  - destruct (last (filter _ l)); [done|]. by rewrite lookup_insert_ne.
Qed.

Lemma Utils_node_closed_form cats i :
  categoryMap (Utils.buildCategoryTree cats) !! i
  = (λ c, mkNode (_id c) (name c) (status c) (ids (childrenOf i cats)))
      <$> last (filter (λ c, _id c = i) cats).
Proof.
  rewrite Utils_buildCategoryTree_map. unfold mapCategories.
  rewrite mapCategories_fold_last, lookup_empty.
  by destruct (last (filter _ cats)).
Qed.

Lemma Utils_info_at_id cats i :
  (info_at (categoryMap (Utils.buildCategoryTree cats)) i).1.1 = i.
Proof.
  unfold info_at. rewrite Utils_node_closed_form.
  destruct (last (filter _ cats)) as [c|] eqn:E; simpl; [|done].
  apply last_Some_elem_of, list_elem_of_filter in E. by destruct E.
Qed.

End helper_results.

(** X1. The exported builder's root list holds, in input order, the ids of
    exactly the records that have no parent or whose parent id is not an id
    of the input. *)
Theorem exported_roots_in_input_order (cats : Categories) :
  rootCategories (Utils.buildCategoryTree cats) = ids (filter (is_root cats) cats).
Proof. apply Utils_buildCategoryTree_roots. Qed.

(** X2. For every input and every id, the exported builder keeps one node per
    id: it carries the name and status of the last record with that id, and
    its children are the ids of all records whose parent is that id, in input
    order; an id of no record has no node. *)
Theorem exported_node_contents (cats : Categories) (i : string) :
  categoryMap (Utils.buildCategoryTree cats) !! i
  = (λ c, mkNode (_id c) (name c) (status c) (ids (childrenOf i cats)))
      <$> last (filter (λ c, _id c = i) cats).
Proof. apply Utils_node_closed_form. Qed.

(** X3. The two tree helpers agree: with unique ids, walking the exported
    builder's node of a record finds, in preorder, that record's id followed
    by the descendant-id listing for it, and as many nodes. *)
Theorem tree_of_record_lists_descendants (cats : Categories) (c : ICategory)
    (fuel : nat) (l : list string) :
  unique_ids cats → c ∈ cats →
  getAllDescendantIds fuel (_id c) cats = Some l →
  ∃ t, reify fuel (categoryMap (Utils.buildCategoryTree cats)) (_id c) = Some t
       ∧ tree_ids t = _id c :: l
       ∧ tree_size t = S (length l).
Proof.
  intros Hu Hc Hl.
  destruct (reify_listing cats fuel c l Hu Hc Hl) as (t & Ht & Hnodes & Hsize).
  exists t. split; [done|]. split; [|done].
  unfold tree_ids. rewrite Hnodes, <- list_fmap_compose.
  rewrite <- (list_fmap_id (_id c :: l)) at 2.
  apply Forall_fmap_ext_1, Forall_forall. intros i _. simpl.
  apply Utils_info_at_id.
Qed.

Lemma tree_of_record_lists_descendants_witness :
  ∃ t, reify 5 (categoryMap (Utils.buildCategoryTree sample)) (_id computers) = Some t
       ∧ tree_ids t = _id computers :: [_id laptops; _id gaming; _id desktops]
       ∧ tree_size t = S (length [_id laptops; _id gaming; _id desktops]).
Proof.
  apply (tree_of_record_lists_descendants sample computers 5
           [_id laptops; _id gaming; _id desktops]).
  - unfold unique_ids. apply (bool_decide_unpack _). vm_compute. exact I.
  - apply (bool_decide_unpack _). vm_compute. exact I.
  - vm_compute. reflexivity.
Defined.

(** X4. With unique ids and no cycle the listing is never longer than the
    input, and it is strictly shorter when the queried id is itself the id
    of a record. *)
Theorem listing_length_bound (cats : Categories) (x : string) (fuel : nat)
    (l : list string) :
  unique_ids cats → acyclic cats →
  getAllDescendantIds fuel x cats = Some l →
  length l ≤ length cats ∧ (x ∈ ids cats → length l < length cats).
Proof.
  intros Hu Hacyc Hl.
  assert (NoDup l) as Hnd by (by eapply getAllDescendantIds_NoDup).
  assert (∀ y, y ∈ l → y ∈ ids cats) as Hsub.
  { intros y Hy. eapply descendant_in_ids.
    by apply (getAllDescendantIds_elem_of _ _ _ _ y Hl). }
  rewrite <- (length_fmap _id cats). split.
  - by apply submseteq_length, NoDup_submseteq.
  - intros Hx.
    assert (x ∉ l) as Hxl.
    { rewrite (getAllDescendantIds_elem_of _ _ _ _ _ Hl). apply Hacyc. }
    change (length (x :: l) ≤ length (_id <$> cats)).
    apply submseteq_length, NoDup_submseteq.
    + by apply NoDup_cons.
    + intros y [->|Hy]%elem_of_cons; auto.
Qed.

Lemma listing_length_bound_witness :
  length [_id laptops; _id gaming; _id desktops] ≤ length sample
  ∧ (_id computers ∈ ids sample →
     length [_id laptops; _id gaming; _id desktops] < length sample).
Proof.
  apply (listing_length_bound sample (_id computers) 5).
  - unfold unique_ids. apply (bool_decide_unpack _). vm_compute. exact I.
  - apply acyclicb_sound. vm_compute. reflexivity.
  - vm_compute. reflexivity.
Defined.

(** X5. A listing contains the listing of each of its members: whatever is
    listed below a listed id is listed as well. *)
Theorem listing_contains_sublistings (cats : Categories) (x y : string)
    (fuel fuel' : nat) (l l' : list string) :
  getAllDescendantIds fuel x cats = Some l → y ∈ l →
  getAllDescendantIds fuel' y cats = Some l' →
  ∀ z, z ∈ l' → z ∈ l.
Proof.
  intros Hl Hy Hl' z Hz.
  apply (getAllDescendantIds_elem_of _ _ _ _ _ Hl).
  apply (getAllDescendantIds_elem_of _ _ _ _ _ Hl) in Hy.
  apply (getAllDescendantIds_elem_of _ _ _ _ _ Hl') in Hz.
  by eapply tc_trans.
Qed.

Lemma listing_contains_sublistings_witness :
  Forall (λ z, z ∈ [_id computers; _id laptops; _id gaming; _id desktops; _id phones])
         [_id laptops; _id gaming; _id desktops].
Proof.
  apply Forall_forall.
  apply (listing_contains_sublistings sample (_id electronics) (_id computers) 5 5).
  - vm_compute. reflexivity.
  - apply (bool_decide_unpack _). vm_compute. exact I.
  - vm_compute. reflexivity.
Defined.

(** * The controller's builder and the read handler *)

Section controller_builder.
Implicit Types cats l : Categories.

Lemma attach_map_agree st1 st2 c :
  categoryMap st1 = categoryMap st2 → is_Some (categoryMap st1 !! _id c) →
  categoryMap (Controller.attach st1 c) = categoryMap (Utils.attach st2 c).
Proof.
  intros Hm [n Hn]. unfold Controller.attach, Utils.attach.
  rewrite <- Hm, Hn. destruct (parent c) as [p|]; [|done].
  by destruct (categoryMap st1 !! p).
Qed.

Lemma attach_fold_map_agree l st1 st2 :
  categoryMap st1 = categoryMap st2 →
  (∀ c, c ∈ l → is_Some (categoryMap st1 !! _id c)) →
  categoryMap (foldl Controller.attach st1 l)
  = categoryMap (foldl Utils.attach st2 l).
Proof.
  revert st1 st2. induction l as [|c l IH]; intros st1 st2 Hm Hdom; simpl; [done|].
  assert (categoryMap (Controller.attach st1 c) = categoryMap (Utils.attach st2 c))
    as Hstep by (apply attach_map_agree; [done|apply Hdom; left]).
  apply IH; [done|]. intros c' Hc'.
  rewrite Hstep. apply Utils_attach_dom. rewrite <- Hm. apply Hdom. by right.
Qed.

(** Both copies build the same nodes; they differ in the root list only. *)
Lemma Controller_map_eq cats :
  categoryMap (Controller.buildCategoryTree cats)
  = categoryMap (Utils.buildCategoryTree cats).
Proof.
  apply attach_fold_map_agree; [done|]. intros c Hc. simpl.
  apply not_eq_None_Some. rewrite mapCategories_None.
  intros []. by apply list_elem_of_fmap_2.
Qed.

Lemma tree_ids_node id nm st kids :
  tree_ids (TreeNode id nm st kids) = id :: concat (map tree_ids kids).
Proof.
  unfold tree_ids. cbn [tree_nodes]. rewrite fmap_cons. f_equal.
  induction kids as [|t kids IH]; [done|].
  cbn [map concat]. by rewrite fmap_app, IH.
Qed.

Lemma forest_ids_concat ts : forest_ids ts = concat (map tree_ids ts).
Proof.
  unfold forest_ids, forest_nodes, tree_ids.
  induction ts as [|t ts IH]; [done|]. cbn [map concat]. by rewrite fmap_app, IH.
Qed.

Lemma elem_of_concat_map {A B} (f : A → list B) (ts : list A) (i : B) :
  i ∈ concat (map f ts) ↔ ∃ t, t ∈ ts ∧ i ∈ f t.
Proof.
  induction ts as [|t ts IH]; simpl.
  - split; [by intros ?%elem_of_nil|by intros (? & ?%elem_of_nil & _)].
  - rewrite elem_of_app, IH. split.
    + intros [Hi|(t' & Ht' & Hi)]; [exists t; split; [left|done]|].
      exists t'. split; [by right|done].
    + intros (t' & [->|Ht']%elem_of_cons & Hi); [by left|right; eauto].
Qed.

(** An id met while walking from a reference is that reference's node id or
    the node id of a child reference of some node. *)
Lemma reify_ids fuel (m : gmap string CategoryTreeNode) ref t i :
  (∀ k n, m !! k = Some n → node_id n = k) →
  reify fuel m ref = Some t → i ∈ tree_ids t →
  i = ref ∨ ∃ k n, m !! k = Some n ∧ i ∈ children n.
Proof.
  intros Hkey. revert ref t. induction fuel as [|fuel IH]; intros ref t; [done|].
  simpl. destruct (m !! ref) as [n|] eqn:Hn; simpl; [|done].
  destruct (mapM (reify fuel m) (children n)) as [kids|] eqn:Hkids; simpl; [|done].
  intros [= <-]. rewrite tree_ids_node.
  intros [->|Hi]%elem_of_cons; [left; by apply Hkey|]. right.
  apply mapM_Some in Hkids.
  apply elem_of_concat_map in Hi as (tk & Htk & Hi).
  apply list_elem_of_lookup in Htk as [pos Hpos].
  destruct (Forall2_lookup_r _ _ _ _ tk Hkids Hpos) as (j & Hj & Hrj).
  destruct (IH j tk Hrj Hi) as [->|Hdeep]; [|done].
  exists ref, n. split; [done|]. by eapply list_elem_of_lookup_2.
Qed.

Lemma Utils_map_key cats k n :
  categoryMap (Utils.buildCategoryTree cats) !! k = Some n →
  node_id n = k ∧ children n = ids (childrenOf k cats) ∧ k ∈ ids cats.
Proof.
  rewrite Utils_node_closed_form.
  destruct (last (filter _ cats)) as [c|] eqn:E; simpl; [|done].
  intros [= <-]. simpl.
  apply last_Some_elem_of, list_elem_of_filter in E as [Hid Hc].
  split; [done|]. split; [done|]. rewrite <- Hid. by apply list_elem_of_fmap_2.
Qed.

(** With unique ids the controller's forest never shows a record whose
    parent id is not in the input, at the root or nested. *)
Lemma Controller_forest_omits cats c p fuel forest :
  unique_ids cats → c ∈ cats → parent c = Some p → p ∉ ids cats →
  reify_forest fuel (Controller.buildCategoryTree cats) = Some forest →
  _id c ∉ forest_ids forest.
Proof.
  intros Hu Hc Hp Hdangling Hwalk Hin.
  unfold reify_forest in Hwalk. rewrite Controller_map_eq in Hwalk.
  apply mapM_Some in Hwalk.
  rewrite forest_ids_concat in Hin.
  apply elem_of_concat_map in Hin as (t & Ht & Hin).
  apply list_elem_of_lookup in Ht as [pos Hpos].
  destruct (Forall2_lookup_r _ _ _ _ t Hwalk Hpos) as (r & Hr & Hrt).
  apply list_elem_of_lookup_2 in Hr.
  destruct (reify_ids _ _ _ _ _ (λ k n H, proj1 (Utils_map_key cats k n H)) Hrt Hin)
    as [Heq|(k & n & Hk & Hkid)].
  - (* at the root: only records without parent *)
    subst r. eapply Controller_buildCategoryTree_dangling_dropped; done.
  - (* nested: only below a node of the own parent id *)
    destruct (Utils_map_key cats k n Hk) as (_ & Hkids & Hkin).
    rewrite Hkids in Hkid.
    apply list_elem_of_fmap in Hkid as (c' & Hid & [Hp' Hc']%list_elem_of_filter).
    assert (c = c') as <- by (by eapply unique_ids_inj).
    congruence.
Qed.

(** Walk of the exported builder's forest (unique ids, no cycle). *)
Lemma Utils_forest_walk cats :
  unique_ids cats → acyclic cats →
  ∃ forest,
    (∀ fuel, length cats < fuel →
       reify_forest fuel (Utils.buildCategoryTree cats) = Some forest)
    ∧ forest_nodes forest ≡ₚ record_of <$> cats.
Proof.
  intros Hu Hacyc.
  destruct (mapM (λ r, getAllDescendantIds (S (length cats)) (_id r) cats)
              (filter (is_root cats) cats)) as [ls|] eqn:Els.
  2:{ apply mapM_None, Exists_exists in Els as (r & _ & Hr).
      destruct (getAllDescendantIds_total cats (_id r) Hacyc) as [l Hl]. congruence. }
  apply mapM_Some in Els.
  destruct (reify_blocks cats (S (length cats))
              (categoryMap (Utils.buildCategoryTree cats))
              (filter (is_root cats) cats) ls) as (ts & Hts & Hns & _); [|done|].
  { intros c l [_ Hc]%list_elem_of_filter. by apply reify_listing. }
  exists ts. split.
  - intros fuel Hfuel. unfold reify_forest. rewrite Utils_buildCategoryTree_roots.
    apply mapM_Some. apply mapM_Some in Hts.
    eapply Forall2_impl; [done|]. intros ref t Ht. cbv beta in Ht.
    eapply reify_mono; [exact Ht|lia].
  - rewrite Hns, (roots_blocks_Permutation cats _ ls Hu Hacyc Els).
    assert (info_at (categoryMap (Utils.buildCategoryTree cats)) <$> ids cats
            = record_of <$> cats) as ->; [|done].
    unfold ids. rewrite <- list_fmap_compose.
    apply Forall_fmap_ext_1, Forall_forall. intros c Hc. simpl.
    by apply Utils_info_at.
Qed.

(** The serialiser's walk of a node returns only if the listing from its id
    does, within the same nesting. *)
Lemma reify_returns cats fuel c :
  unique_ids cats → c ∈ cats →
  is_Some (reify fuel (categoryMap (Utils.buildCategoryTree cats)) (_id c)) →
  is_Some (getAllDescendantIds fuel (_id c) cats).
Proof.
  intros Hu. revert c. induction fuel as [|fuel IH]; intros c Hc [t Ht]; [done|].
  simpl in Ht. rewrite (Utils_node_lookup cats c Hu Hc) in Ht. simpl in Ht.
  destruct (mapM _ (ids (childrenOf (_id c) cats))) as [ts|] eqn:E; [|done].
  assert (is_Some (mapM (λ kid, getAllDescendantIds fuel (_id kid) cats)
                     (childrenOf (_id c) cats))) as [ls Hls].
  { apply mapM_is_Some_2, Forall_forall. intros kid Hkid. simpl.
    apply IH; [by eapply childrenOf_subseteq|].
    assert (is_Some (mapM (reify fuel (categoryMap (Utils.buildCategoryTree cats)))
                       (ids (childrenOf (_id c) cats)))) as Hsome by eauto.
    apply mapM_is_Some_1 in Hsome.
    rewrite Forall_forall in Hsome. apply (Hsome (_id kid)).
    by apply list_elem_of_fmap_2. }
  apply mapM_Some in Hls.
  eexists. apply getAllDescendantIds_Some. eauto.
Qed.

Lemma Controller_forest_returns cats fuel :
  unique_ids cats →
  (∀ c, c ∈ cats → parent c = None →
        is_Some (getAllDescendantIds fuel (_id c) cats)) →
  is_Some (reify_forest fuel (Controller.buildCategoryTree cats)).
Proof.
  intros Hu Hall. unfold reify_forest.
  rewrite Controller_map_eq, Controller_buildCategoryTree_roots.
  apply mapM_is_Some_2, Forall_forall.
  intros i (c & -> & [Hp Hc]%list_elem_of_filter)%list_elem_of_fmap. simpl.
  destruct (Hall c Hc Hp) as [l Hl].
  destruct (reify_listing cats fuel c l Hu Hc Hl) as (t & Ht & _). by exists t.
Qed.

(** A root with a chain of [fuel] child links below it is more than the
    serialiser walks with [fuel] nested activations. *)
Lemma Controller_forest_exceeds cats fuel c :
  unique_ids cats → c ∈ cats → parent c = None → has_chain cats fuel (_id c) →
  reify_forest fuel (Controller.buildCategoryTree cats) = None.
Proof.
  intros Hu Hc Hp Hchain.
  destruct (reify_forest fuel (Controller.buildCategoryTree cats)) as [ts|] eqn:E;
    [|done].
  exfalso. unfold reify_forest in E.
  rewrite Controller_map_eq, Controller_buildCategoryTree_roots in E.
  assert (is_Some (mapM (reify fuel (categoryMap (Utils.buildCategoryTree cats)))
                     (ids (filter (λ c, parent c = None) cats)))) as Hsome by eauto.
  apply mapM_is_Some_1 in Hsome. rewrite Forall_forall in Hsome.
  destruct (reify_returns cats fuel c Hu Hc) as [l Hl].
  - apply (Hsome (_id c)). apply list_elem_of_fmap_2. by apply list_elem_of_filter.
  - apply getAllDescendantIds_None in Hchain. congruence.
Qed.

Lemma getAllCategories_run depth db :
  Controller.getAllCategories depth (mkWorld db None)
  = match reify_forest depth (Controller.buildCategoryTree db) with
    | Some body => Returned (Some body) (mkWorld db (Some (mkResponse 200 "")))
    | None =>
      Returned None (mkWorld db (Some (mkResponse 500 "Failed to fetch categories")))
    end.
Proof. unfold_handler. simpl. by destruct (reify_forest _ _). Qed.

End controller_builder.

Lemma resolvedb_sound (cats : Categories) : resolvedb cats = true → resolved cats.
Proof.
  unfold resolvedb. rewrite <- Is_true_true, forallb_True, Forall_forall.
  intros Hall c p Hc Hp. specialize (Hall c Hc). rewrite Hp in Hall.
  by apply bool_decide_unpack in Hall.
Qed.

(** X6. When no record has a dangling parent, the controller's copy of the
    builder returns exactly what the exported helper returns. *)
Theorem controller_builder_agrees (cats : Categories) :
  resolved cats →
  Controller.buildCategoryTree cats = Utils.buildCategoryTree cats.
Proof. apply Controller_buildCategoryTree_agrees. Qed.

Lemma controller_builder_agrees_witness :
  Controller.buildCategoryTree catalog = Utils.buildCategoryTree catalog.
Proof.
  apply (controller_builder_agrees catalog).
  apply resolvedb_sound. vm_compute. reflexivity.
Defined.

(** X7. With unique ids, a record whose parent id is not in the input is in
    no tree of the forest the controller's builder returns: it is dropped
    from the root list and is nested nowhere. *)
Theorem controller_forest_omits_dangling (cats : Categories) (c : ICategory)
    (p : string) (fuel : nat) (forest : list Tree) :
  unique_ids cats → c ∈ cats → parent c = Some p → p ∉ ids cats →
  reify_forest fuel (Controller.buildCategoryTree cats) = Some forest →
  _id c ∉ forest_ids forest.
Proof. apply Controller_forest_omits. Qed.

Lemma controller_forest_omits_dangling_witness :
  _id orphan ∉
  forest_ids [TreeNode (_id electronics) "Electronics" active
                [TreeNode (_id computers) "Computers" active
                   [TreeNode (_id laptops) "Laptops" active
                      [TreeNode (_id gaming) "Gaming Laptops" active []];
                    TreeNode (_id desktops) "Desktops" active []];
                 TreeNode (_id phones) "Phones" active []]].
Proof.
  apply (controller_forest_omits_dangling sample orphan "65a0000000000000000000ff" 8).
  - unfold unique_ids. apply (bool_decide_unpack _). vm_compute. exact I.
  - apply (bool_decide_unpack _). vm_compute. exact I.
  - reflexivity.
  - apply (bool_decide_unpack _). vm_compute. exact I.
  - vm_compute. reflexivity.
Defined.

(** X8. On a store with unique ids, no cycle and no dangling parent, and
    with a stack that holds more nested activations of the serialiser than
    there are categories, the read handler answers 200, leaves the store as
    it is, and the tree it sends shows every stored category exactly once. *)
Theorem getAllCategories_complete (depth : nat) (db : Categories) :
  unique_ids db → acyclic db → resolved db → length db < depth →
  ∃ forest,
    Controller.getAllCategories depth (mkWorld db None)
    = Returned (Some forest) (mkWorld db (Some (mkResponse 200 "")))
    ∧ forest_nodes forest ≡ₚ record_of <$> db.
Proof.
  intros Hu Hacyc Hres Hdepth.
  destruct (Utils_forest_walk db Hu Hacyc) as (forest & Hwalk & Hperm).
  exists forest. split; [|done].
  rewrite getAllCategories_run, (Controller_buildCategoryTree_agrees db Hres).
  by rewrite (Hwalk depth Hdepth).
Qed.

Lemma getAllCategories_complete_witness :
  ∃ forest,
    Controller.getAllCategories 7 (mkWorld catalog None)
    = Returned (Some forest) (mkWorld catalog (Some (mkResponse 200 "")))
    ∧ forest_nodes forest ≡ₚ record_of <$> catalog.
Proof.
  apply (getAllCategories_complete 7 catalog).
  - unfold unique_ids. apply (bool_decide_unpack _). vm_compute. exact I.
  - apply acyclicb_sound. vm_compute. reflexivity.
  - apply resolvedb_sound. vm_compute. reflexivity.
  - vm_compute. lia.
Defined.

(** X28. A hierarchy nested deeper than the serialiser can walk is not
    served: with unique ids, when a root has a chain of as many child links
    below it as the stack holds nested activations, the read handler
    answers 500 "Failed to fetch categories" and sends no tree; the store is
    left as it is. *)
Theorem getAllCategories_too_deep (depth : nat) (db : Categories) (c : ICategory) :
  unique_ids db → c ∈ db → parent c = None → has_chain db depth (_id c) →
  Controller.getAllCategories depth (mkWorld db None)
  = Returned None (mkWorld db (Some (mkResponse 500 "Failed to fetch categories"))).
Proof.
  intros Hu Hc Hp Hchain.
  by rewrite getAllCategories_run, (Controller_forest_exceeds db depth c).
Qed.

Lemma getAllCategories_too_deep_witness :
  Controller.getAllCategories 3 (mkWorld sample None)
  = Returned None (mkWorld sample (Some (mkResponse 500 "Failed to fetch categories"))).
Proof.
  apply (getAllCategories_too_deep 3 sample electronics).
  - unfold unique_ids. apply (bool_decide_unpack _). vm_compute. exact I.
  - apply (bool_decide_unpack _). vm_compute. exact I.
  - reflexivity.
  - apply getAllDescendantIds_None. vm_compute. reflexivity.
Defined.

Lemma lookupById_None id (db : Categories) :
  lookupById id db = None ↔ id ∉ ids db.
Proof.
  unfold lookupById, ids. rewrite head_None. split.
  - intros Hnil (c & -> & Hc)%list_elem_of_fmap.
    assert (c ∈ filter (λ c', _id c' = _id c) db) as Hin
      by (by apply list_elem_of_filter).
    rewrite Hnil in Hin. by apply elem_of_nil in Hin.
  - intros Hnot. destruct (filter _ db) as [|c l] eqn:E; [done|].
    destruct Hnot.
    assert (c ∈ filter (λ c', _id c' = id) db) as [<- Hc]%list_elem_of_filter
      by (rewrite E; left).
    by apply list_elem_of_fmap_2.
Qed.

Section create_handler.
Variable ObjectId_isValid : string → bool.
Variable ObjectId_cast : string → string.
Variable String_trim : string → string.

(** The run of [createCategory] on a request whose parent is well formed
    but unknown, and whose name and status are valid. *)
Lemma createCategory_dangling_run newId body (db : Categories) p n s :
  req_parent body = Some p → p ≠ "" → ObjectId_isValid p = true →
  lookupById (ObjectId_cast p) db = None →
  req_name body = Some n → String_trim n ≠ "" →
  requested_status body = Some s →
  Controller.createCategory ObjectId_isValid ObjectId_cast String_trim newId body
    (mkWorld db None)
  = Thrown ERR_HTTP_HEADERS_SENT
      (mkWorld (db ++ [mkCategory newId (String_trim n) (Some (ObjectId_cast p)) s])
               (Some (mkResponse 400 "Parent category not found"))).
Proof.
  intros Hp Hne Hvalid Hfind Hn Htrim Hs.
  unfold_handler. unfold validate, requested_status in *.
  rewrite Hp, Hn in *. simpl.
  rewrite (bool_decide_eq_true_2 _ Hne). simpl. rewrite Hvalid. simpl.
  rewrite Hfind. simpl.
  rewrite decide_False by done. rewrite Hs. simpl. done.
Qed.

End create_handler.

(** Adding a record with a fresh id, which no record names as parent and
    which does not name itself, creates no cycle. *)
Lemma acyclic_snoc (db : Categories) c :
  acyclic db → (∀ c0, c0 ∈ db → parent c0 ≠ Some (_id c)) →
  parent c ≠ Some (_id c) → acyclic (db ++ [c]).
Proof.
  intros Hacyc Hnokid Hself.
  assert (∀ y, ¬ is_child (db ++ [c]) (_id c) y) as Hleaf.
  { intros y (c0 & [Hc0|Hc0]%elem_of_app & _ & Hp).
    - by apply (Hnokid c0).
    - apply list_elem_of_singleton in Hc0 as ->. done. }
  assert (∀ a b, descendant (db ++ [c]) a b → descendant db a b ∨ b = _id c) as Hold.
  { induction 1 as [a b Hab|a z b Haz Hzb IH].
    - destruct Hab as (c0 & [Hc0|Hc0]%elem_of_app & <- & Hp).
      + left. apply tc_once. by exists c0.
      + apply list_elem_of_singleton in Hc0 as ->. by right.
    - destruct IH as [IH| ->]; [|by right]. left.
      destruct Haz as (c0 & [Hc0|Hc0]%elem_of_app & <- & Hp).
      + eapply tc_l; [by exists c0|done].
      + apply list_elem_of_singleton in Hc0 as ->.
        inversion IH as [? ? (c1 & Hc1 & _ & Hp1)|? ? ? (c1 & Hc1 & _ & Hp1)]; subst;
          by destruct (Hnokid c1 Hc1). }
  intros x Hx. destruct (Hold x x Hx) as [Hd| ->]; [by apply (Hacyc x)|].
  inversion Hx as [? ? H|? ? ? H]; subst; by apply Hleaf in H.
Qed.

(** X9. A category created with a well-formed parent id that denotes no
    stored category is stored (the request is answered 400 all the same)
    and is then invisible to the read handler: in a store with unique ids
    and no cycle, the generated id being fresh, the next [getAllCategories]
    (the stack holding the hierarchy) answers 200 with a tree that does not
    contain the new category. *)
Theorem created_with_unknown_parent_is_hidden
    (ObjectId_isValid : string → bool) (ObjectId_cast : string → string)
    (String_trim : string → string) (depth : nat)
    (newId : string) (body : Body) (db : Categories) (p n : string) (s : Status) :
  unique_ids db → acyclic db →
  newId ∉ ids db → (∀ c, c ∈ db → parent c ≠ Some newId) → newId ≠ ObjectId_cast p →
  req_parent body = Some p → p ≠ "" → ObjectId_isValid p = true →
  lookupById (ObjectId_cast p) db = None →
  req_name body = Some n → String_trim n ≠ "" →
  requested_status body = Some s →
  S (length db) < depth →
  ∃ db1 forest,
    world_of (Controller.createCategory ObjectId_isValid ObjectId_cast String_trim
                newId body (mkWorld db None))
    = Some (mkWorld db1 (Some (mkResponse 400 "Parent category not found")))
    ∧ newId ∈ ids db1
    ∧ Controller.getAllCategories depth (mkWorld db1 None)
      = Returned (Some forest) (mkWorld db1 (Some (mkResponse 200 "")))
    ∧ newId ∉ forest_ids forest.
Proof.
  intros Hu Hacyc Hfresh Hnokid Hnp Hp Hne Hvalid Hfind Hn Htrim Hs Hdepth.
  set (new := mkCategory newId (String_trim n) (Some (ObjectId_cast p)) s).
  assert (unique_ids (db ++ [new])) as Hu1.
  { unfold unique_ids, ids. rewrite fmap_app. apply NoDup_app.
    split; [exact Hu|]. split; [|apply NoDup_singleton].
    intros i Hi [->|[]%elem_of_nil]%elem_of_cons. done. }
  assert (acyclic (db ++ [new])) as Hacyc1.
  { apply acyclic_snoc; [done|done|]. simpl. congruence. }
  destruct (Controller_forest_returns (db ++ [new]) depth Hu1) as [forest Hwalk].
  { intros c Hc _.
    destruct (getAllDescendantIds_total (db ++ [new]) (_id c) Hacyc1) as [l Hl].
    exists l. eapply getAllDescendantIds_mono; [exact Hl|].
    rewrite length_app. simpl. lia. }
  exists (db ++ [new]), forest.
  split; [|split; [|split]].
  - by rewrite (createCategory_dangling_run _ _ _ newId body db p n s).
  - unfold ids. rewrite fmap_app. apply elem_of_app. right. simpl. left.
  - by rewrite getAllCategories_run, Hwalk.
  - apply (Controller_forest_omits (db ++ [new]) new (ObjectId_cast p) depth forest);
      try done.
    + apply elem_of_app. right. left.
    + unfold ids. rewrite fmap_app. intros [Hin|Hin]%elem_of_app.
      * by apply lookupById_None in Hfind.
      * simpl in Hin. apply list_elem_of_singleton in Hin. congruence.
Qed.

Lemma created_with_unknown_parent_is_hidden_witness :
  ∃ db1 forest,
    world_of (Controller.createCategory hex24 lower_hex trim_ascii
                "65a000000000000000000008"
                (mkBody (Some " Tablets ") (Some "65A0000000000000000000FF") None)
                (mkWorld catalog None))
    = Some (mkWorld db1 (Some (mkResponse 400 "Parent category not found")))
    ∧ "65a000000000000000000008" ∈ ids db1
    ∧ Controller.getAllCategories 8 (mkWorld db1 None)
      = Returned (Some forest) (mkWorld db1 (Some (mkResponse 200 "")))
    ∧ "65a000000000000000000008" ∉ forest_ids forest.
Proof.
  apply (created_with_unknown_parent_is_hidden hex24 lower_hex trim_ascii 8
           "65a000000000000000000008"
           (mkBody (Some " Tablets ") (Some "65A0000000000000000000FF") None)
           catalog "65A0000000000000000000FF" " Tablets " active).
  - unfold unique_ids. apply (bool_decide_unpack _). vm_compute. exact I.
  - apply acyclicb_sound. vm_compute. reflexivity.
  - apply (bool_decide_unpack _). vm_compute. exact I.
  - apply Forall_forall. apply (bool_decide_unpack _). vm_compute. exact I.
  - apply (bool_decide_unpack _). vm_compute. exact I.
  - reflexivity.
  - apply (bool_decide_unpack _). vm_compute. exact I.
  - vm_compute. reflexivity.
  - vm_compute. reflexivity.
  - reflexivity.
  - apply (bool_decide_unpack _). vm_compute. exact I.
  - vm_compute. reflexivity.
  - vm_compute. lia.
Defined.

(** * More on the status cascade *)

Section cascade_results.
Context (st : Status).
Implicit Types db : Categories.

Lemma set_status_same c : status c = st → set_status st c = c.
Proof. intros <-. by destruct c. Qed.

(** Overwriting statuses that are already [st] changes nothing. *)
Lemma touched_noop (P : string → Prop) db db' :
  Forall2 (touched st P) db db' →
  (∀ c, c ∈ db → P (_id c) → status c = st) → db' = db.
Proof.
  induction 1 as [|c c' l l' Hc _ IH]; intros Hall; [done|]. f_equal.
  - destruct Hc as [->|[HP ->]]; [done|].
    apply set_status_same, Hall; [left|done].
  - apply IH. intros c0 H0. apply Hall. by right.
Qed.

Lemma cascade_from_mark fuel x db db' l :
  unique_ids db →
  cascade_from fuel x st db = Some db' →
  getAllDescendantIds fuel x db = Some l →
  db' = mark l st db.
Proof.
  intros Hu Hrun Hl.
  pose proof (cascade_from_touched _ _ _ _ _ Hrun) as Ht.
  apply list_eq. intros i. unfold mark. rewrite list_lookup_fmap.
  destruct (db !! i) as [c|] eqn:Hi; simpl.
  - destruct (Forall2_lookup_l _ _ _ _ _ Ht Hi) as (c' & Hi' & Hc). rewrite Hi'.
    f_equal. destruct (decide (_id c ∈ l)) as [Hin|Hin].
    + apply (getAllDescendantIds_elem_of _ _ _ _ _ Hl) in Hin.
      destruct Hc as [->|[_ ->]]; [|done].
      symmetry. apply set_status_same.
      eapply (cascade_from_descendants st); [done..| |done].
      by eapply list_elem_of_lookup_2.
    + destruct Hc as [->|[Hd _]]; [done|].
      by apply (getAllDescendantIds_elem_of _ _ _ _ _ Hl) in Hd.
  - apply lookup_ge_None. apply lookup_ge_None in Hi.
    by rewrite (touched_length _ _ _ _ Ht).
Qed.

End cascade_results.

Section cascade_rec.
Variable ObjectId_isValid : string → bool.
Variable ObjectId_cast : string → string.
Context (st : Status).
Implicit Types db : Categories.

Lemma cascade_rec_loop_stop fuel (kids : Categories) o :
  (∀ db, o ≠ Some (inr db)) →
  foldl (λ acc child,
           match acc with
           | Some (inr db) =>
             updateDescendantStatus_rec ObjectId_isValid ObjectId_cast fuel
               (_id child) st db
           | _ => acc
           end) o kids = o.
Proof.
  intros Ho. induction kids as [|kid kids IH]; [done|]. simpl.
  destruct o as [[e|db]|]; [done| |done]. by destruct (Ho db).
Qed.

Lemma updateDescendantStatus_rec_agrees_run fuel x db :
  object_ids ObjectId_isValid ObjectId_cast db →
  updateDescendantStatus_rec ObjectId_isValid ObjectId_cast fuel x st db
  = updateDescendantStatus ObjectId_isValid ObjectId_cast fuel x st db.
Proof.
  revert x db. induction fuel as [|fuel IH]; intros x db Hdb; [done|].
  unfold updateDescendantStatus. cbn [updateDescendantStatus_rec].
  destruct (ObjectId_isValid x) eqn:Hx; [|done].
  rewrite cascade_from_S.
  assert (∀ kid, kid ∈ childrenOf (ObjectId_cast x) db →
            ObjectId_isValid (_id kid) = true ∧ ObjectId_cast (_id kid) = _id kid)
    as Hkids.
  { intros kid [_ Hkid]%list_elem_of_filter. apply Hdb. by apply list_elem_of_fmap_2. }
  set (kids := childrenOf (ObjectId_cast x) db) in *.
  set (db1 := bulkWrite ((λ child, mkUpdateOne (_id child) (SetStatus st)) <$> kids) db).
  assert (ids db1 = ids db) as Hids1.
  { eapply same_graph_ids, (touched_same_graph st (λ _, True)), bulkWrite_touched.
    done. }
  case_decide as Hlen.
  2:{ destruct kids; [done|simpl in Hlen; lia]. }
  clearbody db1 kids. clear Hlen. revert db1 Hids1.
  induction kids as [|kid kids IHk]; intros db1 Hids1; [done|]. simpl.
  destruct (Hkids kid) as [Hv Hc]; [left|].
  rewrite IH by (unfold object_ids; by rewrite Hids1).
  rewrite updateDescendantStatus_valid, Hc by done.
  destruct (cascade_from fuel (_id kid) st db1) as [db2|] eqn:Hrun; simpl.
  - apply IHk.
    + intros k Hk. apply Hkids. by right.
    + by rewrite (same_graph_ids _ _ (cascade_from_same_graph _ _ _ _ _ Hrun)).
  - rewrite cascade_loop_None. by apply cascade_rec_loop_stop.
Qed.

End cascade_rec.

(** X10. Whatever it is started on, the cascade writes status fields only:
    the store keeps its length, and at every position the id, the name and
    the parent are as before and the status is the old one or the given one. *)
Theorem cascade_only_writes_status
    (ObjectId_isValid : string → bool) (ObjectId_cast : string → string)
    (db db' : Categories) (x : string) (st : Status) (fuel : nat) :
  updateDescendantStatus ObjectId_isValid ObjectId_cast fuel x st db = Some (inr db') →
  length db' = length db
  ∧ ∀ i c', db' !! i = Some c' →
      ∃ c, db !! i = Some c ∧ _id c' = _id c ∧ name c' = name c
           ∧ parent c' = parent c ∧ (status c' = status c ∨ status c' = st).
Proof.
  intros [_ Hrun]%updateDescendantStatus_returns.
  pose proof (cascade_from_touched _ _ _ _ _ Hrun) as Ht.
  split; [by eapply touched_length|].
  intros i c' Hi'.
  destruct (Forall2_lookup_r _ _ _ _ _ Ht Hi') as (c & Hi & [->|[_ ->]]);
    exists c; simpl; auto 10.
Qed.

Lemma cascade_only_writes_status_witness :
  length [electronics; computers; set_status inactive laptops;
          set_status inactive desktops; set_status inactive gaming; phones; orphan]
  = length sample
  ∧ ∀ i c', [electronics; computers; set_status inactive laptops;
             set_status inactive desktops; set_status inactive gaming; phones; orphan]
            !! i = Some c' →
      ∃ c, sample !! i = Some c ∧ _id c' = _id c ∧ name c' = name c
           ∧ parent c' = parent c ∧ (status c' = status c ∨ status c' = inactive).
Proof.
  apply (cascade_only_writes_status hex24 lower_hex sample _
           "65A000000000000000000002" inactive 8).
  vm_compute. reflexivity.
Defined.

(** X11. With unique ids the store-backed cascade and the descendant-id
    listing compute the same subtree: for every bound, the cascade from a
    string that casts returns exactly when the listing from the id it
    denotes does, and its result is the store with the listed ids set to
    the given status and nothing else changed. *)
Theorem cascade_marks_the_listing
    (ObjectId_isValid : string → bool) (ObjectId_cast : string → string)
    (db : Categories) (x : string) (st : Status) (fuel : nat) :
  unique_ids db → ObjectId_isValid x = true →
  updateDescendantStatus ObjectId_isValid ObjectId_cast fuel x st db
  = (λ l, inr (mark l st db)) <$> getAllDescendantIds fuel (ObjectId_cast x) db.
Proof.
  intros Hu Hx. rewrite updateDescendantStatus_valid by done.
  destruct (getAllDescendantIds fuel (ObjectId_cast x) db) as [l|] eqn:Hl; simpl.
  - destruct (cascade_from fuel (ObjectId_cast x) st db) as [db'|] eqn:Hrun.
    + simpl. do 2 f_equal. by eapply cascade_from_mark.
    + apply cascade_from_None, getAllDescendantIds_None in Hrun.
      congruence.
  - assert (cascade_from fuel (ObjectId_cast x) st db = None) as ->; [|done].
    by apply cascade_from_None, getAllDescendantIds_None.
Qed.

Lemma cascade_marks_the_listing_witness :
  updateDescendantStatus hex24 lower_hex 8 "65A000000000000000000002" inactive sample
  = (λ l, inr (mark l inactive sample))
      <$> getAllDescendantIds 8 (lower_hex "65A000000000000000000002") sample.
Proof.
  apply (cascade_marks_the_listing hex24 lower_hex sample
           "65A000000000000000000002" inactive 8).
  - unfold unique_ids. apply (bool_decide_unpack _). vm_compute. exact I.
  - vm_compute. reflexivity.
Defined.

(** X12. With unique ids the cascade is idempotent: run again on its own
    result, with the same id and status, it returns that result unchanged. *)
Theorem cascade_idempotent
    (ObjectId_isValid : string → bool) (ObjectId_cast : string → string)
    (db db' : Categories) (x : string) (st : Status) (fuel : nat) :
  unique_ids db →
  updateDescendantStatus ObjectId_isValid ObjectId_cast fuel x st db = Some (inr db') →
  updateDescendantStatus ObjectId_isValid ObjectId_cast fuel x st db' = Some (inr db').
Proof.
  intros Hu [Hx Hrun]%updateDescendantStatus_returns.
  apply updateDescendantStatus_returns. split; [done|].
  pose proof (cascade_from_same_graph _ _ _ _ _ Hrun) as Hsg.
  destruct (cascade_from fuel (ObjectId_cast x) st db') as [db''|] eqn:Hrun'.
  - f_equal.
    apply (touched_noop st (descendant db' (ObjectId_cast x)));
      [by eapply cascade_from_touched|].
    intros c Hc Hd.
    eapply (cascade_from_descendants st); [exact Hu|exact Hrun|done|].
    by apply (same_graph_descendant db db').
  - apply cascade_from_None in Hrun'.
    apply (same_graph_has_chain _ _ _ _ Hsg) in Hrun'.
    apply (cascade_from_None st) in Hrun'.
    rewrite Hrun in Hrun'. done.
Qed.

Lemma cascade_idempotent_witness :
  updateDescendantStatus hex24 lower_hex 8 "65A000000000000000000002" inactive
    [electronics; computers; set_status inactive laptops;
     set_status inactive desktops; set_status inactive gaming; phones; orphan]
  = Some (inr [electronics; computers; set_status inactive laptops;
               set_status inactive desktops; set_status inactive gaming; phones;
               orphan]).
Proof.
  apply (cascade_idempotent hex24 lower_hex sample _
           "65A000000000000000000002" inactive 8).
  - unfold unique_ids. apply (bool_decide_unpack _). vm_compute. exact I.
  - vm_compute. reflexivity.
Defined.

(** X29. The casts of the recursive calls change nothing: on a store whose
    ids are [ObjectId]s (well formed, casting back to themselves), the
    cascade with the cast written in the query of every call computes, for
    every string and every bound, what the cascade that casts the string of
    the outermost call only computes: the same store, the same error, or
    the same excess over the bound. *)
Theorem cascade_casts_once
    (ObjectId_isValid : string → bool) (ObjectId_cast : string → string)
    (db : Categories) (x : string) (st : Status) (fuel : nat) :
  object_ids ObjectId_isValid ObjectId_cast db →
  updateDescendantStatus_rec ObjectId_isValid ObjectId_cast fuel x st db
  = updateDescendantStatus ObjectId_isValid ObjectId_cast fuel x st db.
Proof. apply updateDescendantStatus_rec_agrees_run. Qed.

Lemma cascade_casts_once_witness :
  updateDescendantStatus_rec hex24 lower_hex 8 "65A000000000000000000001" inactive sample
  = updateDescendantStatus hex24 lower_hex 8 "65A000000000000000000001" inactive sample.
Proof.
  apply (cascade_casts_once hex24 lower_hex sample "65A000000000000000000001"
           inactive 8).
  unfold object_ids. apply Forall_forall.
  apply (bool_decide_unpack _). vm_compute. exact I.
Defined.

(** * More on the update handler *)

Lemma updateOne_same_graph id (f : ICategory → ICategory) (db : Categories) :
  (∀ c, _id (f c) = _id c ∧ parent (f c) = parent c) →
  same_graph db (updateOne id f db).
Proof.
  intros Hf. unfold same_graph. induction db as [|c db IH]; simpl; [constructor|].
  case_decide.
  - constructor; [apply Hf|apply same_graph_refl].
  - constructor; [done|apply IH].
Qed.

Lemma lookupById_unique (db : Categories) c :
  unique_ids db → c ∈ db → lookupById (_id c) db = Some c.
Proof.
  intros Hu Hc. destruct (lookupById (_id c) db) as [c'|] eqn:E.
  - apply lookupById_Some in E as [Hc' Hid].
    f_equal. by eapply unique_ids_inj.
  - apply lookupById_None in E. destruct E. by apply list_elem_of_fmap_2.
Qed.

Section update_results.
Variable ObjectId_isValid : string → bool.
Variable ObjectId_cast : string → string.
Variable String_trim : string → string.

Lemma updateCategory_same_graph fuel id body w w' :
  world_of (Controller.updateCategory ObjectId_isValid ObjectId_cast String_trim fuel id body w)
  = Some w' →
  same_graph (collection w) (collection w').
Proof.
  destruct w as [db r]. simpl. unfold_handler.
  destruct (ObjectId_isValid id) eqn:Hvalid; simpl.
  2:{ destruct r; simpl; intros [= <-]; apply same_graph_refl. }
  destruct (lookupById (ObjectId_cast id) db) as [c|] eqn:Hfind; simpl.
  2:{ destruct r; simpl; intros [= <-]; apply same_graph_refl. }
  destruct (truthy (req_status body) && _ && _); simpl.
  - rewrite updateDescendantStatus_valid by done.
    destruct (cascade_from fuel (ObjectId_cast id) inactive db) as [db1|] eqn:Hrun;
      simpl; [|done].
    apply cascade_from_same_graph in Hrun.
    destruct (validate _) as [c0|]; simpl; destruct r; simpl; intros [= <-]; simpl;
      try done.
    all: eapply same_graph_trans; [done|]; by apply updateOne_same_graph.
  - destruct (truthy (req_status body)); simpl;
      destruct (validate _) as [c0|]; simpl; destruct r; simpl; intros [= <-]; simpl;
      try apply same_graph_refl; by apply updateOne_same_graph.
Qed.

Lemma updateCategory_rejects_run fuel id body (db : Categories) :
  ObjectId_isValid id = false ∨ lookupById (ObjectId_cast id) db = None →
  Controller.updateCategory ObjectId_isValid ObjectId_cast String_trim fuel id body (mkWorld db None)
  = Returned ()
      (mkWorld db (Some (if ObjectId_isValid id
                         then mkResponse 404 "Category not found"
                         else mkResponse 400 "Invalid category ID"))).
Proof.
  intros Hcase. unfold_handler.
  destruct (ObjectId_isValid id); simpl; [|done].
  destruct Hcase as [Hf|Hnone]; [done|]. by rewrite Hnone.
Qed.

(** Deactivation with an empty or blank new name: the cascade has run when
    [save()] rejects the document. *)
Lemma updateCategory_blank_name_run fuel id body (db db' : Categories) c n :
  ObjectId_isValid id = true → lookupById (ObjectId_cast id) db = Some c →
  status c = active →
  req_name body = Some n → n ≠ "" → String_trim n = "" →
  req_status body = Some "inactive" →
  cascade_from fuel (ObjectId_cast id) inactive db = Some db' →
  Controller.updateCategory ObjectId_isValid ObjectId_cast String_trim fuel id body (mkWorld db None)
  = Returned () (mkWorld db' (Some (mkResponse 500 "Failed to update category"))).
Proof.
  intros Hvalid Hfind Hst Hn Hne Htrim Hs Hrun.
  unfold_handler. unfold validate.
  rewrite Hvalid. simpl. rewrite Hfind, Hn, Hs. simpl. rewrite Hst. simpl.
  rewrite (bool_decide_eq_true_2 _ Hne). simpl.
  rewrite updateDescendantStatus_valid by done.
  rewrite Hrun. simpl. rewrite Htrim. simpl. done.
Qed.

Lemma cascade_from_run (st : Status) fuel x (db : Categories) l :
  unique_ids db → getAllDescendantIds fuel x db = Some l →
  cascade_from fuel x st db = Some (mark l st db).
Proof.
  intros Hu Hl.
  destruct (cascade_from fuel x st db) as [db'|] eqn:Hrun.
  - f_equal. by eapply cascade_from_mark.
  - apply cascade_from_None, getAllDescendantIds_None in Hrun. congruence.
Qed.

Lemma mark_ids D st (db : Categories) : ids (mark D st db) = ids db.
Proof. apply fmap_preserves_ids. intros c. by case_decide. Qed.

(** Writing the own status after the cascade marks the whole subtree. *)
Lemma mark_then_own id l (db : Categories) c :
  unique_ids db → c ∈ db → _id c = id → id ∉ l →
  updateOne id (set_name_status (name c) inactive) (mark l inactive db)
  = mark (id :: l) inactive db.
Proof.
  intros Hu Hc Hid Hnot.
  rewrite updateOne_map by (unfold unique_ids; by rewrite mark_ids).
  unfold mark. rewrite <- list_fmap_compose.
  apply Forall_fmap_ext_1, Forall_forall. intros c0 Hc0. simpl.
  destruct (decide (_id c0 ∈ l)) as [Hin|Hin]; simpl.
  - rewrite (decide_True (P := _id c0 ∈ id :: l)) by (by right).
    rewrite decide_False; [done|]. intros Hid0. apply Hnot. by rewrite <- Hid0.
  - destruct (decide (_id c0 = id)) as [Hid0|Hne].
    + assert (c0 = c) as -> by (eapply unique_ids_inj; eauto; congruence).
      by rewrite decide_True by (rewrite Hid; left).
    + rewrite decide_False; [done|]. by intros [?|?]%elem_of_cons.
Qed.

End update_results.

Lemma same_graph_acyclic (db db' : Categories) :
  same_graph db db' → acyclic db → acyclic db'.
Proof.
  intros Hsg Hacyc x Hx. apply (Hacyc x). by apply (same_graph_descendant db db').
Qed.

(** X13. An update never moves or renumbers a category: whenever the handler
    ends, whatever the request, the store holds at each position a record
    with the same id and the same parent as before; so unique ids and
    acyclicity are kept. *)
Theorem updateCategory_keeps_graph
    (ObjectId_isValid : string → bool) (ObjectId_cast : string → string)
    (String_trim : string → string)
    (fuel : nat) (id : string) (body : Body) (w w' : World) :
  world_of (Controller.updateCategory ObjectId_isValid ObjectId_cast String_trim fuel id body w)
  = Some w' →
  same_graph (collection w) (collection w')
  ∧ (unique_ids (collection w) → unique_ids (collection w'))
  ∧ (acyclic (collection w) → acyclic (collection w')).
Proof.
  intros Hend.
  pose proof (updateCategory_same_graph _ _ _ _ _ _ _ _ Hend) as Hsg.
  split; [done|]. split.
  - unfold unique_ids. by rewrite (same_graph_ids _ _ Hsg).
  - by apply same_graph_acyclic.
Qed.

Lemma updateCategory_keeps_graph_witness :
  same_graph (collection (mkWorld sample None))
    (collection (mkWorld (mark [_id computers; _id laptops; _id gaming; _id desktops]
                               inactive sample)
                         (Some (mkResponse 200 "Category updated successfully"))))
  ∧ (unique_ids (collection (mkWorld sample None)) →
     unique_ids (collection
       (mkWorld (mark [_id computers; _id laptops; _id gaming; _id desktops]
                      inactive sample)
                (Some (mkResponse 200 "Category updated successfully")))))
  ∧ (acyclic (collection (mkWorld sample None)) →
     acyclic (collection
       (mkWorld (mark [_id computers; _id laptops; _id gaming; _id desktops]
                      inactive sample)
                (Some (mkResponse 200 "Category updated successfully"))))).
Proof.
  apply (updateCategory_keeps_graph hex24 lower_hex trim_ascii 8 (_id computers)
           (mkBody None None (Some "inactive")) (mkWorld sample None)).
  vm_compute. reflexivity.
Defined.

(** X14. Deactivating an active category of a store with unique ids and no
    cycle answers 200 and leaves the store with exactly the category and the
    ids of its descendant listing set to inactive, everything else
    unchanged. *)
Theorem deactivate_marks_subtree
    (ObjectId_isValid : string → bool) (ObjectId_cast : string → string)
    (String_trim : string → string)
    (fuel : nat) (id : string) (db : Categories) (c : ICategory) :
  unique_ids db → acyclic db →
  ObjectId_isValid id = true → lookupById (ObjectId_cast id) db = Some c →
  status c = active → name c ≠ "" → length db < fuel →
  ∃ l, getAllDescendantIds fuel (ObjectId_cast id) db = Some l
       ∧ Controller.updateCategory ObjectId_isValid ObjectId_cast String_trim fuel id
           (mkBody None None (Some "inactive")) (mkWorld db None)
         = Returned ()
             (mkWorld (mark (ObjectId_cast id :: l) inactive db)
                      (Some (mkResponse 200 "Category updated successfully"))).
Proof.
  intros Hu Hacyc Hvalid Hfind Hst Hname Hfuel.
  destruct (getAllDescendantIds_total db (ObjectId_cast id) Hacyc) as [l Hl].
  apply (getAllDescendantIds_mono _ _ fuel) in Hl; [|lia].
  exists l. split; [done|].
  destruct (lookupById_Some _ _ _ Hfind) as [Hc Hid].
  rewrite (updateCategory_deactivate _ _ _ fuel id db (mark l inactive db) c);
    try done.
  - rewrite (mark_then_own (ObjectId_cast id) l db c); try done.
    rewrite (getAllDescendantIds_elem_of _ _ _ _ _ Hl). apply Hacyc.
  - by apply cascade_from_run.
Qed.

Lemma deactivate_marks_subtree_witness :
  ∃ l, getAllDescendantIds 8 (lower_hex "65A000000000000000000002") sample = Some l
       ∧ Controller.updateCategory hex24 lower_hex trim_ascii 8
           "65A000000000000000000002"
           (mkBody None None (Some "inactive")) (mkWorld sample None)
         = Returned ()
             (mkWorld (mark (lower_hex "65A000000000000000000002" :: l) inactive sample)
                      (Some (mkResponse 200 "Category updated successfully"))).
Proof.
  apply (deactivate_marks_subtree hex24 lower_hex trim_ascii 8
           "65A000000000000000000002" sample computers).
  - unfold unique_ids. apply (bool_decide_unpack _). vm_compute. exact I.
  - apply acyclicb_sound. vm_compute. reflexivity.
  - vm_compute. reflexivity.
  - vm_compute. reflexivity.
  - reflexivity.
  - apply (bool_decide_unpack _). vm_compute. exact I.
  - vm_compute. lia.
Defined.

(** X15. An update with a malformed id is answered 400, one with a
    well-formed id that denotes no stored category 404; in both cases the
    store is left unchanged and the cascade is not entered. *)
Theorem updateCategory_rejects
    (ObjectId_isValid : string → bool) (ObjectId_cast : string → string)
    (String_trim : string → string)
    (fuel : nat) (id : string) (body : Body) (db : Categories) :
  ObjectId_isValid id = false ∨ lookupById (ObjectId_cast id) db = None →
  Controller.updateCategory ObjectId_isValid ObjectId_cast String_trim fuel id body
    (mkWorld db None)
  = Returned ()
      (mkWorld db (Some (if ObjectId_isValid id
                         then mkResponse 404 "Category not found"
                         else mkResponse 400 "Invalid category ID"))).
Proof. apply updateCategory_rejects_run. Qed.

Lemma updateCategory_rejects_witness :
  Controller.updateCategory hex24 lower_hex trim_ascii 0 "65A0000000000000000000FF"
    (mkBody (Some "Renamed") None (Some "inactive")) (mkWorld sample None)
  = Returned ()
      (mkWorld sample (Some (if hex24 "65A0000000000000000000FF"
                             then mkResponse 404 "Category not found"
                             else mkResponse 400 "Invalid category ID"))).
Proof.
  apply (updateCategory_rejects hex24 lower_hex trim_ascii 0 "65A0000000000000000000FF"
           (mkBody (Some "Renamed") None (Some "inactive")) sample).
  right. vm_compute. reflexivity.
Defined.

(** X16. The update is not atomic: a request that deactivates an active
    category and renames it to a blank name (non-empty, empty once trimmed)
    is answered 500, the category itself is left as it was, still active,
    and yet all its descendants have been set to inactive. *)
Theorem failed_update_keeps_cascade
    (ObjectId_isValid : string → bool) (ObjectId_cast : string → string)
    (String_trim : string → string)
    (fuel : nat) (id : string) (body : Body) (db : Categories) (c : ICategory)
    (n : string) :
  unique_ids db → acyclic db →
  ObjectId_isValid id = true → lookupById (ObjectId_cast id) db = Some c →
  status c = active →
  req_name body = Some n → n ≠ "" → String_trim n = "" →
  req_status body = Some "inactive" → length db < fuel →
  ∃ db',
    Controller.updateCategory ObjectId_isValid ObjectId_cast String_trim fuel id body
      (mkWorld db None)
    = Returned () (mkWorld db' (Some (mkResponse 500 "Failed to update category")))
    ∧ lookupById (ObjectId_cast id) db' = Some c
    ∧ ∀ c', c' ∈ db' → descendant db (ObjectId_cast id) (_id c') →
            status c' = inactive.
Proof.
  intros Hu Hacyc Hvalid Hfind Hst Hn Hne Htrim Hs Hfuel.
  destruct (getAllDescendantIds_total db (ObjectId_cast id) Hacyc) as [l Hl].
  apply (getAllDescendantIds_mono _ _ fuel) in Hl; [|lia].
  pose proof (cascade_from_run inactive fuel (ObjectId_cast id) db l Hu Hl) as Hrun.
  destruct (lookupById_Some _ _ _ Hfind) as [Hc Hid].
  exists (mark l inactive db). split; [|split].
  - by eapply updateCategory_blank_name_run.
  - rewrite <- Hid. apply lookupById_unique.
    + unfold unique_ids. by rewrite mark_ids.
    + apply list_elem_of_fmap. exists c. split; [|done].
      rewrite decide_False; [done|].
      rewrite Hid, (getAllDescendantIds_elem_of _ _ _ _ _ Hl). apply Hacyc.
  - intros c'. by eapply cascade_from_descendants.
Qed.

Lemma failed_update_keeps_cascade_witness :
  ∃ db',
    Controller.updateCategory hex24 lower_hex trim_ascii 8 "65A000000000000000000002"
      (mkBody (Some "  ") None (Some "inactive")) (mkWorld sample None)
    = Returned () (mkWorld db' (Some (mkResponse 500 "Failed to update category")))
    ∧ lookupById (lower_hex "65A000000000000000000002") db' = Some computers
    ∧ ∀ c', c' ∈ db' →
            descendant sample (lower_hex "65A000000000000000000002") (_id c') →
            status c' = inactive.
Proof.
  apply (failed_update_keeps_cascade hex24 lower_hex trim_ascii 8
           "65A000000000000000000002"
           (mkBody (Some "  ") None (Some "inactive")) sample computers "  ").
  - unfold unique_ids. apply (bool_decide_unpack _). vm_compute. exact I.
  - apply acyclicb_sound. vm_compute. reflexivity.
  - vm_compute. reflexivity.
  - vm_compute. reflexivity.
  - reflexivity.
  - reflexivity.
  - apply (bool_decide_unpack _). vm_compute. exact I.
  - vm_compute. reflexivity.
  - reflexivity.
  - vm_compute. lia.
Defined.

(** * More on delete-and-reparent *)

Section delete_results.
Context (db : Categories) (id : string) (target : ICategory).
Context (Hu : unique_ids db) (Htarget : target ∈ db) (Hid : _id target = id).

Lemma after_delete_ids :
  ids (after_delete id target db) = filter (λ i, i ≠ id) (ids db).
Proof using Type.
  unfold after_delete. rewrite fmap_preserves_ids by auto using promote_id.
  clear. unfold ids. induction db as [|c l IH]; [done|].
  rewrite fmap_cons, !filter_cons.
  case_decide; [rewrite fmap_cons|]; by rewrite IH.
Qed.

Lemma after_delete_unique : unique_ids (after_delete id target db).
Proof using Hu.
  unfold unique_ids. rewrite after_delete_ids. by apply NoDup_filter.
Qed.

Lemma after_delete_elem_of c' :
  c' ∈ after_delete id target db ↔
  ∃ c, c ∈ db ∧ _id c ≠ id ∧ c' = promote id (parent target) c.
Proof using Type.
  unfold after_delete. rewrite list_elem_of_fmap. split.
  - intros (c & -> & [? ?]%list_elem_of_filter). eauto.
  - intros (c & ? & ? & ->). exists c. split; [done|]. by apply list_elem_of_filter.
Qed.

(** A child link of the new store is a child link of the old one, or skips
    the deleted record. *)
Lemma after_delete_is_child p c :
  is_child (after_delete id target db) p c → descendant db p c.
Proof using Htarget Hid.
  intros (c' & (c0 & Hc0 & Hne & ->)%after_delete_elem_of & <- & Hp).
  rewrite promote_id. unfold promote in Hp.
  destruct (decide (parent c0 = Some id)) as [Hkid|Hother]; simpl in Hp.
  - eapply tc_l; [by exists target|]. apply tc_once. by exists c0.
  - apply tc_once. by exists c0.
Qed.

Lemma after_delete_descendant a y :
  descendant (after_delete id target db) a y → descendant db a y.
Proof using Htarget Hid.
  induction 1 as [a y H|a z y H _ IH].
  - by apply after_delete_is_child.
  - eapply tc_trans; [by apply after_delete_is_child|done].
Qed.

Lemma after_delete_acyclic : acyclic db → acyclic (after_delete id target db).
Proof using Htarget Hid.
  intros Hacyc x Hx. apply (Hacyc x). by apply after_delete_descendant.
Qed.

Lemma after_delete_resolved :
  acyclic db → resolved db → resolved (after_delete id target db).
Proof using Htarget Hid.
  intros Hacyc Hres c' q (c0 & Hc0 & Hne & ->)%after_delete_elem_of Hq.
  rewrite after_delete_ids. apply list_elem_of_filter.
  unfold promote in Hq.
  destruct (decide (parent c0 = Some id)) as [Hkid|Hother]; simpl in Hq.
  - split; [|exact (Hres target q Htarget Hq)].
    intros ->. apply (Hacyc id), tc_once. by exists target.
  - split; [congruence|exact (Hres c0 q Hc0 Hq)].
Qed.

(** A survivor keeps its place below a surviving ancestor. *)
Lemma after_delete_descendant_back a y :
  acyclic db → a ≠ id → descendant db a y →
  (y ≠ id → descendant (after_delete id target db) a y)
  ∧ (y = id → ∃ q, parent target = Some q
                   ∧ (a = q ∨ descendant (after_delete id target db) a q)).
Proof using Hu Htarget Hid.
  intros Hacyc Ha. revert y.
  assert (∀ p c0, c0 ∈ db → _id c0 ≠ id → parent c0 = Some p → p ≠ id →
            is_child (after_delete id target db) p (_id c0)) as Hkeep.
  { intros p c0 Hc0 Hne Hp Hpid. exists c0. split; [|done].
    apply after_delete_elem_of. exists c0. split; [done|]. split; [done|].
    unfold promote. rewrite decide_False; [done|]. congruence. }
  apply tc_ind_r.
  - intros y (c0 & Hc0 & <- & Hp). split.
    + intros Hne. apply tc_once. by apply Hkeep.
    + intros Heq. assert (c0 = target) as -> by (eapply unique_ids_inj; eauto; congruence).
      exists a. split; [done|by left].
  - intros z y Haz (c0 & Hc0 & <- & Hp) [IHne IHeq]. split.
    + intros Hne. destruct (decide (z = id)) as [->|Hz].
      * destruct (IHeq eq_refl) as (q & Hq & Haq).
        assert (is_child (after_delete id target db) q (_id c0)) as Hstep.
        { exists (promote id (parent target) c0). split; [|split].
          - apply after_delete_elem_of. eauto.
          - apply promote_id.
          - unfold promote. by rewrite decide_True. }
        destruct Haq as [->|Haq]; [by apply tc_once|by eapply tc_r].
      * eapply tc_r; [by apply IHne|]. by apply Hkeep.
    + intros Heq. assert (c0 = target) as -> by (eapply unique_ids_inj; eauto; congruence).
      exists z. split; [done|]. right. apply IHne.
      intros ->. apply (Hacyc id), tc_once. by exists target.
Qed.

End delete_results.

Section delete_runs.
Variable ObjectId_isValid : string → bool.
Variable ObjectId_cast : string → string.

Lemma deleteCategory_result id (db : Categories) target :
  unique_ids db → ObjectId_isValid id = true →
  lookupById (ObjectId_cast id) db = Some target →
  Controller.deleteCategory ObjectId_isValid ObjectId_cast id (mkWorld db None)
  = Returned ()
      (mkWorld (after_delete (ObjectId_cast id) target db)
         (Some (mkResponse 200
                  "Category deleted successfully and subcategories reassigned"))).
Proof.
  intros Hu Hvalid Hfind.
  rewrite (deleteCategory_run _ _ id (ObjectId_cast id) db target) by done.
  rewrite bulkWrite_promote by done.
  rewrite deleteById_filter
    by (unfold unique_ids; rewrite fmap_preserves_ids; auto using promote_id).
  do 2 f_equal. unfold after_delete. clear.
  induction db as [|c l IH]; [done|].
  rewrite fmap_cons, !filter_cons, promote_id.
  case_decide; [rewrite fmap_cons|]; by rewrite IH.
Qed.

Lemma deleteCategory_rejects_run id (db : Categories) :
  ObjectId_isValid id = false ∨ lookupById (ObjectId_cast id) db = None →
  world_of (Controller.deleteCategory ObjectId_isValid ObjectId_cast id
              (mkWorld db None))
  = Some (mkWorld db (Some (if ObjectId_isValid id
                            then mkResponse 404 "Category not found"
                            else mkResponse 400 "Invalid category ID"))).
Proof.
  intros Hcase. unfold_handler.
  destruct (ObjectId_isValid id); simpl; [|done].
  destruct Hcase as [Hf|Hnone]; [done|]. by rewrite Hnone.
Qed.

(** Whatever the id, the store after the handler is the old one or the
    result of a delete-and-reparent of the stored record the id denotes. *)
Lemma deleteCategory_cases id (db : Categories) w' :
  unique_ids db →
  world_of (Controller.deleteCategory ObjectId_isValid ObjectId_cast id
              (mkWorld db None)) = Some w' →
  collection w' = db
  ∨ ∃ target, target ∈ db ∧ _id target = ObjectId_cast id
              ∧ collection w' = after_delete (ObjectId_cast id) target db.
Proof.
  intros Hu.
  destruct (ObjectId_isValid id) eqn:Hvalid.
  - destruct (lookupById (ObjectId_cast id) db) as [target|] eqn:Hfind.
    + rewrite (deleteCategory_result id db target) by done.
      intros [= <-]. right. exists target.
      destruct (lookupById_Some _ _ _ Hfind). done.
    + rewrite deleteCategory_rejects_run by (by right). intros [= <-]. by left.
  - rewrite deleteCategory_rejects_run by (by left). intros [= <-]. by left.
Qed.

End delete_runs.

(** X17. A delete with a malformed id is answered 400, one with a
    well-formed id that denotes no stored category 404; in both cases the
    store is left unchanged (after the 400 the handler goes on, and fails on
    the lookup without touching the store). *)
Theorem deleteCategory_rejects (ObjectId_isValid : string → bool)
    (ObjectId_cast : string → string)
    (id : string) (db : Categories) :
  ObjectId_isValid id = false ∨ lookupById (ObjectId_cast id) db = None →
  world_of (Controller.deleteCategory ObjectId_isValid ObjectId_cast id
              (mkWorld db None))
  = Some (mkWorld db (Some (if ObjectId_isValid id
                            then mkResponse 404 "Category not found"
                            else mkResponse 400 "Invalid category ID"))).
Proof. apply deleteCategory_rejects_run. Qed.

Lemma deleteCategory_rejects_witness :
  world_of (Controller.deleteCategory hex24 lower_hex "65A0000000000000000000FF"
              (mkWorld sample None))
  = Some (mkWorld sample (Some (if hex24 "65A0000000000000000000FF"
                                then mkResponse 404 "Category not found"
                                else mkResponse 400 "Invalid category ID"))).
Proof.
  apply (deleteCategory_rejects hex24 lower_hex "65A0000000000000000000FF" sample).
  right. vm_compute. reflexivity.
Defined.

(** The two rejections on the sample store. *)
Example deleteCategory_rejects_sample :
  world_of (Controller.deleteCategory hex24 lower_hex "not-an-id" (mkWorld sample None))
  = Some (mkWorld sample (Some (mkResponse 400 "Invalid category ID")))
  ∧ world_of (Controller.deleteCategory hex24 lower_hex "65A0000000000000000000FF"
                (mkWorld sample None))
    = Some (mkWorld sample (Some (mkResponse 404 "Category not found"))).
Proof. vm_compute. done. Qed.

(** X18. Delete-and-reparent keeps the store a forest: from a store with
    unique ids and no cycle, whatever the id of the request, the store the
    handler leaves has unique ids and no cycle. *)
Theorem deleteCategory_keeps_forest (ObjectId_isValid : string → bool)
    (ObjectId_cast : string → string)
    (id : string) (db : Categories) (w' : World) :
  unique_ids db → acyclic db →
  world_of (Controller.deleteCategory ObjectId_isValid ObjectId_cast id
              (mkWorld db None)) = Some w' →
  unique_ids (collection w') ∧ acyclic (collection w').
Proof.
  intros Hu Hacyc Hend.
  destruct (deleteCategory_cases _ _ _ _ _ Hu Hend)
    as [->|(target & Ht & Hid & ->)]; [done|].
  split; [by apply after_delete_unique|by apply after_delete_acyclic].
Qed.

Lemma deleteCategory_keeps_forest_witness :
  unique_ids (collection sample_without_computers)
  ∧ acyclic (collection sample_without_computers).
Proof.
  apply (deleteCategory_keeps_forest hex24 lower_hex "65A000000000000000000002" sample).
  - unfold unique_ids. apply (bool_decide_unpack _). vm_compute. exact I.
  - apply acyclicb_sound. vm_compute. reflexivity.
  - vm_compute. reflexivity.
Defined.

(** X19. Delete-and-reparent creates no dangling parent: from a store with
    unique ids, no cycle, and every parent reference resolving to a stored
    category, the store the handler leaves has every parent reference
    resolving as well. *)
Theorem deleteCategory_keeps_parents_resolved (ObjectId_isValid : string → bool)
    (ObjectId_cast : string → string)
    (id : string) (db : Categories) (w' : World) :
  unique_ids db → acyclic db → resolved db →
  world_of (Controller.deleteCategory ObjectId_isValid ObjectId_cast id
              (mkWorld db None)) = Some w' →
  resolved (collection w').
Proof.
  intros Hu Hacyc Hres Hend.
  destruct (deleteCategory_cases _ _ _ _ _ Hu Hend)
    as [->|(target & Ht & Hid & ->)]; [done|].
  by apply after_delete_resolved.
Qed.

Lemma deleteCategory_keeps_parents_resolved_witness :
  resolved
    (collection
       (mkWorld
          [electronics;
           mkCategory "65a000000000000000000003" "Laptops"
             (Some "65a000000000000000000001") active;
           mkCategory "65a000000000000000000004" "Desktops"
             (Some "65a000000000000000000001") active;
           gaming; phones]
          (Some (mkResponse 200
                   "Category deleted successfully and subcategories reassigned")))).
Proof.
  apply (deleteCategory_keeps_parents_resolved hex24 lower_hex
           "65A000000000000000000002" catalog).
  - unfold unique_ids. apply (bool_decide_unpack _). vm_compute. exact I.
  - apply acyclicb_sound. vm_compute. reflexivity.
  - apply resolvedb_sound. vm_compute. reflexivity.
  - vm_compute. reflexivity.
Defined.

(** X20. A category is deleted once: after a successful delete (store with
    unique ids), the same delete request is answered 404 and changes
    nothing. *)
Theorem deleteCategory_twice (ObjectId_isValid : string → bool)
    (ObjectId_cast : string → string)
    (id : string) (db : Categories) (target : ICategory) :
  unique_ids db → ObjectId_isValid id = true →
  lookupById (ObjectId_cast id) db = Some target →
  ∃ db',
    Controller.deleteCategory ObjectId_isValid ObjectId_cast id (mkWorld db None)
    = Returned ()
        (mkWorld db'
           (Some (mkResponse 200
                    "Category deleted successfully and subcategories reassigned")))
    ∧ Controller.deleteCategory ObjectId_isValid ObjectId_cast id (mkWorld db' None)
      = Returned () (mkWorld db' (Some (mkResponse 404 "Category not found"))).
Proof.
  intros Hu Hvalid Hfind.
  exists (after_delete (ObjectId_cast id) target db).
  split; [by apply deleteCategory_result|].
  assert (lookupById (ObjectId_cast id) (after_delete (ObjectId_cast id) target db)
          = None) as Hgone.
  { apply lookupById_None. rewrite after_delete_ids.
    by intros [? _]%list_elem_of_filter. }
  unfold_handler. rewrite Hvalid. simpl. by rewrite Hgone.
Qed.

Lemma deleteCategory_twice_witness :
  ∃ db',
    Controller.deleteCategory hex24 lower_hex "65A000000000000000000002"
      (mkWorld sample None)
    = Returned ()
        (mkWorld db'
           (Some (mkResponse 200
                    "Category deleted successfully and subcategories reassigned")))
    ∧ Controller.deleteCategory hex24 lower_hex "65A000000000000000000002"
        (mkWorld db' None)
      = Returned () (mkWorld db' (Some (mkResponse 404 "Category not found"))).
Proof.
  apply (deleteCategory_twice hex24 lower_hex "65A000000000000000000002" sample
           computers).
  - unfold unique_ids. apply (bool_decide_unpack _). vm_compute. exact I.
  - vm_compute. reflexivity.
  - vm_compute. reflexivity.
Defined.

(** X21. Delete-and-reparent keeps the rest of the hierarchy: in a store
    with unique ids and no cycle, after the delete of a stored category, a
    surviving category is a transitive descendant of another surviving one
    exactly when it was before. *)
Theorem deleteCategory_keeps_descendants (ObjectId_isValid : string → bool)
    (ObjectId_cast : string → string)
    (id : string) (db : Categories) (target : ICategory) :
  unique_ids db → acyclic db →
  ObjectId_isValid id = true → lookupById (ObjectId_cast id) db = Some target →
  ∃ db',
    Controller.deleteCategory ObjectId_isValid ObjectId_cast id (mkWorld db None)
    = Returned ()
        (mkWorld db'
           (Some (mkResponse 200
                    "Category deleted successfully and subcategories reassigned")))
    ∧ ∀ a y, a ≠ ObjectId_cast id → y ≠ ObjectId_cast id →
             descendant db' a y ↔ descendant db a y.
Proof.
  intros Hu Hacyc Hvalid Hfind.
  destruct (lookupById_Some _ _ _ Hfind) as [Ht Hid].
  exists (after_delete (ObjectId_cast id) target db).
  split; [by apply deleteCategory_result|].
  intros a y Ha Hy. split.
  - by apply after_delete_descendant.
  - intros Hd.
    by apply (after_delete_descendant_back db (ObjectId_cast id) target
                Hu Ht Hid a y Hacyc Ha Hd).
Qed.

Lemma deleteCategory_keeps_descendants_witness :
  ∃ db',
    Controller.deleteCategory hex24 lower_hex "65A000000000000000000002"
      (mkWorld sample None)
    = Returned ()
        (mkWorld db'
           (Some (mkResponse 200
                    "Category deleted successfully and subcategories reassigned")))
    ∧ ∀ a y, a ≠ lower_hex "65A000000000000000000002" →
             y ≠ lower_hex "65A000000000000000000002" →
             descendant db' a y ↔ descendant sample a y.
Proof.
  apply (deleteCategory_keeps_descendants hex24 lower_hex "65A000000000000000000002"
           sample computers).
  - unfold unique_ids. apply (bool_decide_unpack _). vm_compute. exact I.
  - apply acyclicb_sound. vm_compute. reflexivity.
  - vm_compute. reflexivity.
  - vm_compute. reflexivity.
Defined.

(** * More on the create handler *)

Section create_results.
Variable ObjectId_isValid : string → bool.
Variable ObjectId_cast : string → string.
Variable String_trim : string → string.

Lemma validate_Some d c :
  validate d = Some c →
  _id c = doc_id d ∧ name c ≠ "" ∧ doc_name d = Some (name c)
  ∧ parent c = doc_parent d ∧ Status_of_string (doc_status d) = Some (status c).
Proof.
  unfold validate. destruct (doc_name d) as [n|]; simpl; [|done].
  case_decide as Hn; [done|].
  destruct (Status_of_string (doc_status d)) as [s|]; simpl; [|done].
  by intros [= <-].
Qed.

(** Whatever the request, the handler ends, and the store is the old one or
    the old one with one validated record added at the end. *)
Lemma createCategory_cases newId body (db : Categories) r :
  ∃ w', world_of (Controller.createCategory ObjectId_isValid ObjectId_cast String_trim
                    newId body (mkWorld db r)) = Some w'
        ∧ (collection w' = db
           ∨ ∃ c, collection w' = db ++ [c] ∧ _id c = newId ∧ name c ≠ ""
                  ∧ parent c = (if truthy (req_parent body)
                                then ObjectId_cast <$> req_parent body
                                else None)).
Proof.
  unfold_handler.
  destruct (truthy (req_parent body)); simpl.
  - destruct (ObjectId_isValid _); simpl.
    + destruct (lookupById _ db); simpl.
      * destruct (validate _) as [c|] eqn:Hv; simpl; destruct r; simpl;
          (eexists; split; [reflexivity|]; simpl); try (by left).
        all: right; exists c; destruct (validate_Some _ _ Hv) as (? & ? & _ & ? & _);
          done.
      * destruct r; simpl.
        -- eexists; split; [reflexivity|]; by left.
        -- destruct (validate _) as [c|] eqn:Hv; simpl;
             (eexists; split; [reflexivity|]; simpl); try (by left).
           right; exists c; destruct (validate_Some _ _ Hv) as (? & ? & _ & ? & _);
             done.
    + destruct r; simpl; eexists; (split; [reflexivity|]); by left.
  - destruct (validate _) as [c|] eqn:Hv; simpl; destruct r; simpl;
      (eexists; split; [reflexivity|]; simpl); try (by left).
    all: right; exists c; destruct (validate_Some _ _ Hv) as (? & ? & _ & ? & _);
      done.
Qed.

Lemma createCategory_created_run newId body (db : Categories) n s :
  (truthy (req_parent body) = false
   ∨ ∃ p, req_parent body = Some p ∧ p ≠ "" ∧ ObjectId_isValid p = true
          ∧ is_Some (lookupById (ObjectId_cast p) db)) →
  req_name body = Some n → String_trim n ≠ "" →
  requested_status body = Some s →
  Controller.createCategory ObjectId_isValid ObjectId_cast String_trim newId body
    (mkWorld db None)
  = Returned ()
      (mkWorld (db ++ [mkCategory newId (String_trim n)
                         (if truthy (req_parent body)
                          then ObjectId_cast <$> req_parent body else None)
                         s])
               (Some (mkResponse 201 "Category created successfully"))).
Proof.
  intros Hparent Hn Htrim Hs.
  unfold_handler. unfold validate, requested_status in *.
  rewrite Hn in *. simpl.
  destruct Hparent as [Hfalsy|(p & Hp & Hne & Hvalid & [pc Hpc])]; simpl.
  - rewrite Hfalsy. simpl. rewrite decide_False by done. rewrite Hs. simpl. done.
  - rewrite Hp. simpl. rewrite (bool_decide_eq_true_2 _ Hne). simpl.
    rewrite Hvalid. simpl. rewrite Hpc. simpl.
    rewrite decide_False by done. rewrite Hs. simpl. done.
Qed.

Lemma createCategory_malformed_run newId body (db : Categories) p :
  req_parent body = Some p → p ≠ "" → ObjectId_isValid p = false →
  Controller.createCategory ObjectId_isValid ObjectId_cast String_trim newId body
    (mkWorld db None)
  = Returned () (mkWorld db (Some (mkResponse 500 "Failed to create category"))).
Proof.
  intros Hp Hne Hvalid. unfold_handler.
  rewrite Hp. simpl. rewrite (bool_decide_eq_true_2 _ Hne). simpl.
  by rewrite Hvalid.
Qed.

End create_results.

(** X22. A create request with no parent, or with a well-formed parent id
    that denotes a stored category, and with a valid name and status, is
    answered 201 and appends exactly the new category (trimmed name, the
    parent the request denotes or none, the given status or active) to the
    store. *)
Theorem createCategory_created
    (ObjectId_isValid : string → bool) (ObjectId_cast : string → string)
    (String_trim : string → string)
    (newId : string) (body : Body) (db : Categories) (n : string) (s : Status) :
  (truthy (req_parent body) = false
   ∨ ∃ p, req_parent body = Some p ∧ p ≠ "" ∧ ObjectId_isValid p = true
          ∧ is_Some (lookupById (ObjectId_cast p) db)) →
  req_name body = Some n → String_trim n ≠ "" →
  requested_status body = Some s →
  Controller.createCategory ObjectId_isValid ObjectId_cast String_trim newId body
    (mkWorld db None)
  = Returned ()
      (mkWorld (db ++ [mkCategory newId (String_trim n)
                         (if truthy (req_parent body)
                          then ObjectId_cast <$> req_parent body else None)
                         s])
               (Some (mkResponse 201 "Category created successfully"))).
Proof. apply createCategory_created_run. Qed.

Lemma createCategory_created_witness :
  Controller.createCategory hex24 lower_hex trim_ascii "65a000000000000000000008"
    (mkBody (Some "Tablets ") (Some "65A000000000000000000001") None)
    (mkWorld sample None)
  = Returned ()
      (mkWorld (sample ++ [mkCategory "65a000000000000000000008" (trim_ascii "Tablets ")
                             (if truthy (Some "65A000000000000000000001")
                              then lower_hex <$> Some "65A000000000000000000001"
                              else None)
                             active])
               (Some (mkResponse 201 "Category created successfully"))).
Proof.
  apply (createCategory_created hex24 lower_hex trim_ascii "65a000000000000000000008"
           (mkBody (Some "Tablets ") (Some "65A000000000000000000001") None) sample
           "Tablets " active).
  - right. exists "65A000000000000000000001". split; [reflexivity|].
    split; [apply (bool_decide_unpack _); vm_compute; exact I|].
    split; [vm_compute; reflexivity|]. exists electronics. vm_compute. reflexivity.
  - reflexivity.
  - apply (bool_decide_unpack _). vm_compute. exact I.
  - vm_compute. reflexivity.
Defined.

(** X23. Whatever the request and whatever was already sent, the create
    handler ends, never changes or removes a stored category, and adds at
    most one: a record with the generated id, a non-empty name, and the
    parent the request denotes (none when the request has none). *)
Theorem createCategory_adds_at_most_one
    (ObjectId_isValid : string → bool) (ObjectId_cast : string → string)
    (String_trim : string → string)
    (newId : string) (body : Body) (db : Categories) (r : option Response) :
  ∃ w', world_of (Controller.createCategory ObjectId_isValid ObjectId_cast String_trim
                    newId body (mkWorld db r)) = Some w'
        ∧ (collection w' = db
           ∨ ∃ c, collection w' = db ++ [c] ∧ _id c = newId ∧ name c ≠ ""
                  ∧ parent c = (if truthy (req_parent body)
                                then ObjectId_cast <$> req_parent body
                                else None)).
Proof. apply createCategory_cases. Qed.

(** X24. A create request whose parent is not a well-formed id is answered
    500 and nothing is saved. *)
Theorem createCategory_malformed_parent
    (ObjectId_isValid : string → bool) (ObjectId_cast : string → string)
    (String_trim : string → string)
    (newId : string) (body : Body) (db : Categories) (p : string) :
  req_parent body = Some p → p ≠ "" → ObjectId_isValid p = false →
  Controller.createCategory ObjectId_isValid ObjectId_cast String_trim newId body
    (mkWorld db None)
  = Returned () (mkWorld db (Some (mkResponse 500 "Failed to create category"))).
Proof. apply createCategory_malformed_run. Qed.

Lemma createCategory_malformed_parent_witness :
  Controller.createCategory hex24 lower_hex trim_ascii "65a000000000000000000008"
    (mkBody (Some "Tablets") (Some "electronics") None) (mkWorld sample None)
  = Returned () (mkWorld sample (Some (mkResponse 500 "Failed to create category"))).
Proof.
  apply (createCategory_malformed_parent hex24 lower_hex trim_ascii
           "65a000000000000000000008"
           (mkBody (Some "Tablets") (Some "electronics") None) sample "electronics").
  - reflexivity.
  - apply (bool_decide_unpack _). vm_compute. exact I.
  - vm_compute. reflexivity.
Defined.

(** X25. Creating keeps the store a forest when the generated id is fresh:
    from a store with unique ids and no cycle, if the new id is the id of no
    stored category, the parent of none, and not the id the request's own
    parent denotes, the store the handler leaves has unique ids and no
    cycle. *)
Theorem createCategory_keeps_forest
    (ObjectId_isValid : string → bool) (ObjectId_cast : string → string)
    (String_trim : string → string)
    (newId : string) (body : Body) (db : Categories) (w' : World) :
  unique_ids db → acyclic db →
  newId ∉ ids db → (∀ c, c ∈ db → parent c ≠ Some newId) →
  ObjectId_cast <$> req_parent body ≠ Some newId →
  world_of (Controller.createCategory ObjectId_isValid ObjectId_cast String_trim
              newId body (mkWorld db None)) = Some w' →
  unique_ids (collection w') ∧ acyclic (collection w').
Proof.
  intros Hu Hacyc Hfresh Hnokid Hself Hend.
  destruct (createCategory_cases ObjectId_isValid ObjectId_cast String_trim
              newId body db None) as (w'' & Hw & Hcase).
  rewrite Hw in Hend. injection Hend as ->.
  destruct Hcase as [->|(c & -> & Hid & _ & Hp)]; [done|]. split.
  - unfold unique_ids, ids. rewrite fmap_app. apply NoDup_app.
    split; [exact Hu|]. split; [|apply NoDup_singleton].
    intros i Hi [->|[]%elem_of_nil]%elem_of_cons. by rewrite Hid in Hi.
  - apply acyclic_snoc; [done|by rewrite Hid|]. rewrite Hp, Hid.
    by destruct (truthy (req_parent body)).
Qed.

Lemma createCategory_keeps_forest_witness :
  unique_ids (collection
    (mkWorld (sample ++ [mkCategory "65a000000000000000000008" "Tablets"
                           (Some "65a0000000000000000000ff") active])
             (Some (mkResponse 400 "Parent category not found"))))
  ∧ acyclic (collection
    (mkWorld (sample ++ [mkCategory "65a000000000000000000008" "Tablets"
                           (Some "65a0000000000000000000ff") active])
             (Some (mkResponse 400 "Parent category not found")))).
Proof.
  apply (createCategory_keeps_forest hex24 lower_hex trim_ascii
           "65a000000000000000000008"
           (mkBody (Some "Tablets") (Some "65A0000000000000000000FF") None) sample).
  - unfold unique_ids. apply (bool_decide_unpack _). vm_compute. exact I.
  - apply acyclicb_sound. vm_compute. reflexivity.
  - apply (bool_decide_unpack _). vm_compute. exact I.
  - apply Forall_forall. apply (bool_decide_unpack _). vm_compute. exact I.
  - apply (bool_decide_unpack _). vm_compute. exact I.
  - vm_compute. reflexivity.
Defined.

(** The freshness of the generated id matters: a request that names, in
    upper case, the id its own document is given is answered 400 "Parent
    category not found" and stores a category that is its own parent. *)
Example createCategory_own_parent :
  world_of (Controller.createCategory hex24 lower_hex trim_ascii
              "65a00000000000000000000a"
              (mkBody (Some "Loop") (Some "65A00000000000000000000A") None)
              (mkWorld sample None)) =
  Some (mkWorld (sample ++ [mkCategory "65a00000000000000000000a" "Loop"
                              (Some "65a00000000000000000000a") active])
                (Some (mkResponse 400 "Parent category not found"))).
Proof. vm_compute. reflexivity. Qed.

(** X26. No cycle protection: when a parent cycle can be reached from an
    id, neither the descendant listing from it nor the status cascade from
    a string that denotes it returns, whatever the number of nested
    activations allowed. *)
Theorem cycle_never_returns
    (ObjectId_isValid : string → bool) (ObjectId_cast : string → string)
    (cats : Categories) (x y : string) (st : Status) :
  rtc (is_child cats) x y → descendant cats y y →
  ∀ fuel,
    getAllDescendantIds fuel x cats = None
    ∧ ∀ x', ObjectId_isValid x' = true → ObjectId_cast x' = x →
            updateDescendantStatus ObjectId_isValid ObjectId_cast fuel x' st cats = None.
Proof.
  intros Hxy Hyy fuel.
  destruct (cycle_diverges cats x y st fuel Hxy Hyy) as [Hl Hc].
  split; [done|]. intros x' Hx' <-.
  rewrite updateDescendantStatus_valid by done. by rewrite Hc.
Qed.

Lemma cycle_never_returns_witness :
  getAllDescendantIds 1000 (_id loop_a) [loop_a; loop_b] = None
  ∧ ∀ x', hex24 x' = true → lower_hex x' = _id loop_a →
          updateDescendantStatus hex24 lower_hex 1000 x' inactive [loop_a; loop_b]
          = None.
Proof.
  apply (λ Hxy Hyy, cycle_never_returns hex24 lower_hex [loop_a; loop_b]
                      (_id loop_a) (_id loop_a) inactive Hxy Hyy 1000).
  - apply rtc_refl.
  - apply (tc_l _ _ (_id loop_b)).
    + exists loop_b. split; [apply (bool_decide_unpack _); vm_compute; exact I|].
      split; reflexivity.
    + apply tc_once. exists loop_a.
      split; [apply (bool_decide_unpack _); vm_compute; exact I|].
      split; reflexivity.
Defined.

(** The upper-case spelling of a looping id runs into the same cycle. *)
Example cycle_never_returns_sample :
  updateDescendantStatus hex24 lower_hex 1000 "65A00000000000000000000A" inactive
    [loop_a; loop_b] = None.
Proof. vm_compute. reflexivity. Qed.

(** X27. The descendant listing returns from every id of a store exactly
    when the store has no parent cycle. More precisely, the listing from an
    id, and the status cascade from a string that denotes it, return (for
    some bound on the nesting) exactly when no cycle is below or at that
    id; in a store without cycle the number of records plus one is enough
    nesting for both. *)
Theorem recursions_return_iff_acyclic
    (ObjectId_isValid : string → bool) (ObjectId_cast : string → string)
    (cats : Categories) :
  ((∀ x, ∃ fuel, is_Some (getAllDescendantIds fuel x cats)) ↔ acyclic cats)
  ∧ (∀ x, (∃ fuel, is_Some (getAllDescendantIds fuel x cats))
          ↔ ∀ y, rtc (is_child cats) x y → ¬ descendant cats y y)
  ∧ (∀ x st, ObjectId_isValid x = true →
       (∃ fuel cats', updateDescendantStatus ObjectId_isValid ObjectId_cast
                        fuel x st cats = Some (inr cats'))
       ↔ ∀ y, rtc (is_child cats) (ObjectId_cast x) y → ¬ descendant cats y y)
  ∧ (acyclic cats ↔
     ∀ x st, is_Some (getAllDescendantIds (S (length cats)) x cats)
             ∧ (ObjectId_isValid x = true →
                ∃ cats', updateDescendantStatus ObjectId_isValid ObjectId_cast
                           (S (length cats)) x st cats = Some (inr cats'))).
Proof.
  split; [|split; [|split]].
  - split.
    + intros Htotal x Hxx. destruct (Htotal x) as (fuel & l & Hl).
      destruct (cycle_diverges cats x x active fuel) as [Hnone _]; [done|done|].
      congruence.
    + intros Hacyc x. exists (S (length cats)). by apply getAllDescendantIds_total.
  - intros x. apply getAllDescendantIds_returns_iff.
  - intros x st Hx.
    destruct (cascade_from_returns_iff cats (ObjectId_cast x) st) as [<- _]. split.
    + intros (fuel & cats' & [_ Hrun]%updateDescendantStatus_returns).
      exists fuel. by exists cats'.
    + intros (fuel & cats' & Hrun). exists fuel, cats'.
      by apply updateDescendantStatus_returns.
  - split.
    + intros Hacyc x st. split; [by apply getAllDescendantIds_total|].
      intros Hx.
      destruct (cascade_from_total st (ObjectId_cast x) cats Hacyc) as [cats' Hrun].
      exists cats'. by apply updateDescendantStatus_returns.
    + intros Htotal x Hxx. destruct (Htotal x active) as [[l Hl] _].
      destruct (cycle_diverges cats x x active (S (length cats))) as [Hnone _];
        [done|done|].
      congruence.
Qed.
